(** * The tsp pipeline executors of TSDuck

    A shallow embedding of [ts::tsp::PluginExecutor]
    (src/tstools/tspPluginExecutor.cpp) and [ts::tsp::InputExecutor]
    (src/tstools/tspInputExecutor.cpp): the ring of plugin executors sharing
    one circular packet buffer, the window hand-off between neighbours, the
    input stuffing policy, the bitrate evaluation and the restart protocol;
    and of the declaration, the search and the validation of the options of
    a command in [ts::Args] (src/libtsduck/base/tsArgs.cpp), which a restart
    with new arguments runs. *)

From Stdlib Require Import ZArith Lia Bool String.
From Stdlib Require OrderedTypeEx.
From stdpp Require Import base tactics option list.

Local Open Scope Z_scope.

(** ** Machine integers

    [size_t] is a 64-bit unsigned integer: a [Z] in [0, 2^64) whose
    arithmetic wraps around.  [BitRate] is a 32-bit unsigned integer. *)

Definition SIZE_MOD : Z := 2 ^ 64.
Definition BITRATE_MOD : Z := 2 ^ 32.
Definition UINT64_MOD : Z := 2 ^ 64.

Definition size_add (a b : Z) : Z := (a + b) mod SIZE_MOD.
Definition size_sub (a b : Z) : Z := (a - b) mod SIZE_MOD.

(** Size in bytes of a transport packet, and its sync byte. *)
Definition PKT_SIZE : Z := 188.
Definition SYNC_BYTE : Z := 71.   (* 0x47 *)

(** ** Plugin executors and their ring *)

Inductive PluginType := INPUT_PLUGIN | OUTPUT_PLUGIN | PROCESSOR_PLUGIN.

Definition is_output (t : PluginType) : bool :=
  match t with OUTPUT_PLUGIN => true | _ => false end.

(** The fields of a [PluginExecutor] which are shared under the global
    mutex.  [to_do] counts the signals sent to the condition [_to_do]. *)
Record PluginExecutor := mkExec {
  ptype : PluginType;        (* plugin()->type() *)
  pkt_first : Z;             (* _pkt_first *)
  pkt_cnt : Z;               (* _pkt_cnt *)
  input_end : bool;          (* _input_end *)
  bitrate : Z;               (* _bitrate *)
  tsp_bitrate : Z;           (* _tsp_bitrate, in superclass TSP *)
  tsp_aborting : bool;       (* _tsp_aborting, in superclass TSP *)
  to_do : nat                (* signals received on _to_do *)
}.

(** The ring of executors: position 0 is the input executor, the last
    position is the output executor; [ringNext] of the last one is the
    first one. *)
Abbreviation Ring := (list PluginExecutor).

Definition ringNext (r : Ring) (i : nat) : nat := (S i mod length r)%nat.
Definition ringPrevious (r : Ring) (i : nat) : nat :=
  ((i + length r - 1) mod length r)%nat.

Definition signal (e : PluginExecutor) : PluginExecutor :=
  mkExec (ptype e) (pkt_first e) (pkt_cnt e) (input_end e) (bitrate e)
         (tsp_bitrate e) (tsp_aborting e) (S (to_do e)).

Definition set_aborting (e : PluginExecutor) : PluginExecutor :=
  mkExec (ptype e) (pkt_first e) (pkt_cnt e) (input_end e) (bitrate e)
         (tsp_bitrate e) true (to_do e).

(** [_tsp_bitrate = b], as the loop of [InputExecutor::main] does. *)
Definition set_tsp_bitrate (b : Z) (e : PluginExecutor) : PluginExecutor :=
  mkExec (ptype e) (pkt_first e) (pkt_cnt e) (input_end e) (bitrate e)
         b (tsp_aborting e) (to_do e).

Definition new_executor (t : PluginType) : PluginExecutor :=
  mkExec t 0 0 false 0 0 false 0.

(** [PluginExecutor::initBuffer] (the buffer pointers are the same for all
    executors and are kept outside of the ring). *)
Definition initBuffer (first cnt : Z) (iend aborted : bool) (br : Z)
    (e : PluginExecutor) : PluginExecutor :=
  mkExec (ptype e) first cnt iend br br aborted (to_do e).

(** The two assertions at the head of [passPackets]; [cap] is
    [_buffer->count()]. *)
Definition passPackets_asserts (cap : Z) (i : nat) (count : Z) (r : Ring) : bool :=
  match r !! i with
  | Some e => (count <=? pkt_cnt e) && (size_add (pkt_first e) count <=? cap)
  | None => false
  end.

(** "Update our buffer". *)
Definition pass_own (cap count : Z) (e : PluginExecutor) : PluginExecutor :=
  mkExec (ptype e) (size_add (pkt_first e) count mod cap)
         (size_sub (pkt_cnt e) count) (input_end e) (bitrate e)
         (tsp_bitrate e) (tsp_aborting e) (to_do e).

(** "Update next processor's buffer" and wake it when there is some data. *)
Definition pass_next (count br : Z) (iend : bool) (e : PluginExecutor)
    : PluginExecutor :=
  mkExec (ptype e) (pkt_first e) (size_add (pkt_cnt e) count)
         (input_end e || iend) br (tsp_bitrate e) (tsp_aborting e)
         (if (0 <? count) || iend then S (to_do e) else to_do e).

(** The body of [PluginExecutor::passPackets] after its two assertions,
    called by the executor at position [i].  It runs under the global mutex,
    hence atomically.  The updates are applied one after the other on the
    ring so that aliasing between the executor, its successor and its
    predecessor is kept.  The result is the new ring and the returned
    boolean. *)
Definition passPackets (cap : Z) (i : nat) (count br : Z) (iend aborted : bool)
    (r : Ring) : Ring * bool :=
  let r1 := alter (pass_own cap count) i r in
  let nx := ringNext r i in
  let r2 := alter (pass_next count br iend) nx r1 in
  let next_aborting := from_option tsp_aborting false (r2 !! nx) in
  let out := from_option (λ e, is_output (ptype e)) false (r2 !! i) in
  let aborted := if out then aborted else aborted || next_aborting in
  let r3 := if aborted
            then alter signal (ringPrevious r i) (alter set_aborting i r2)
            else r2 in
  (r3, negb iend && negb aborted).

(** [PluginExecutor::passPackets] as a whole: the call stops at the first
    assertion which fails ([None]) and runs its body otherwise. *)
Definition passPackets_checked (cap : Z) (i : nat) (count br : Z)
    (iend aborted : bool) (r : Ring) : option (Ring * bool) :=
  if passPackets_asserts cap i count r
  then Some (passPackets cap i count br iend aborted r)
  else None.

(** [PluginExecutor::setAbort]. *)
Definition setAbort (i : nat) (r : Ring) : Ring :=
  alter signal (ringPrevious r i) (alter set_aborting i r).

(** ** Waiting for work

    Inside [waitWork] the global mutex is released while the thread waits on
    [_to_do].  One [WaitEvent] describes one turn of the loop: the result of
    [waitCondition], the answer of the plugin's [handlePacketTimeout] (only
    asked after a timeout) and the ring as the thread finds it once it holds
    the mutex again. *)
Record WaitEvent := mkWaitEvent {
  woken : bool;
  handled : bool;
  ring_then : Ring
}.

Record WorkResult := mkWork {
  w_first : Z;
  w_cnt : Z;
  w_bitrate : Z;
  w_input_end : bool;
  w_aborted : bool;
  w_timeout : bool;
  w_waits : nat       (* number of calls to waitCondition *)
}.

(** The condition of the [while] loop of [waitWork]. *)
Definition must_wait (i : nat) (timeout : bool) (r : Ring) : option bool :=
  match r !! i, r !! ringNext r i with
  | Some e, Some nx =>
      Some ((pkt_cnt e =? 0) && negb (input_end e) && negb timeout
            && negb (tsp_aborting nx))
  | _, _ => None
  end.

(** The loop of [waitWork]: the result is [None] when the thread is still
    blocked after all the events. *)
Fixpoint waitWork_loop (i : nat) (timeout : bool) (waits : nat) (r : Ring)
    (evs : list WaitEvent) : option (bool * nat * Ring) :=
  match must_wait i timeout r with
  | None => None
  | Some false => Some (timeout, waits, r)
  | Some true =>
      match evs with
      | [] => None
      | ev :: evs' =>
          waitWork_loop i (negb (woken ev) && negb (handled ev)) (S waits)
                        (ring_then ev) evs'
      end
  end.

(** [PluginExecutor::waitWork]: the output parameters and the ring which
    the executor holds on return. *)
Definition waitWork (cap : Z) (i : nat) (r : Ring) (evs : list WaitEvent)
    : option (WorkResult * Ring) :=
  match waitWork_loop i false 0 r evs with
  | None => None
  | Some (timeout, waits, r') =>
      match r' !! i, r' !! ringNext r' i with
      | Some e, Some nx =>
          let cnt := if timeout then 0
                     else Z.min (pkt_cnt e) (size_sub cap (pkt_first e)) in
          Some (mkWork (pkt_first e) cnt (bitrate e)
                       (input_end e && (cnt =? pkt_cnt e))
                       (negb (is_output (ptype e)) && tsp_aborting nx)
                       timeout waits, r')
      | _, _ => None
      end
  end.

(** ** The ring part of [InputExecutor::initAllBuffers]

    [pkt_read] is the size of the initial load and [init_bitrate] the
    initial bitrate; the input executor is at position 0. *)
Definition initAllBuffers_ring (cap pkt_read init_bitrate : Z) (r : Ring) : Ring :=
  let z := pkt_read =? 0 in
  let r1 := alter (initBuffer 0 pkt_read z z init_bitrate) (ringNext r 0) r in
  let r2 := alter (initBuffer (pkt_read mod cap) (size_sub cap pkt_read)
                              z z init_bitrate) 0%nat r1 in
  imap (λ k e, if (2 <=? k)%nat then initBuffer 0 0 z z init_bitrate e else e) r2.

(** ** Windows *)

(** Sum of the window sizes of all executors. *)
Definition sum_cnt (r : Ring) : Z := foldr (λ e s, pkt_cnt e + s) 0 r.

(** The slot [k] of the buffer belongs to the window of [e]: the window is
    made of the [pkt_cnt e] slots from [pkt_first e] on, modulo [cap]. *)
Definition in_window (cap : Z) (e : PluginExecutor) (k : Z) : bool :=
  (0 <=? k) && (k <? cap) && ((k - pkt_first e) mod cap <? pkt_cnt e).

Definition windows_disjoint (cap : Z) (r : Ring) : Prop :=
  ∀ (i j : nat) (ei ej : PluginExecutor) (k : Z),
    i ≠ j → r !! i = Some ei → r !! j = Some ej →
    in_window cap ei k = true → in_window cap ej k = true → False.

(** The buffer is an array of [cap] packets of [PKT_SIZE] bytes in memory. *)
Definition buffer_fits (cap : Z) : Prop :=
  0 < cap ∧ cap * PKT_SIZE < SIZE_MOD.

(** The executors of a plugin chain, before [initAllBuffers]. *)
Definition new_ring (nproc : nat) : Ring :=
  new_executor INPUT_PLUGIN :: replicate nproc (new_executor PROCESSOR_PLUGIN)
    ++ [new_executor OUTPUT_PLUGIN].

(** States of the ring which the pipeline can reach: the state set by
    [initAllBuffers] after a successful initial load, then any sequence of
    calls to [passPackets] (with its assertions) and [setAbort] by any
    executor, of updates of the bitrate of an executor by its thread and of
    signals on the condition of an executor (as [restart] sends). *)
Inductive reachable (cap : Z) : Ring → Prop :=
| reach_init nproc pkt_read init_bitrate :
    0 < pkt_read ≤ cap / 2 →
    reachable cap (initAllBuffers_ring cap pkt_read init_bitrate (new_ring nproc))
| reach_pass r i count br iend aborted :
    reachable cap r →
    0 ≤ count →
    passPackets_asserts cap i count r = true →
    reachable cap (passPackets cap i count br iend aborted r).1
| reach_abort r i :
    reachable cap r →
    (i < length r)%nat →
    reachable cap (setAbort i r)
| reach_bitrate r i b :
    reachable cap r →
    reachable cap (alter (set_tsp_bitrate b) i r)
| reach_signal r i :
    reachable cap r →
    reachable cap (alter signal i r).

(** The invariant behind the disjointness of the windows. *)
Record ring_inv (cap : Z) (r : Ring) : Prop := mkRingInv {
  inv_len : (2 ≤ length r)%nat;
  inv_range : ∀ i e, r !! i = Some e → 0 ≤ pkt_first e < cap ∧ 0 ≤ pkt_cnt e;
  inv_sum : sum_cnt r = cap;
  inv_chain : ∀ i e nx, r !! i = Some e → r !! ringNext r i = Some nx →
      (pkt_first nx + pkt_cnt nx) mod cap = pkt_first e
}.

(** Congruence modulo the size of the buffer, with an explicit quotient. *)
Definition congr (cap a b : Z) : Prop := ∃ q, a = b + q * cap.

(** ** Sample rings

    A ring of two executors on a buffer of 8 packets after an initial load
    of 4 packets: the input executor owns the slots 4 to 7 and the output
    executor the slots 0 to 3. *)
Definition ring_2_4 : Ring := initAllBuffers_ring 8 4 0 (new_ring 0).

(** The same ring after the input executor passed its 4 slots, the output
    executor passed 2 slots and the input executor passed them again: the
    window of the output executor is the whole buffer, from the slot 2 on,
    around the end of the buffer. *)
Definition ring_wrapped : Ring :=
  (passPackets 8 0 2 0 false false
     (passPackets 8 1 2 0 false false
        (passPackets 8 0 4 0 false false ring_2_4).1).1).1.

(** A ring of three executors in which the packet processor aborted
    and the input executor then passed packets, hence is aborting too. *)
Definition ring_3_aborted : Ring :=
  (passPackets 8 0 0 0 false false
     (passPackets 8 1 0 0 false true
        (initAllBuffers_ring 8 4 0 (new_ring 1))).1).1.

(** ** Restart of a plugin

    Reports are modelled by the list of the messages which they received. *)

Inductive Severity :=
  SevFatal | SevSevere | SevError | SevWarning | SevInfo | SevVerbose | SevDebug.

Definition Message : Type := Severity * string.

(** The virtual methods of [ts::Plugin] (and of its superclass [ts::Args])
    which the executor uses for a restart.  Every method returns its result,
    the new state of the plugin and the messages which it logged: they all
    go to the report of the executor, since [ts::Plugin::writeLog] sends
    every message to [tsp->log], whatever the redirection of the report of
    [ts::Args]. *)
Class Plugin (P : Type) := {
  p_stop : P → bool * P * list Message;
  p_start : P → bool * P * list Message;
  p_getOptions : P → bool * P * list Message;
  (* analyze(pluginName(), args, false) *)
  p_analyze : list string → P → bool * P * list Message;
  p_getCommandArgs : P → list string;
  (* setFlags(getFlags() | Args::NO_HELP | Args::NO_EXIT_ON_ERROR) *)
  p_setRestartFlags : P → P
}.

(** The calls to the plugin, in the order in which they are made. *)
Inductive PluginCall :=
| CallStop
| CallStart
| CallGetOptions
| CallAnalyze (args : list string)
| CallGetCommandArgs
| CallSetFlags.

(** [PluginExecutor::RestartData]: [rd_signals] counts the signals sent to
    its condition. *)
Record RestartData := mkRestartData {
  rd_report : list Message;
  same_args : bool;
  rd_args : list string;
  completed : bool;
  rd_signals : nat
}.

(** The part of the state of a [PluginExecutor] which a restart involves.
    A [RestartData] is shared between the thread which asks for the restart
    and the thread of the plugin: [rd_heap] holds these objects and
    [restart_data] points to one of them. *)
Record RestartExec (P : Type) := mkRestartExec {
  plugin : P;
  exec_log : list Message;        (* the report of the executor *)
  subreport : option nat;         (* Args::_subreport, when redirected *)
  restart_flag : bool;            (* _restart *)
  restart_data : option nat;      (* _restart_data *)
  rd_heap : list RestartData;
  calls : list PluginCall;
  exec_to_do : nat                (* signals received on _to_do *)
}.

Arguments mkRestartExec {P}.
Arguments plugin {P}.
Arguments exec_log {P}.
Arguments subreport {P}.
Arguments restart_flag {P}.
Arguments restart_data {P}.
Arguments rd_heap {P}.
Arguments calls {P}.
Arguments exec_to_do {P}.

Definition rd_add_messages (ms : list Message) (rd : RestartData) : RestartData :=
  mkRestartData (rd_report rd ++ ms) (same_args rd) (rd_args rd)
                (completed rd) (rd_signals rd).

(** [completed = true] followed by a signal of the condition. *)
Definition rd_complete (rd : RestartData) : RestartData :=
  mkRestartData (rd_report rd) (same_args rd) (rd_args rd) true
                (S (rd_signals rd)).

Section Restart.
Context {P : Type} `{Plugin P}.

(** Messages of the executor itself. *)
Definition exec_report (m : Message) (s : RestartExec P) : RestartExec P :=
  mkRestartExec (plugin s) (exec_log s ++ [m]) (subreport s) (restart_flag s)
                (restart_data s) (rd_heap s) (calls s) (exec_to_do s).

(** Messages sent to the report of a [RestartData]. *)
Definition rd_report_to (id : nat) (ms : list Message) (s : RestartExec P)
    : RestartExec P :=
  mkRestartExec (plugin s) (exec_log s) (subreport s) (restart_flag s)
                (restart_data s) (alter (rd_add_messages ms) id (rd_heap s))
                (calls s) (exec_to_do s).

(** Messages of the plugin: [ts::Plugin::writeLog] sends them to
    [tsp->log], the report of the executor, also when the report of
    [ts::Args] is redirected. *)
Definition plugin_report (ms : list Message) (s : RestartExec P)
    : RestartExec P :=
  mkRestartExec (plugin s) (exec_log s ++ ms) (subreport s)
                (restart_flag s) (restart_data s) (rd_heap s) (calls s)
                (exec_to_do s).

(** [plugin()->redirectReport(rep)]: the previous redirection is returned. *)
Definition redirectReport (rep : option nat) (s : RestartExec P)
    : option nat * RestartExec P :=
  (subreport s,
   mkRestartExec (plugin s) (exec_log s) rep (restart_flag s)
                 (restart_data s) (rd_heap s) (calls s) (exec_to_do s)).

(** One call to a method of the plugin. *)
Definition call_plugin (c : PluginCall) (f : P → bool * P * list Message)
    (s : RestartExec P) : bool * RestartExec P :=
  let '(ok, p', ms) := f (plugin s) in
  (ok, plugin_report ms
         (mkRestartExec p' (exec_log s) (subreport s) (restart_flag s)
                        (restart_data s) (rd_heap s) (calls s ++ [c])
                        (exec_to_do s))).

Definition call_setFlags (s : RestartExec P) : RestartExec P :=
  mkRestartExec (p_setRestartFlags (plugin s)) (exec_log s) (subreport s)
                (restart_flag s) (restart_data s) (rd_heap s)
                (calls s ++ [CallSetFlags]) (exec_to_do s).

Definition call_getCommandArgs (s : RestartExec P)
    : list string * RestartExec P :=
  (p_getCommandArgs (plugin s),
   mkRestartExec (plugin s) (exec_log s) (subreport s) (restart_flag s)
                 (restart_data s) (rd_heap s)
                 (calls s ++ [CallGetCommandArgs]) (exec_to_do s)).

(** [plugin()->analyze(pluginName(), args, false) &&
     plugin()->getOptions() && plugin()->start()]. *)
Definition try_start (args : list string) (s : RestartExec P)
    : bool * RestartExec P :=
  let '(ok1, s1) := call_plugin (CallAnalyze args) (p_analyze args) s in
  if ok1 then
    let '(ok2, s2) := call_plugin CallGetOptions p_getOptions s1 in
    if ok2 then call_plugin CallStart p_start s2 else (false, s2)
  else (false, s1).

Definition MSG_RESTARTING_TSP : Message :=
  (SevVerbose, "restarting due to remote tspcontrol"%string).
Definition MSG_RESTARTING : Message :=
  (SevVerbose, "restarting plugin"%string).
Definition MSG_FALLBACK : Message :=
  (SevWarning,
   "failed to restart plugin, restarting with previous parameters"%string).
Definition MSG_RESTARTED : Message := (SevDebug, "restarted plugin"%string).
Definition MSG_INTERRUPTED : Message :=
  (SevError, "restart interrupted by another concurrent restart"%string).

(** The end of [processPendingRestart]: notify the calling thread and
    clear the restart trigger. *)
Definition finish_restart (id : nat) (s : RestartExec P) : RestartExec P :=
  mkRestartExec (plugin s) (exec_log s) (subreport s) false None
                (alter rd_complete id (rd_heap s)) (calls s) (exec_to_do s).

(** [PluginExecutor::processPendingRestart]. *)
Definition processPendingRestart (s : RestartExec P) : bool * RestartExec P :=
  match restart_flag s, restart_data s with
  | true, Some id =>
      match rd_heap s !! id with
      | None => (true, s)
      | Some rd =>
          let s := exec_report MSG_RESTARTING_TSP s in
          let s := rd_report_to id [MSG_RESTARTING] s in
          (* First, stop the current execution. *)
          let s := (call_plugin CallStop p_stop s).2 in
          let '(previous_report, s) := redirectReport (Some id) s in
          let '(success, s) :=
            if same_args rd then call_plugin CallStart p_start s
            else
              let '(previous_args, s) := call_getCommandArgs s in
              let s := call_setFlags s in
              let '(ok, s) := try_start (rd_args rd) s in
              if ok then (true, s)
              else try_start previous_args
                     (rd_report_to id [MSG_FALLBACK] s) in
          let s := (redirectReport previous_report s).2 in
          let s := finish_restart id s in
          (success, exec_report MSG_RESTARTED s)
      end
  | _, _ => (true, s)
  end.

(** The part of [PluginExecutor::restart] which runs under the global
    mutex, before the caller waits for the completion: a pending restart
    is cancelled, the new one is declared and the thread of the plugin is
    signalled.  The new [RestartData] is allocated at the end of the
    heap. *)
Definition restart (same : bool) (params : list string) (s : RestartExec P)
    : nat * RestartExec P :=
  let heap1 :=
    match restart_data s with
    | Some old =>
        alter (λ rd, rd_complete (rd_add_messages [MSG_INTERRUPTED] rd))
              old (rd_heap s)
    | None => rd_heap s
    end in
  let id := length heap1 in
  (id,
   mkRestartExec (plugin s) (exec_log s) (subreport s) true (Some id)
                 (heap1 ++ [mkRestartData [] same params false 0])
                 (calls s) (S (exec_to_do s))).
End Restart.

(** What is assumed of the command line of a plugin: [analyze] saves its
    arguments as the command line ([Args::analyze] with the flag
    [NO_CONFIG_FILE] of plugins) and no other method changes it. *)
Record plugin_keeps_args {P : Type} `{Plugin P} : Prop := mkKeepsArgs {
  analyze_args : ∀ a p, p_getCommandArgs (p_analyze a p).1.2 = a;
  getOptions_args : ∀ p, p_getCommandArgs (p_getOptions p).1.2 = p_getCommandArgs p;
  start_args : ∀ p, p_getCommandArgs (p_start p).1.2 = p_getCommandArgs p;
  stop_args : ∀ p, p_getCommandArgs (p_stop p).1.2 = p_getCommandArgs p;
  setFlags_args : ∀ p, p_getCommandArgs (p_setRestartFlags p) = p_getCommandArgs p
}.

Arguments plugin_keeps_args P {_}.

(** A sample plugin: its state is its command line and whether it is
    started.  [analyze] saves the command line and returns true, as
    [Args::analyze] does for a plugin which is not asked for its version:
    the errors of the analysis are logged through [ts::Plugin::writeLog],
    which does not clear [_is_valid].  [getOptions] rejects a command line
    which holds the option [--bad] and reports it as an error. *)
Definition SamplePlugin : Type := list string * bool.

Definition sample_valid (args : list string) : bool :=
  forallb (λ a, negb (String.eqb a "--bad")) args.

#[export] Instance sample_plugin : Plugin SamplePlugin := {
  p_stop p := (true, (p.1, false), []);
  p_start p := (true, (p.1, true), []);
  p_getOptions p :=
    if sample_valid p.1 then (true, p, [])
    else (false, p, [(SevError, "invalid option --bad"%string)]);
  p_analyze a p := (true, (a, p.2), []);
  p_getCommandArgs p := p.1;
  p_setRestartFlags p := p
}.

(** The sample plugin runs with [-a]; a restart with [--bad] is pending. *)
Definition sample_restart : RestartExec SamplePlugin :=
  (restart false ["--bad"%string]
     (mkRestartExec (["-a"%string], true) [] None false None [] [] 0)).2.

(** The state of the executor once [processPendingRestart] has stopped the
    plugin. *)
Definition restart_stopped {P : Type} `{Plugin P} (id : nat)
    (s : RestartExec P) : RestartExec P :=
  (call_plugin CallStop p_stop
     (rd_report_to id [MSG_RESTARTING]
        (exec_report MSG_RESTARTING_TSP s))).2.

(** The state in which [processPendingRestart] tries the new arguments:
    the plugin is stopped, the report of its [ts::Args] is redirected to
    the [RestartData], its previous arguments are saved and its flags are
    set. *)
Definition restart_prologue {P : Type} `{Plugin P} (id : nat)
    (s : RestartExec P) : RestartExec P :=
  call_setFlags
    (call_getCommandArgs
       (redirectReport (Some id) (restart_stopped id s)).2).2.

(** The [RestartData] at [id] is [rd] with more messages in its report. *)
Definition rd_extends {P : Type} (id : nat) (rd : RestartData)
    (s : RestartExec P) : Prop :=
  ∃ ms, rd_heap s !! id = Some (rd_add_messages ms rd).

(** ** Packets and the packet buffer *)

(** A transport packet is its array of [PKT_SIZE] bytes [b]. *)
Definition TSPacket : Type := list Z.

(** [TSPacket::hasValidSync]: [b[0] == SYNC_BYTE]. *)
Definition hasValidSync (p : TSPacket) : bool := nth 0 p 0 =? SYNC_BYTE.

(** Modelled from the spec: the constant [ts::NullPacket] is not in the
    sources at hand.  This is the null packet of MPEG-2 transport streams:
    the sync byte, PID 0x1FFF, payload only, all stuffing bytes 0xFF. *)
Definition NullPacket : TSPacket := [71; 31; 255; 16] ++ replicate 184 255.

(** [TSPacketMetadata]: the input stuffing flag and what a plugin may have
    set (labels and so on), which the executors do not look at. *)
Record TSPacketMetadata := mkMetadata {
  input_stuffing : bool;
  md_plugin : Z
}.

Definition md_reset : TSPacketMetadata := mkMetadata false 0.
Definition md_setInputStuffing (on : bool) (m : TSPacketMetadata)
    : TSPacketMetadata := mkMetadata on (md_plugin m).

(** The packet buffer and the metadata buffer are arrays indexed by slot. *)
Definition write {X : Type} (a : Z → X) (i : Z) (x : X) : Z → X :=
  λ k, if k =? i then x else a k.

Fixpoint write_list {X : Type} (a : Z → X) (i : Z) (l : list X) : Z → X :=
  match l with
  | [] => a
  | x :: l' => write_list (write a i x) (size_add i 1) l'
  end.

Fixpoint read_range {X : Type} (a : Z → X) (i : Z) (n : nat) : list X :=
  match n with
  | O => []
  | S n' => a i :: read_range a (size_add i 1) n'
  end.

(** ** The input executor *)

(** The options of tsp which the input executor reads
    ([ts::TSProcessorArgs]). *)
Record Options := mkOptions {
  opt_bitrate : Z;          (* bitrate *)
  bitrate_adj : Z;          (* bitrate_adj, milliseconds *)
  init_bitrate_adj : Z;     (* init_bitrate_adj, packets *)
  max_input_pkt : Z;
  instuff_nullpkt : Z;
  instuff_inpkt : Z;
  instuff_start : Z;
  instuff_stop : Z
}.

(** The methods of the input plugin: [receive] returns the packets which it
    wrote (with the metadata which it may have set) and [getBitrate] the
    bitrate of the plugin, 0 when unknown. *)
Class InputPlugin (I : Type) := {
  receive : I → Z → list (TSPacket * TSPacketMetadata) * I;
  plugin_getBitrate : I → Z;
  input_stop : I → I
}.

(** [receive] returns at most [max_packets] packets. *)
Definition receive_bounded (I : Type) `{InputPlugin I} : Prop :=
  ∀ (p : I) (m : Z), 0 ≤ m → Z.of_nat (length (receive p m).1) ≤ m.

(** The bitrate analyzers ([ts::PCRAnalyzer], on PCR or on DTS), which are
    not in the sources at hand, through the methods which the executor
    uses. *)
Class Analyzer (A : Type) := {
  feedPacket : A → TSPacket → A;
  bitrateIsValid : A → bool;
  bitrate188 : A → Z
}.

(** The messages of the input executor. *)
Inductive InputMsg :=
| ErrSyncLost (after got : Z)           (* error: synchronization lost *)
| DbgPacketBefore (pkt : TSPacket)      (* debug: packet before the loss *)
| DbgDataAtLoss (pkts : list TSPacket)  (* debug: data at the loss *)
| DbgInitialLoad (pkts : Z)
| VerbUnknownBitrate
| VerbInitialBitrate (b : Z)
| DbgGotBitrate (b : Z)
| DbgStarted
| DbgEnded (aborted : bool) (total : Z).

Definition is_error (m : InputMsg) : bool :=
  match m with ErrSyncLost _ _ => true | _ => false end.

(** The state of an [InputExecutor], apart from its place in the ring. *)
Record InputExecutor (I A : Type) := mkInput {
  options : Options;                 (* _options *)
  max_severity : Z;                  (* maxSeverity() *)
  input : I;                         (* _input *)
  in_sync_lost : bool;               (* _in_sync_lost *)
  instuff_start_remain : Z;          (* _instuff_start_remain *)
  instuff_stop_remain : Z;           (* _instuff_stop_remain *)
  instuff_nullpkt_remain : Z;        (* _instuff_nullpkt_remain *)
  instuff_inpkt_remain : Z;          (* _instuff_inpkt_remain *)
  pcr_analyzer : A;                  (* _pcr_analyzer *)
  dts_analyzer : A;                  (* _dts_analyzer *)
  use_dts_analyzer : bool;           (* _use_dts_analyzer *)
  buffer : Z → TSPacket;             (* _buffer->base() *)
  metadata : Z → TSPacketMetadata;   (* _metadata->base() *)
  plugin_packets : Z;                (* _plugin_packets *)
  total_packets : Z;                 (* _total_packets *)
  in_log : list InputMsg
}.

Arguments mkInput {I A}.
Arguments options {I A}.
Arguments max_severity {I A}.
Arguments input {I A}.
Arguments in_sync_lost {I A}.
Arguments instuff_start_remain {I A}.
Arguments instuff_stop_remain {I A}.
Arguments instuff_nullpkt_remain {I A}.
Arguments instuff_inpkt_remain {I A}.
Arguments pcr_analyzer {I A}.
Arguments dts_analyzer {I A}.
Arguments use_dts_analyzer {I A}.
Arguments buffer {I A}.
Arguments metadata {I A}.
Arguments plugin_packets {I A}.
Arguments total_packets {I A}.
Arguments in_log {I A}.

Section InputExecutor.
Context {I A : Type} `{InputPlugin I} `{Analyzer A}.

Abbreviation State := (InputExecutor I A).

(** The constructor of [InputExecutor]. *)
Definition new_input (o : Options) (sev : Z) (plug : I) (pcr dts : A)
    (buf : Z → TSPacket) (md : Z → TSPacketMetadata) : State :=
  mkInput o sev plug false (instuff_start o) (instuff_stop o) 0 0 pcr dts
          false buf md 0 0 [].

Definition set_input (x : I) (s : State) : State :=
  mkInput (options s) (max_severity s) x (in_sync_lost s)
    (instuff_start_remain s) (instuff_stop_remain s)
    (instuff_nullpkt_remain s) (instuff_inpkt_remain s) (pcr_analyzer s)
    (dts_analyzer s) (use_dts_analyzer s) (buffer s) (metadata s)
    (plugin_packets s) (total_packets s) (in_log s).

Definition set_in_sync_lost (x : bool) (s : State) : State :=
  mkInput (options s) (max_severity s) (input s) x
    (instuff_start_remain s) (instuff_stop_remain s)
    (instuff_nullpkt_remain s) (instuff_inpkt_remain s) (pcr_analyzer s)
    (dts_analyzer s) (use_dts_analyzer s) (buffer s) (metadata s)
    (plugin_packets s) (total_packets s) (in_log s).

Definition set_start_remain (x : Z) (s : State) : State :=
  mkInput (options s) (max_severity s) (input s) (in_sync_lost s)
    x (instuff_stop_remain s)
    (instuff_nullpkt_remain s) (instuff_inpkt_remain s) (pcr_analyzer s)
    (dts_analyzer s) (use_dts_analyzer s) (buffer s) (metadata s)
    (plugin_packets s) (total_packets s) (in_log s).

Definition set_stop_remain (x : Z) (s : State) : State :=
  mkInput (options s) (max_severity s) (input s) (in_sync_lost s)
    (instuff_start_remain s) x
    (instuff_nullpkt_remain s) (instuff_inpkt_remain s) (pcr_analyzer s)
    (dts_analyzer s) (use_dts_analyzer s) (buffer s) (metadata s)
    (plugin_packets s) (total_packets s) (in_log s).

Definition set_nullpkt_remain (x : Z) (s : State) : State :=
  mkInput (options s) (max_severity s) (input s) (in_sync_lost s)
    (instuff_start_remain s) (instuff_stop_remain s)
    x (instuff_inpkt_remain s) (pcr_analyzer s)
    (dts_analyzer s) (use_dts_analyzer s) (buffer s) (metadata s)
    (plugin_packets s) (total_packets s) (in_log s).

Definition set_inpkt_remain (x : Z) (s : State) : State :=
  mkInput (options s) (max_severity s) (input s) (in_sync_lost s)
    (instuff_start_remain s) (instuff_stop_remain s)
    (instuff_nullpkt_remain s) x (pcr_analyzer s)
    (dts_analyzer s) (use_dts_analyzer s) (buffer s) (metadata s)
    (plugin_packets s) (total_packets s) (in_log s).

Definition set_use_dts_analyzer (x : bool) (s : State) : State :=
  mkInput (options s) (max_severity s) (input s) (in_sync_lost s)
    (instuff_start_remain s) (instuff_stop_remain s)
    (instuff_nullpkt_remain s) (instuff_inpkt_remain s) (pcr_analyzer s)
    (dts_analyzer s) x (buffer s) (metadata s)
    (plugin_packets s) (total_packets s) (in_log s).

Definition set_buffer (x : Z → TSPacket) (s : State) : State :=
  mkInput (options s) (max_severity s) (input s) (in_sync_lost s)
    (instuff_start_remain s) (instuff_stop_remain s)
    (instuff_nullpkt_remain s) (instuff_inpkt_remain s) (pcr_analyzer s)
    (dts_analyzer s) (use_dts_analyzer s) x (metadata s)
    (plugin_packets s) (total_packets s) (in_log s).

Definition set_metadata (x : Z → TSPacketMetadata) (s : State) : State :=
  mkInput (options s) (max_severity s) (input s) (in_sync_lost s)
    (instuff_start_remain s) (instuff_stop_remain s)
    (instuff_nullpkt_remain s) (instuff_inpkt_remain s) (pcr_analyzer s)
    (dts_analyzer s) (use_dts_analyzer s) (buffer s) x
    (plugin_packets s) (total_packets s) (in_log s).

Definition input_log (m : InputMsg) (s : State) : State :=
  mkInput (options s) (max_severity s) (input s) (in_sync_lost s)
    (instuff_start_remain s) (instuff_stop_remain s)
    (instuff_nullpkt_remain s) (instuff_inpkt_remain s) (pcr_analyzer s)
    (dts_analyzer s) (use_dts_analyzer s) (buffer s) (metadata s)
    (plugin_packets s) (total_packets s) (in_log s ++ [m]).

(** [_pcr_analyzer.feedPacket(pkt); _dts_analyzer.feedPacket(pkt)]. *)
Definition feed_analyzers (p : TSPacket) (s : State) : State :=
  mkInput (options s) (max_severity s) (input s) (in_sync_lost s)
    (instuff_start_remain s) (instuff_stop_remain s)
    (instuff_nullpkt_remain s) (instuff_inpkt_remain s)
    (feedPacket (pcr_analyzer s) p) (feedPacket (dts_analyzer s) p)
    (use_dts_analyzer s) (buffer s) (metadata s)
    (plugin_packets s) (total_packets s) (in_log s).

(** Modelled from the spec: the packet counters of [ts::TSP] are declared
    in a header which is not in the sources at hand.  [addPluginPackets]
    counts packets which come from the plugin, [addNonPluginPackets]
    counts the others (stuffing); both count in the total. *)
Definition addPluginPackets (n : Z) (s : State) : State :=
  mkInput (options s) (max_severity s) (input s) (in_sync_lost s)
    (instuff_start_remain s) (instuff_stop_remain s)
    (instuff_nullpkt_remain s) (instuff_inpkt_remain s) (pcr_analyzer s)
    (dts_analyzer s) (use_dts_analyzer s) (buffer s) (metadata s)
    (size_add (plugin_packets s) n) (size_add (total_packets s) n) (in_log s).

Definition addNonPluginPackets (n : Z) (s : State) : State :=
  mkInput (options s) (max_severity s) (input s) (in_sync_lost s)
    (instuff_start_remain s) (instuff_stop_remain s)
    (instuff_nullpkt_remain s) (instuff_inpkt_remain s) (pcr_analyzer s)
    (dts_analyzer s) (use_dts_analyzer s) (buffer s) (metadata s)
    (plugin_packets s) (size_add (total_packets s) n) (in_log s).

(** [InputExecutor::getBitrate]. *)
Definition getBitrate (s : State) : Z * State :=
  let o := options s in
  let bitrate := if 0 <? opt_bitrate o then opt_bitrate o
                 else plugin_getBitrate (input s) in
  if negb (bitrate =? 0) then
    if instuff_inpkt o =? 0 then (bitrate, s)
    else
      (((bitrate * size_add (instuff_nullpkt o) (instuff_inpkt o))
          mod UINT64_MOD / instuff_inpkt o) mod BITRATE_MOD, s)
  else if negb (use_dts_analyzer s) && bitrateIsValid (pcr_analyzer s) then
    (bitrate188 (pcr_analyzer s), s)
  else
    let use := use_dts_analyzer s || bitrateIsValid (dts_analyzer s) in
    ((if use then bitrate188 (dts_analyzer s) else 0),
     set_use_dts_analyzer use s).

(** [InputExecutor::receiveNullPackets]; the loop runs [max_packets]
    times. *)
Fixpoint null_loop (todo : nat) (index n : Z) (s : State) : State :=
  match todo with
  | O => s
  | S todo' =>
      let k := size_add index n in
      let s := set_buffer (write (buffer s) k NullPacket) s in
      let s := feed_analyzers (buffer s k) s in
      let s := set_metadata
                 (write (metadata s) k (md_setInputStuffing true md_reset)) s in
      null_loop todo' index (size_add n 1) s
  end.

Definition receiveNullPackets (index max_packets : Z) (s : State)
    : Z * State :=
  let s := null_loop (Z.to_nat max_packets) index 0 s in
  (max_packets, addNonPluginPackets max_packets s).

(** The first loop of [receiveAndValidate]: reset the metadata of
    [max_packets] slots. *)
Fixpoint reset_loop (todo : nat) (index n : Z)
    (md : Z → TSPacketMetadata) : Z → TSPacketMetadata :=
  match todo with
  | O => md
  | S todo' =>
      reset_loop todo' index (size_add n 1) (write md (size_add index n) md_reset)
  end.

(** The messages in debug mode at a loss of synchronization. *)
Definition sync_lost_dump (index n count : Z) (s : State) : State :=
  if 1 <=? max_severity s then
    let s := if 0 <? n
             then input_log (DbgPacketBefore
                               (buffer s (size_add index (size_sub n 1)))) s
             else s in
    let dump_count := Z.min 3 (size_sub count n) in
    input_log (DbgDataAtLoss
                 (read_range (buffer s) (size_add index n)
                             (Z.to_nat dump_count))) s
  else s.

(** The second loop of [receiveAndValidate]: check the sync byte of the
    packets [n] to [count - 1].  At a loss of synchronization [count] is
    set to [n], which ends the loop. *)
Fixpoint validate_loop (fuel : nat) (index n count : Z) (s : State)
    : Z * State :=
  match fuel with
  | O => (count, s)
  | S fuel' =>
      if n <? count then
        let pkt := buffer s (size_add index n) in
        if hasValidSync pkt then
          validate_loop fuel' index (size_add n 1) count
                        (feed_analyzers pkt (addPluginPackets 1 s))
        else
          let s := input_log (ErrSyncLost (plugin_packets s) (nth 0 pkt 0)) s in
          let s := sync_lost_dump index n count s in
          validate_loop fuel' index (size_add n 1) n
                        (set_in_sync_lost true s)
      else (count, s)
  end.

(** [InputExecutor::receiveAndValidate]. *)
Definition receiveAndValidate (index max_packets : Z) (s : State)
    : Z * State :=
  if in_sync_lost s then (0, s)
  else
    (* Reset metadata for new incoming packets. *)
    let md := reset_loop (Z.to_nat max_packets) index 0 (metadata s) in
    (* Invoke the plugin receive method. *)
    let '(pkts, plug) := receive (input s) max_packets in
    let s := set_input plug (set_metadata md s) in
    let s := set_buffer (write_list (buffer s) index pkts.*1) s in
    let s := set_metadata (write_list (metadata s) index pkts.*2) s in
    let count := Z.of_nat (length pkts) in
    validate_loop (S (length pkts)) index 0 count s.

(** The local variables of [receiveAndStuff]. *)
Record StuffLocals := mkStuff {
  index : Z;
  pkt_remain : Z;
  pkt_done : Z;
  pkt_from_input : Z
}.

(** The first loop of [receiveAndStuff]: initial stuffing. *)
Fixpoint start_loop (fuel : nat) (l : StuffLocals) (s : State)
    : StuffLocals * State :=
  match fuel with
  | O => (l, s)
  | S fuel' =>
      if (0 <? instuff_start_remain s) && (0 <? pkt_remain l) then
        let s := set_buffer (write (buffer s) (index l) NullPacket) s in
        let s := set_metadata
                   (write (metadata s) (index l)
                          (md_setInputStuffing true md_reset)) s in
        let s := set_start_remain (size_sub (instuff_start_remain s) 1) s in
        let l := mkStuff (size_add (index l) 1) (size_sub (pkt_remain l) 1)
                         (size_add (pkt_done l) 1) (pkt_from_input l) in
        start_loop fuel' l (addNonPluginPackets 1 s)
      else (l, s)
  end.

(** The first half of a turn of the second loop of [receiveAndStuff]:
    "Stuff null packets". *)
Definition stuff_nulls (l : StuffLocals) (s : State) : StuffLocals * State :=
  let '(count, s) :=
    receiveNullPackets (index l)
      (Z.min (instuff_nullpkt_remain s) (pkt_remain l)) s in
  let s := set_nullpkt_remain (size_sub (instuff_nullpkt_remain s) count) s in
  (mkStuff (size_add (index l) count) (size_sub (pkt_remain l) count)
           (size_add (pkt_done l) count) (pkt_from_input l), s).

(** The second half: restart the sequence of input packets if needed, read
    input packets from the plugin, restart the sequence of null packets if
    needed.  The boolean tells whether the loop goes on: it is left when
    the plugin returned less than expected. *)
Definition stuff_input (l : StuffLocals) (s : State)
    : bool * StuffLocals * State :=
  let s := if (instuff_nullpkt_remain s =? 0) && (instuff_inpkt_remain s =? 0)
           then set_inpkt_remain (instuff_inpkt (options s)) s
           else s in
  let max_input := Z.min (pkt_remain l) (instuff_inpkt_remain s) in
  let '(count, s) := receiveAndValidate (index l) max_input s in
  let l := mkStuff (size_add (index l) count) (size_sub (pkt_remain l) count)
                   (size_add (pkt_done l) count)
                   (size_add (pkt_from_input l) count) in
  let s := set_inpkt_remain (size_sub (instuff_inpkt_remain s) count) s in
  let s := if (instuff_nullpkt_remain s =? 0) && (instuff_inpkt_remain s =? 0)
           then set_nullpkt_remain (instuff_nullpkt (options s)) s
           else s in
  (negb (count <? max_input), l, s).

(** The second loop of [receiveAndStuff]: alternate null packets and
    input packets, while [pkt_remain > 0]. *)
Fixpoint stuff_loop (fuel : nat) (l : StuffLocals) (s : State)
    : StuffLocals * State :=
  match fuel with
  | O => (l, s)
  | S fuel' =>
      if 0 <? pkt_remain l then
        let '(l, s) := stuff_nulls l s in
        (* Exit on buffer full. *)
        if pkt_remain l =? 0 then (l, s)
        else
          let '(go, l, s) := stuff_input l s in
          if go then stuff_loop fuel' l s else (l, s)
      else (l, s)
  end.

(** [InputExecutor::receiveAndStuff].  Every turn of its loops which does
    not leave takes at least one packet from [pkt_remain], hence
    [max_packets] turns are enough. *)
Definition receiveAndStuff_locals (index0 max_packets : Z) (s : State)
    : StuffLocals * State :=
  let l := mkStuff index0 max_packets 0 0 in
  let '(l, s) := start_loop (Z.to_nat max_packets) l s in
  if instuff_inpkt (options s) =? 0 then
    let '(n, s) := receiveAndValidate (index l) (pkt_remain l) s in
    (mkStuff (index l) (pkt_remain l) (size_add (pkt_done l) n) n, s)
  else stuff_loop (S (Z.to_nat max_packets)) l s.

Definition receiveAndStuff (index0 max_packets : Z) (s : State) : Z * State :=
  let '(l, s) := receiveAndStuff_locals index0 max_packets s in
  (if pkt_from_input l =? 0 then 0 else pkt_done l, s).

(** The local variables of [InputExecutor::main]; times are in
    milliseconds. *)
Record MainLocals := mkLocals {
  current_time : Z;
  bitrate_due_time : Z;
  bitrate_due_packet : Z;
  plugin_completed : bool;
  main_input_end : bool;
  main_aborted : bool
}.

(** The input executor in its ring.  [produced] is the sequence of the
    packets which the input executor has handed to its successor. *)
Record InputRun := mkRun {
  exec : State;
  ring : Ring;
  produced : list (TSPacket * TSPacketMetadata)
}.

(** The slots [first] to [first + n - 1] of the buffers. *)
Definition slots (s : State) (first n : Z)
    : list (TSPacket * TSPacketMetadata) :=
  zip (read_range (buffer s) first (Z.to_nat n))
      (read_range (metadata s) first (Z.to_nat n)).

(** [InputExecutor::initAllBuffers]. *)
Definition initAllBuffers (cap : Z) (x : InputRun) : bool * InputRun :=
  (* Pre-declare buffer for input plugin. *)
  let r := alter (initBuffer 0 cap false false 0) 0%nat (ring x) in
  (* Pre-load half of the buffer with packets from the input device. *)
  let '(pkt_read, s) := receiveAndStuff 0 (cap / 2) (exec x) in
  if pkt_read =? 0 then (false, mkRun s r (produced x))
  else
    let s := input_log (DbgInitialLoad pkt_read) s in
    let '(init_bitrate, s) := getBitrate s in
    let s := input_log (if init_bitrate =? 0 then VerbUnknownBitrate
                        else VerbInitialBitrate init_bitrate) s in
    (true, mkRun s (initAllBuffers_ring cap pkt_read init_bitrate r)
                 (produced x ++ slots s 0 pkt_read)).

(** What one turn of the loop of [main] gets from outside: the events of
    its call to [waitWork] and the time which [Time::CurrentUTC] returns
    if it is called. *)
Record IterEnv := mkIterEnv {
  wait_events : list WaitEvent;
  now : Z
}.

Inductive IterStatus :=
| IterContinue     (* the loop goes on *)
| IterLeave        (* the loop is left *)
| IterBlocked      (* the thread is blocked in waitWork *)
| IterDiverges.    (* the inner loop on the due packet does not end *)

(** [do { bitrate_due_packet += init_bitrate_adj; }
     while (bitrate_due_packet <= pluginPackets());] *)
Fixpoint due_loop (fuel : nat) (due step pp : Z) : option Z :=
  match fuel with
  | O => None
  | S fuel' =>
      let due := size_add due step in
      if due <=? pp then due_loop fuel' due step pp else Some due
  end.

Definition own_tsp_bitrate (r : Ring) : Z :=
  from_option tsp_bitrate 0 (r !! 0%nat).

(** The periodic bitrate adjustment in [main]. *)
Definition adjust_bitrate (t : Z) (l : MainLocals) (s : State) (r : Ring)
    : option (MainLocals * State * Ring) :=
  let o := options s in
  if opt_bitrate o =? 0 then
    let unknown_due := (own_tsp_bitrate r =? 0)
                       && (bitrate_due_packet l <=? plugin_packets s) in
    let l := if unknown_due then l
             else mkLocals t (bitrate_due_time l) (bitrate_due_packet l)
                           (plugin_completed l) (main_input_end l)
                           (main_aborted l) in
    if unknown_due || (bitrate_due_time l <? current_time l) then
      let due :=
        if own_tsp_bitrate r =? 0
        then due_loop (S (Z.to_nat (plugin_packets s - bitrate_due_packet l)))
                      (bitrate_due_packet l) (init_bitrate_adj o)
                      (plugin_packets s)
        else Some (bitrate_due_packet l) in
      match due with
      | None => None
      | Some due =>
          let due_time := if bitrate_due_time l <=? current_time l
                          then current_time l + bitrate_adj o
                          else bitrate_due_time l in
          let l := mkLocals (current_time l) due_time due
                            (plugin_completed l) (main_input_end l)
                            (main_aborted l) in
          let '(b, s) := getBitrate s in
          if 0 <? b
          then Some (l, input_log (DbgGotBitrate b) s,
                     alter (set_tsp_bitrate b) 0%nat r)
          else Some (l, s, r)
      end
    else Some (l, s, r)
  else Some (l, s, r).

(** "Do not read more packets than request by --max-input-packets". *)
Definition limit_input (s : State) (pkt_max : Z) : Z :=
  let max_in := max_input_pkt (options s) in
  if (0 <? max_in) && (max_in <? pkt_max) then max_in else pkt_max.

(** The trailing stuffing which a turn of the loop of [main] adds when
    the plugin is completed and nothing was read: its number of
    packets. *)
Definition trailing_count (s : State) (pkt_max : Z) : Z :=
  if (0 <? instuff_stop_remain s) && (0 <? pkt_max)
  then size_add 0 (Z.min (instuff_stop_remain s) (size_sub pkt_max 0))
  else 0.

(** "Read from the plugin if not already terminated": the number of
    packets read, whether the plugin is completed and the new state. *)
Definition read_plugin (completed : bool) (pkt_first pkt_max : Z) (s : State)
    : Z * bool * State :=
  if negb completed then
    let '(n, s) := receiveAndStuff pkt_first pkt_max s in
    (n, n =? 0, s)
  else (0, true, s).

(** "Read additional trailing stuffing after completion of the input
    plugin". *)
Definition read_trailing (completed : bool) (pkt_first pkt_max pkt_read : Z)
    (s : State) : Z * State :=
  if completed && (0 <? instuff_stop_remain s) && (pkt_read <? pkt_max) then
    let '(count, s) :=
      receiveNullPackets (size_add pkt_first pkt_read)
        (Z.min (instuff_stop_remain s) (size_sub pkt_max pkt_read)) s in
    (size_add pkt_read count,
     set_stop_remain (size_sub (instuff_stop_remain s) count) s)
  else (pkt_read, s).

(** One turn of the loop of [InputExecutor::main], after [waitWork]
    returned [w] and the ring [r].  The turn is taken as a whole: the ring
    in which it calls [passPackets] is the one which [waitWork] returned,
    although the global mutex is free between the two calls. *)
Definition main_body (cap : Z) (env : IterEnv) (l : MainLocals)
    (x : InputRun) (w : WorkResult) (r : Ring)
    : IterStatus * MainLocals * InputRun :=
  let l := mkLocals (current_time l) (bitrate_due_time l)
                    (bitrate_due_packet l) (plugin_completed l)
                    (w_input_end w) (w_aborted w) in
  if w_aborted w then (IterLeave, l, mkRun (exec x) r (produced x))
  else if w_timeout w then
    let r := (passPackets cap 0 0 (own_tsp_bitrate r) true false r).1 in
    (IterLeave,
     mkLocals (current_time l) (bitrate_due_time l)
              (bitrate_due_packet l) (plugin_completed l)
              (main_input_end l) true,
     mkRun (exec x) r (produced x))
  else
    let s := exec x in
    let pkt_first := w_first w in
    let pkt_max := limit_input s (w_cnt w) in
    let '(pkt_read, completed, s) :=
      read_plugin (plugin_completed l) pkt_first pkt_max s in
    let '(pkt_read, s) :=
      read_trailing completed pkt_first pkt_max pkt_read s in
    let iend := completed && (instuff_stop_remain s =? 0) in
    let l := mkLocals (current_time l) (bitrate_due_time l)
                      (bitrate_due_packet l) completed iend
                      (main_aborted l) in
    match adjust_bitrate (now env) l s r with
    | None => (IterDiverges, l, mkRun s r (produced x))
    | Some (l, s, r) =>
        (* Pass received packets to next processor. *)
        let r := (passPackets cap 0 pkt_read (own_tsp_bitrate r)
                              iend false r).1 in
        (if iend then IterLeave else IterContinue, l,
         mkRun s r (produced x ++ slots s pkt_first pkt_read))
    end.

(** One turn of the loop of [InputExecutor::main]: wait for space in the
    input buffer, then go on. *)
Definition main_iteration (cap : Z) (env : IterEnv) (l : MainLocals)
    (x : InputRun) : IterStatus * MainLocals * InputRun :=
  match waitWork cap 0 (ring x) (wait_events env) with
  | None => (IterBlocked, l, x)
  | Some (w, r) => main_body cap env l x w r
  end.

Fixpoint main_loop (cap : Z) (envs : list IterEnv) (l : MainLocals)
    (x : InputRun) : IterStatus * MainLocals * InputRun :=
  match envs with
  | [] => (IterContinue, l, x)
  | env :: envs' =>
      match main_iteration cap env l x with
      | (IterContinue, l, x) => main_loop cap envs' l x
      | res => res
      end
  end.

(** [InputExecutor::main], for as many turns of its loop as there are
    elements in [envs]; [start_time] is the time at which it starts. *)
Definition main (cap start_time : Z) (envs : list IterEnv) (x : InputRun)
    : IterStatus * MainLocals * InputRun :=
  let s := input_log DbgStarted (exec x) in
  let l := mkLocals start_time (start_time + bitrate_adj (options s))
                    (init_bitrate_adj (options s)) false false false in
  match main_loop cap envs l (mkRun s (ring x) (produced x)) with
  | (IterLeave, l, x) =>
      let s := set_input (input_stop (input (exec x))) (exec x) in
      let s := input_log (DbgEnded (main_aborted l) (total_packets s)) s in
      (IterLeave, l, mkRun s (ring x) (produced x))
  | res => res
  end.
End InputExecutor.


Arguments InputRun : clear implicits.
Arguments mkRun {I A}.
Arguments exec {I A}.
Arguments ring {I A}.
Arguments produced {I A}.

(** ** A sample input

    The sample input plugin holds the packets which it has not delivered
    yet and delivers as many of them as it is asked for; it does not know
    its bitrate.  The state of the sample analyzer is whether its bitrate
    is valid and this bitrate; packets do not change it. *)
Definition ListInput : Type := list TSPacket.

#[export] Instance list_input : InputPlugin ListInput := {
  receive p m := ((λ pkt, (pkt, md_reset)) <$> take (Z.to_nat m) p,
                  drop (Z.to_nat m) p);
  plugin_getBitrate _ := 0;
  input_stop p := p
}.

Definition FixedAnalyzer : Type := bool * Z.

#[export] Instance fixed_analyzer : Analyzer FixedAnalyzer := {
  feedPacket a _ := a;
  bitrateIsValid a := a.1;
  bitrate188 a := a.2
}.

(** A packet with a valid sync byte, told from the others by its second
    byte. *)
Definition real_packet (k : Z) : TSPacket := [71; k] ++ replicate 186 0.

(** The stuffing scenario: 3 null packets before the input, 2 null
    packets after its end, 2 null packets every 5 input packets, and an
    input of exactly 11 packets. *)
Definition stuffing_options : Options := mkOptions 0 5000 5000 0 2 5 3 2.

Definition eleven_packets : ListInput := real_packet <$> [1; 2; 3; 4; 5; 6; 7; 8; 9; 10; 11].

Definition stuffing_start (nproc : nat) : InputRun ListInput FixedAnalyzer :=
  mkRun (new_input stuffing_options 0 eleven_packets (false, 0) (false, 0)
                   (λ _, []) (λ _, md_reset))
        (new_ring nproc) [].

(** [tsp] initializes the buffers, then the input thread runs [main]. *)
Definition run_input {I A : Type} `{InputPlugin I} `{Analyzer A}
    (cap start_time : Z) (envs : list IterEnv) (x : InputRun I A)
    : option (IterStatus * MainLocals * InputRun I A) :=
  let '(ok, x) := initAllBuffers cap x in
  if ok then Some (main cap start_time envs x) else None.

(** A produced packet is a stuffing packet ([None]) or the packet of the
    input with the given second byte. *)
Definition packet_kind (x : TSPacket * TSPacketMetadata) : option Z :=
  if input_stuffing x.2 then None else Some (nth 1 x.1 0).

(** The sticky flags of the input executor are not cleared and its
    options do not change from [s] to [s']. *)
Definition keeps_flags {I A : Type} (s s' : InputExecutor I A) : Prop :=
  (in_sync_lost s = true → in_sync_lost s' = true) ∧
  (use_dts_analyzer s = true → use_dts_analyzer s' = true) ∧
  options s' = options s.

(** The counters of the stuffing policy and the options which set them,
    all of type [size_t], are not negative. *)
Definition counters_nonneg {I A : Type} (s : InputExecutor I A) : Prop :=
  0 ≤ instuff_stop_remain s ∧ 0 ≤ instuff_nullpkt_remain s ∧
  0 ≤ instuff_inpkt_remain s ∧
  0 ≤ instuff_nullpkt (options s) ∧ 0 ≤ instuff_inpkt (options s).

(** The counters and the options which the reception of packets leaves as
    they are. *)
Definition remains {I A : Type} (s : InputExecutor I A) : Z * Z * Z * Options :=
  (instuff_stop_remain s, instuff_nullpkt_remain s, instuff_inpkt_remain s,
   options s).

(** The local variables of [receiveAndStuff] called with [max_packets = m]:
    what is done and what remains add up to [m]. *)
Definition locals_ok (m : Z) (l : StuffLocals) : Prop :=
  0 ≤ pkt_remain l ∧ 0 ≤ pkt_done l ∧ pkt_done l + pkt_remain l = m.


(** The count which [receive] returns is a [size_t], like its parameter
    [max_packets]. *)
Definition receive_size_t (I : Type) `{InputPlugin I} : Prop :=
  ∀ (p : I) (m : Z), m < SIZE_MOD →
    Z.of_nat (length (receive p m).1) < SIZE_MOD.

(** An input of two valid packets, a packet without sync byte and a valid
    packet. *)
Definition lost_input : InputExecutor ListInput FixedAnalyzer :=
  new_input (mkOptions 0 5000 5000 0 0 0 0 0) 0
            [real_packet 1; real_packet 2; [0; 3]; real_packet 4]
            (false, 0) (false, 0) (λ _, []) (λ _, md_reset).

(** An input without any packet, with 3 null packets to add before the
    input and 2 after it. *)
Definition empty_start : InputRun ListInput FixedAnalyzer :=
  mkRun (new_input stuffing_options 0 [] (false, 0) (false, 0)
                   (λ _, []) (λ _, md_reset))
        (new_ring 0) [].

(** The same input executor in the loop of [main], in a ring in which it
    owns the slots 4 to 7. *)
Definition empty_in_main : InputRun ListInput FixedAnalyzer :=
  mkRun (exec empty_start) ring_2_4 [].


(** The sequence which the input executor produces: 2 null packets after
    every 5 input packets. *)
Definition nulls_after_sequence : list (option Z) :=
  [None; None; None;
   Some 1; Some 2; Some 3; Some 4; Some 5; None; None;
   Some 6; Some 7; Some 8; Some 9; Some 10; None; None;
   Some 11;
   None; None].

(** The stuffing scenario with a buffer of [cap] packets and [nproc] packet
    processors, for as many turns of the loop of [main] as there are times
    in [times], none of which has to wait: the status of the input thread
    and the kinds of the packets which it produced. *)
Definition stuffing_run (cap : Z) (nproc : nat) (times : list Z)
    : option (IterStatus * list (option Z)) :=
  match run_input cap 0 (mkIterEnv [] <$> times) (stuffing_start nproc) with
  | Some (st, _, x) => Some (st, packet_kind <$> produced x)
  | None => None
  end.


(** A ring of two executors in which the input executor has filled the
    whole buffer: its window is empty until the output executor frees
    slots. *)
Definition ring_full : Ring := (passPackets 8 0 4 0 false false ring_2_4).1.

(** The output executor then calls [passPackets] with no packet, a bitrate
    and the end of input. *)
Definition ring_full_end : Ring := (passPackets 8 1 0 5000 true false ring_full).1.

(** An input executor, with packets left in its plugin, in these rings. *)
Definition input_in (r : Ring) : InputRun ListInput FixedAnalyzer :=
  mkRun (new_input (mkOptions 0 5000 5000 0 0 0 0 0) 0 eleven_packets
                   (false, 0) (false, 0) (λ _, []) (λ _, md_reset))
        r [].

(** The output parameters of [waitWork], without the number of waits. *)
Definition work_data (w : WorkResult) : Z * Z * Z * bool * bool * bool :=
  (w_first w, w_cnt w, w_bitrate w, w_input_end w, w_aborted w, w_timeout w).

(** [w] with other values of the bitrate and of the end of input. *)
Definition with_data (b : Z) (iend : bool) (w : WorkResult) : WorkResult :=
  mkWork (w_first w) (w_cnt w) b iend (w_aborted w) (w_timeout w) (w_waits w).

(** ** Sequences of calls in the ring *)

(** The executors at positions [k - 1] down to 0 call [passPackets] one
    after the other; [a i] gives the arguments of the call of the executor
    at position [i].  The result is the ring after the calls and the
    values which they returned, the call of position 0 last. *)
Fixpoint drain (cap : Z) (a : nat → Z * Z * bool * bool) (k : nat) (r : Ring)
    : Ring * list bool :=
  match k with
  | O => (r, [])
  | S k' =>
      let '(count, br, iend, aborted) := a k' in
      let '(r1, b) := passPackets cap k' count br iend aborted r in
      let '(r2, bs) := drain cap a k' r1 in
      (r2, b :: bs)
  end.

(** The executor at position [i] has nothing to do in the ring [r]: the
    condition of the loop of [waitWork] holds (without timeout). *)
Definition idle (i : nat) (r : Ring) : Prop := must_wait i false r = Some true.

(** An event of a wait which is not a timeout that ends the wait: the
    condition was signalled, or the plugin handled the timeout. *)
Definition goes_on (ev : WaitEvent) : bool := woken ev || handled ev.
(** The local variables of [receiveAndStuff] when [max_packets] is larger
    by [d]. *)
Definition grow (d : Z) (l : StuffLocals) : StuffLocals :=
  mkStuff (index l) (pkt_remain l + d) (pkt_done l) (pkt_from_input l).

(** The number of input packets which a turn of the second loop of
    [receiveAndStuff] asks for when the buffer does not limit it. *)
Definition input_due {I A : Type} (s : InputExecutor I A) : Z :=
  if (instuff_nullpkt_remain s =? 0) && (instuff_inpkt_remain s =? 0)
  then instuff_inpkt (options s) else instuff_inpkt_remain s.

(** The second loop of [receiveAndStuff] is not limited by the size of the
    buffer: in every turn, the null packets and the input packets which
    are due are less than [pkt_remain], and the loop is left because the
    plugin returned less than expected. *)
Fixpoint stuff_loop_free {I A : Type} `{InputPlugin I} `{Analyzer A}
    (fuel : nat) (l : StuffLocals) (s : InputExecutor I A) : bool :=
  match fuel with
  | O => false
  | S fuel' =>
      (instuff_nullpkt_remain s <? pkt_remain l) &&
      let '(l1, s1) := stuff_nulls l s in
      (input_due s1 <=? pkt_remain l1) &&
      let '(go, l2, s2) := stuff_input l1 s1 in
      if go then stuff_loop_free fuel' l2 s2 else true
  end.

(** A call to [receiveAndStuff] with input stuffing which is not limited
    by [max_packets]. *)
Definition receiveAndStuff_free {I A : Type} `{InputPlugin I} `{Analyzer A}
    (i0 m : Z) (s : InputExecutor I A) : bool :=
  (instuff_start_remain s <=? m) && negb (instuff_inpkt (options s) =? 0) &&
  let '(l, s1) := start_loop (Z.to_nat m) (mkStuff i0 m 0 0) s in
  stuff_loop_free (S (Z.to_nat m)) l s1.

(** An input executor limited to 2 packets for each input operation, in the
    ring of two executors. *)
Definition limited_input : InputRun ListInput FixedAnalyzer :=
  mkRun (new_input (mkOptions 0 5000 5000 2 0 0 0 0) 0 eleven_packets
                   (false, 0) (false, 0) (λ _, []) (λ _, md_reset))
        ring_2_4 [].

(** The local variables of [main] when its loop starts at time 0. *)
Definition first_turn : MainLocals := mkLocals 0 5000 5000 false false false.

(** An input executor with the stuffing options of the scenario and a
    bitrate of 1000 b/s on the command line. *)
Definition fixed_rate_input : InputExecutor ListInput FixedAnalyzer :=
  new_input (mkOptions 1000 5000 5000 0 2 5 3 2) 0 eleven_packets
            (true, 7000) (true, 3000) (λ _, []) (λ _, md_reset).

(** ** The input thread when it finds room at each turn

    As long as the window of the input executor is not empty when a turn
    of the loop of [main] starts, [waitWork] returns at once; as long as
    the bitrate is unknown and the plugin has delivered less packets than
    the first due packet, the periodic adjustment of the bitrate changes
    nothing but the local variables on its schedule.  The packets which
    the input thread produces are then given by its own state and by its
    window alone. *)








(** The stuffing scenario with at most one packet for each input operation
    of the loop of [main] ([max_input_pkt = 1]), in a ring without packet
    processor. *)
Definition one_packet_start : InputRun ListInput FixedAnalyzer :=
  mkRun (new_input (mkOptions 0 5000 5000 1 2 5 3 2) 0 eleven_packets
                   (false, 0) (false, 0) (λ _, []) (λ _, md_reset))
        (new_ring 0) [].

Definition one_packet_run (cap : Z) (times : list Z)
    : option (IterStatus * list (option Z)) :=
  match run_input cap 0 (mkIterEnv [] <$> times) one_packet_start with
  | Some (st, _, x) => Some (st, packet_kind <$> produced x)
  | None => None
  end.

(** ** Command line options ([ts::Args])

    The options which a plugin declares and the analysis of its command
    line, which [processPendingRestart] runs again for a restart with new
    arguments. *)

(** The types of the value of an option.  [INVALID_TYPE] stands for any
    other value of the type: the [default] case of the constructor. *)
Inductive ArgType :=
| NONE | STRING | TRISTATE | INTEGER | UNSIGNED | POSITIVE
| UINT8 | UINT16 | UINT32 | PIDVAL | INT8 | INT16 | INT32
| INVALID_TYPE.

Definition is_NONE (t : ArgType) : bool :=
  match t with NONE => true | _ => false end.
Definition is_INTEGER (t : ArgType) : bool :=
  match t with INTEGER => true | _ => false end.

(** An enumeration is a list of names with their values. *)
Definition Enumeration : Type := list (string * Z).

(** [Enumeration::empty]. *)
Definition enum_empty (e : Enumeration) : bool :=
  match e with [] => true | _ => false end.

(** [Args::ArgValue]: after its constructor, no string and no integer. *)
Record ArgValue := mkArgValue {
  av_string : option string;    (* Variable<UString> string *)
  int_base : Z;                 (* int64_t *)
  int_count : Z                 (* size_t *)
}.

(** [Args::IOption].  A [short_name] of 0 means no short name and an empty
    [name] designates the parameters of the command. *)
Record IOption := mkIOption {
  name : string;
  short_name : Z;
  type : ArgType;
  min_occur : Z;
  max_occur : Z;
  min_value : Z;
  max_value : Z;
  decimals : Z;
  flags : Z;
  enumeration : Enumeration;
  syntax : string;
  help : string;
  values : list ArgValue;
  value_count : Z
}.

Definition UNLIMITED_COUNT : Z := SIZE_MOD - 1.
Definition INT64_MAX : Z := 2 ^ 63 - 1.
Definition INT_MIN : Z := - 2 ^ 31.
Definition INT_MAX : Z := 2 ^ 31 - 1.

(** The exceptions [ArgsError] which the constructors throw. *)
Inductive ArgsError :=
| InvalidOccurences
| InvalidValueRange
| InvalidOptionType.

(** "Provide default max_occur". *)
Definition default_max_occur (name_ : string) (max_occur_ : Z) : Z :=
  if max_occur_ =? 0
  then (if String.eqb name_ EmptyString then UNLIMITED_COUNT else 1)
  else max_occur_.

(** The constructor of [IOption] for an option with a type; a null pointer
    as name is the empty string. *)
Definition IOption_new (name_ : string) (short_name_ : Z) (type_ : ArgType)
    (min_occur_ max_occur_ min_value_ max_value_ decimals_ flags_ : Z)
    : ArgsError + IOption :=
  let max_occur := default_max_occur name_ max_occur_ in
  (* Handle invalid values *)
  if max_occur <? min_occur_ then inl InvalidOccurences
  else
    (* Parameters are values by definition *)
    let type := if String.eqb name_ EmptyString && is_NONE type_ then STRING
                else type_ in
    let make (t : ArgType) (lo hi : Z) : ArgsError + IOption :=
      inr (mkIOption name_ short_name_ t min_occur_ max_occur lo hi
                     decimals_ flags_ [] EmptyString EmptyString [] 0) in
    (* Normalize all integer types to INTEGER *)
    match type with
    | NONE | STRING | TRISTATE => make type 0 0
    | INTEGER =>
        if max_value_ <? min_value_ then inl InvalidValueRange
        else make INTEGER min_value_ max_value_
    | UNSIGNED => make INTEGER 0 INT64_MAX
    | POSITIVE => make INTEGER 1 INT64_MAX
    | UINT8 => make INTEGER 0 255
    | UINT16 => make INTEGER 0 65535
    | UINT32 => make INTEGER 0 4294967295
    | PIDVAL => make INTEGER 0 8191
    | INT8 => make INTEGER (-128) 127
    | INT16 => make INTEGER (-32768) 32767
    | INT32 => make INTEGER (-2147483648) 2147483647
    | INVALID_TYPE => inl InvalidOptionType
    end.

(** The constructor of [IOption] for an option with an enumeration. *)
Definition IOption_enum (name_ : string) (short_name_ : Z)
    (enumeration_ : Enumeration) (min_occur_ max_occur_ flags_ : Z)
    : ArgsError + IOption :=
  let max_occur := default_max_occur name_ max_occur_ in
  if max_occur <? min_occur_ then inl InvalidOccurences
  else inr (mkIOption name_ short_name_ INTEGER min_occur_ max_occur
                      INT_MIN INT_MAX 0 flags_ enumeration_ EmptyString
                      EmptyString [] 0).

(** The options of a command, [_iopts]: a map from the names of the options
    to their descriptions, which is iterated in the order of the names.  It
    is held as the list of its entries in this order. *)
Definition IOptionMap : Type := list (string * IOption).

(** [_iopts.find(key)]. *)
Fixpoint map_find (key : string) (m : IOptionMap) : option IOption :=
  match m with
  | [] => None
  | (k, o) :: m' => if String.eqb k key then Some o else map_find key m'
  end.

(** [_iopts.erase(key)]. *)
Definition map_erase (key : string) (m : IOptionMap) : IOptionMap :=
  filter (λ kv, negb (String.eqb kv.1 key)) m.

(** [_iopts.insert(std::make_pair(key, o))]: the entry is put at its place
    in the order of the keys, which are compared character by character; an
    existing entry with this key is kept. *)
Fixpoint map_insert (key : string) (o : IOption) (m : IOptionMap)
    : IOptionMap :=
  match m with
  | [] => [(key, o)]
  | (k, o') :: m' =>
      match String.compare key k with
      | Lt => (key, o) :: m
      | Eq => m
      | Gt => (k, o') :: map_insert key o m'
      end
  end.

Definition set_short_name (c : Z) (o : IOption) : IOption :=
  mkIOption (name o) c (type o) (min_occur o) (max_occur o) (min_value o)
            (max_value o) (decimals o) (flags o) (enumeration o) (syntax o)
            (help o) (values o) (value_count o).

(** The loop of [addOption]: the first option with the short name [c]
    loses it. *)
Fixpoint erase_short_name (c : Z) (m : IOptionMap) : IOptionMap :=
  match m with
  | [] => []
  | (k, o) :: m' =>
      if short_name o =? c then (k, set_short_name 0 o) :: m'
      else (k, o) :: erase_short_name c m'
  end.

(** [Args::addOption]. *)
Definition addOption (opt : IOption) (m : IOptionMap) : IOptionMap :=
  (* Erase previous version, if any. *)
  let m := map_erase (name opt) m in
  (* If the new option has a short name, erase previous options with same
     short name. *)
  let m := if negb (short_name opt =? 0)
           then erase_short_name (short_name opt) m else m in
  (* Finally add the new option. *)
  map_insert (name opt) opt m.

(** The result of a search: the option, or the error which is reported
    when a null pointer is returned. *)
Inductive SearchResult :=
| Found (o : IOption)
| AmbiguousOption (previous current : IOption)
| NoParameterAllowed
| UnknownOption.

(** [Args::search(UChar c)]. *)
Fixpoint search_UChar (c : Z) (m : IOptionMap) : SearchResult :=
  match m with
  | [] => UnknownOption
  | (_, o) :: m' => if short_name o =? c then Found o else search_UChar c m'
  end.

(** The loop of [Args::search(const UString& name)] and what follows it. *)
Fixpoint search_loop (nm : string) (previous : option IOption)
    (m : IOptionMap) : SearchResult :=
  match m with
  | [] =>
      match previous with
      | Some p => Found p      (* exactly one abbreviation was found *)
      | None =>
          if String.eqb nm EmptyString then NoParameterAllowed
          else UnknownOption
      end
  | (_, o) :: m' =>
      if String.eqb (name o) nm then Found o     (* found an exact match *)
      else if negb (String.eqb nm EmptyString) && String.prefix nm (name o) then
        (* found an abbreviated version *)
        match previous with
        | None => search_loop nm (Some o) m'
        | Some p => AmbiguousOption p o
        end
      else search_loop nm previous m'
  end.

(** [Args::search(const UString& name)]. *)
Definition search_UString (nm : string) (m : IOptionMap) : SearchResult :=
  search_loop nm None m.

(** The state of the options of a command: the names are the keys of the
    map, in increasing order, and no two options have the same short
    name. *)
Fixpoint keys_sorted (m : IOptionMap) : Prop :=
  match m with
  | [] => True
  | (k, _) :: m' => Forall (λ kv, String.ltb k kv.1 = true) m' ∧ keys_sorted m'
  end.

Definition keys_are_names (m : IOptionMap) : Prop :=
  Forall (λ kv, kv.1 = name kv.2) m.

Fixpoint short_names_unique (m : IOptionMap) : Prop :=
  match m with
  | [] => True
  | (_, o) :: m' =>
      (short_name o ≠ 0 → Forall (λ kv, short_name kv.2 ≠ short_name o) m') ∧
      short_names_unique m'
  end.

Record map_ok (m : IOptionMap) : Prop := mkMapOk {
  ok_sorted : keys_sorted m;
  ok_names : keys_are_names m;
  ok_short : short_names_unique m
}.

(** The options of which [nm] is the start of the name, in the order of
    the map. *)
Definition candidates (nm : string) (m : IOptionMap) : list IOption :=
  (filter (λ kv, String.prefix nm (name kv.2) = true) m).*2.

(** What becomes of another option when [opt] is added: it loses its short
    name if [opt] has the same one. *)
Definition loses_short_name (opt o : IOption) : IOption :=
  if negb (short_name opt =? 0) && (short_name o =? short_name opt)
  then set_short_name 0 o else o.

(** Sample options: [--pid] with the short name [-p] (112), and
    [--pid-list]. *)
Definition pid_option : IOption :=
  mkIOption "pid" 112 INTEGER 0 1 0 8191 0 0 [] EmptyString EmptyString [] 0.
Definition pid_list_option : IOption :=
  mkIOption "pid-list" 0 STRING 0 1 0 0 0 0 [] EmptyString EmptyString [] 0.
Definition sample_options : IOptionMap :=
  [("pid"%string, pid_option); ("pid-list"%string, pid_list_option)].
(** An option [--pcr] which takes the short name [-p]. *)
Definition pcr_option : IOption :=
  mkIOption "pcr" 112 NONE 0 1 0 0 0 0 [] EmptyString EmptyString [] 0.

(** *** Validation of the value of an option *)

(** The constants of [ts::Args] which are declared with the class: the
    bits of the flags of a command and of an option, and the enumerations
    of the formats of the predefined options. *)
Class ArgsConstants := {
  NO_EXIT_ON_ERROR : Z;
  NO_DEBUG : Z;
  NO_HELP : Z;
  NO_VERBOSE : Z;
  NO_VERSION : Z;
  IOPT_PREDEFINED : Z;
  IOPT_OPTVALUE : Z;
  IOPT_OPTVAL_NOHELP : Z;
  HelpFormatEnum : Enumeration;
  VersionFormatEnum : Enumeration
}.

(** The conversions of strings which the validation of a value calls.  A
    conversion returns its result when it succeeds. *)
Class ValueSyntax := {
  (* val.toInteger(i, THOUSANDS_SEPARATORS, decimals, DECIMAL_POINTS) *)
  toInteger : string → Z → option Z;
  (* val.toTristate(t) *)
  toTristate : string → bool;
  (* enumeration.value(val, false), none for Enumeration::UNKNOWN *)
  enum_value : Enumeration → string → option Z
}.

(** Conversions to [int64_t] and to [size_t]. *)
Definition to_int64 (z : Z) : Z := (z + 2 ^ 63) mod 2 ^ 64 - 2 ^ 63.
Definition to_size_t (z : Z) : Z := z mod SIZE_MOD.

(** The errors which [validateParameter] reports before it returns false,
    and the failure of one of its assertions. *)
Inductive ValueError :=
| NoValueAllowed
| MissingValue
| InvalidTristateValue
| InvalidEnumerationValue
| InvalidIntegerRange
| InvalidIntegerValue
| ValueTooLow
| ValueTooHigh
| AssertionFailure.

(** The end of [validateParameter], from "Check validity of integer
    values" on, for the value [arg]. *)
Definition push_value (opt : IOption) (arg : ArgValue)
    : ValueError + IOption :=
  let is_int := is_INTEGER (type opt) && (0 <? int_count arg) in
  if is_int && (int_base arg <? min_value opt) then inl ValueTooLow
  else if is_int &&
          (max_value opt
           <? to_int64 (to_int64 (int_base arg + to_int64 (int_count arg)) - 1))
  then inl ValueTooHigh
  else
    inr (mkIOption (name opt) (short_name opt) (type opt) (min_occur opt)
           (max_occur opt) (min_value opt) (max_value opt) (decimals opt)
           (flags opt) (enumeration opt) (syntax opt) (help opt)
           (* Push value. *)
           (values opt ++ [arg])
           (* Add the number of occurences. *)
           (size_add (value_count opt)
                     (if is_int then int_count arg else 1))).

(** The value of an option of type integer without enumeration: one
    integer, or a range of integers [first-last]. *)
Definition integer_value `{ValueSyntax} (opt : IOption) (v : string)
    : ValueError + ArgValue :=
  match toInteger v (decimals opt) with
  | Some b => inr (mkArgValue (Some v) b 1)   (* exactly one integer value *)
  | None =>
      match String.index 0 "-" v with
      | Some point =>
          if (S point <? String.length v)%nat then
            match toInteger (String.substring 0 point v) (decimals opt) with
            | Some b =>
                match toInteger (String.substring (S point)
                                   (String.length v - S point) v)
                                (decimals opt) with
                | Some last =>
                    (* Found one range of integer values. *)
                    if last <? b then inl InvalidIntegerRange
                    else inr (mkArgValue (Some v) b
                                (to_size_t (to_int64 (to_int64 (last + 1) - b))))
                | None => inl InvalidIntegerValue
                end
            | None => inl InvalidIntegerValue
            end
          else inl InvalidIntegerValue
      | None => inl InvalidIntegerValue
      end
  end.

(** [Args::validateParameter]: the new state of the option when true is
    returned. *)
Definition validateParameter `{ArgsConstants} `{ValueSyntax} (opt : IOption)
    (val : option string) : ValueError + IOption :=
  match type opt, val with
  | NONE, Some _ => inl NoValueAllowed
  | NONE, None => push_value opt (mkArgValue val 0 0)
  | _, None =>
      (* No value set, must be an optional value. *)
      if Z.land (flags opt) IOPT_OPTVALUE =? 0 then inl MissingValue
      else push_value opt (mkArgValue val 0 0)
  | TRISTATE, Some v =>
      if toTristate v then push_value opt (mkArgValue val 0 0)
      else inl InvalidTristateValue
  | STRING, Some _ => push_value opt (mkArgValue val 0 0)
  | INTEGER, Some v =>
      if negb (enum_empty (enumeration opt)) then
        (* Enumeration value expected *)
        match enum_value (enumeration opt) v with
        | None => inl InvalidEnumerationValue
        | Some i => push_value opt (mkArgValue val i 1)
        end
      else
        match integer_value opt v with
        | inl e => inl e
        | inr arg => push_value opt arg
        end
  | INVALID_TYPE, Some _ => push_value opt (mkArgValue val 0 0)
  | _, Some _ =>
      (* These cases must have been previously eliminated. *)
      inl AssertionFailure
  end.

(** The values of an option are within the range of the option. *)
Definition values_in_range (opt : IOption) : Prop :=
  Forall (λ a, 0 < int_count a →
               min_value opt ≤ int_base a ∧
               int_base a + int_count a - 1 ≤ max_value opt)
         (values opt).

(** The conversions return, for the option [opt], integers of at most 62
    bits, sign included: no operation of the validation overflows. *)
Definition conversions_bounded `{ValueSyntax} (opt : IOption) : Prop :=
  (∀ s v, toInteger s (decimals opt) = Some v → - 2 ^ 61 ≤ v < 2 ^ 61) ∧
  (∀ s v, enum_value (enumeration opt) s = Some v → - 2 ^ 61 ≤ v < 2 ^ 61).

(** The same description of an option, whatever its values. *)
Definition same_description (o o' : IOption) : Prop :=
  name o' = name o ∧ short_name o' = short_name o ∧ type o' = type o ∧
  min_occur o' = min_occur o ∧ max_occur o' = max_occur o ∧
  min_value o' = min_value o ∧ max_value o' = max_value o ∧
  decimals o' = decimals o ∧ flags o' = flags o ∧
  enumeration o' = enumeration o.

(** The successive calls to [validateParameter] for the values of one
    option, as long as they return true. *)
Fixpoint validate_values `{ArgsConstants} `{ValueSyntax} (opt : IOption)
    (vals : list (option string)) : ValueError + IOption :=
  match vals with
  | [] => inr opt
  | val :: vals' =>
      match validateParameter opt val with
      | inl e => inl e
      | inr opt' => validate_values opt' vals'
      end
  end.

(** Conversions for a sample: decimal integers of one or two digits, the
    tristate values [yes] and [no] and the names of the enumeration. *)
Definition digit (c : Ascii.ascii) : option Z :=
  let n := Z.of_nat (Ascii.nat_of_ascii c) in
  if (48 <=? n) && (n <=? 57) then Some (n - 48) else None.

Fixpoint sample_enum_value (e : Enumeration) (s : string) : option Z :=
  match e with
  | [] => None
  | (n, v) :: e' => if String.eqb n s then Some v else sample_enum_value e' s
  end.

#[export] Instance sample_syntax : ValueSyntax := {
  toInteger s _ :=
    match s with
    | String a EmptyString => digit a
    | String a (String b EmptyString) =>
        match digit a, digit b with
        | Some x, Some y => Some (10 * x + y)
        | _, _ => None
        end
    | _ => None
    end;
  toTristate s := String.eqb s "yes" || String.eqb s "no";
  enum_value := sample_enum_value
}.

(** Sample values of the constants: one bit each. *)
#[export] Instance sample_constants : ArgsConstants := {
  NO_EXIT_ON_ERROR := 2;
  NO_DEBUG := 64;
  NO_HELP := 128;
  NO_VERBOSE := 256;
  NO_VERSION := 512;
  IOPT_PREDEFINED := 1;
  IOPT_OPTVALUE := 2;
  IOPT_OPTVAL_NOHELP := 4;
  HelpFormatEnum := [("name"%string, 0); ("description"%string, 1);
                     ("usage"%string, 2); ("syntax"%string, 3);
                     ("full"%string, 4)];
  VersionFormatEnum := [("short"%string, 0); ("long"%string, 1)]
}.

(** [--pid] after the value [12]. *)
Definition pid_12 : IOption :=
  mkIOption "pid" 112 INTEGER 0 1 0 8191 0 0 [] EmptyString EmptyString
            [mkArgValue (Some "12"%string) 12 1] 1.

(** *** Predefined options *)

(** The part of a command [ts::Args] which the declaration of its options
    involves. *)
Record Args := mkArgs {
  iopts : IOptionMap;      (* _iopts *)
  args_flags : Z           (* _flags *)
}.

(** The exception of [getIOption] for an option which is not defined, or an
    exception of a constructor of [IOption]. *)
Inductive DeclError :=
| UndefinedOption (nm : string)
| BadOption (e : ArgsError).

Definition set_help (syntax_ text : string) (o : IOption) : IOption :=
  mkIOption (name o) (short_name o) (type o) (min_occur o) (max_occur o)
            (min_value o) (max_value o) (decimals o) (flags o)
            (enumeration o) syntax_ text (values o) (value_count o).

(** An update of the option which [getIOption] returns. *)
Fixpoint map_update (key : string) (f : IOption → IOption) (m : IOptionMap)
    : IOptionMap :=
  match m with
  | [] => []
  | (k, o) :: m' =>
      if String.eqb k key then (k, f o) :: m' else (k, o) :: map_update key f m'
  end.

(** [Args::help(name, syntax, text)]. *)
Definition help_text (nm syntax_ text : string) (m : IOptionMap)
    : DeclError + IOptionMap :=
  match map_find nm m with
  | Some _ => inr (map_update nm (set_help syntax_ text) m)
  | None => inl (UndefinedOption nm)
  end.

(** One of the four predefined options in [adjustPredefinedOptions]: it is
    erased when the flag [no] of the command is set, and declared with its
    help text when it is not defined otherwise. *)
Definition adjust_option (no : Z) (nm : string) (opt : ArgsError + IOption)
    (syntax_ text : string) (a : Args) : DeclError + Args :=
  if negb (Z.land (args_flags a) no =? 0)
  then inr (mkArgs (map_erase nm (iopts a)) (args_flags a))
  else
    match map_find nm (iopts a) with
    | Some _ => inr a
    | None =>
        match opt with
        | inl e => inl (BadOption e)
        | inr o =>
            match help_text nm syntax_ text (addOption o (iopts a)) with
            | inl e => inl e
            | inr m => inr (mkArgs m (args_flags a))
            end
        end
    end.

Definition then_adjust (r : DeclError + Args) (f : Args → DeclError + Args)
    : DeclError + Args :=
  match r with inl e => inl e | inr a => f a end.

(** [Args::adjustPredefinedOptions]; [v] is the character 118 and [d] the
    character 100. *)
Definition adjustPredefinedOptions `{ArgsConstants} (a : Args)
    : DeclError + Args :=
  (* Option --help[=value]. *)
  then_adjust
    (adjust_option NO_HELP "help"
       (IOption_enum "help" 0 HelpFormatEnum 0 1
          (Z.lor (Z.lor IOPT_PREDEFINED IOPT_OPTVALUE) IOPT_OPTVAL_NOHELP))
       EmptyString "Display this help text." a) (λ a,
  (* Option --version[=value]. *)
  then_adjust
    (adjust_option NO_VERSION "version"
       (IOption_enum "version" 0 VersionFormatEnum 0 1
          (Z.lor (Z.lor IOPT_PREDEFINED IOPT_OPTVALUE) IOPT_OPTVAL_NOHELP))
       EmptyString "Display the TSDuck version number." a) (λ a,
  (* Option --verbose. *)
  then_adjust
    (adjust_option NO_VERBOSE "verbose"
       (IOption_new "verbose" 118 NONE 0 1 0 0 0 IOPT_PREDEFINED)
       EmptyString "Produce verbose output." a) (λ a,
  (* Option --debug[=value]. *)
  adjust_option NO_DEBUG "debug"
    (IOption_new "debug" 100 POSITIVE 0 1 0 0 0
       (Z.lor IOPT_PREDEFINED IOPT_OPTVALUE))
    "level"
    "Produce debug traces. The default level is 1. Higher levels produce more messages."
    a))).

(** [Args::setFlags]. *)
Definition setFlags `{ArgsConstants} (flags_ : Z) (a : Args)
    : DeclError + Args :=
  adjustPredefinedOptions (mkArgs (iopts a) flags_).

(** The flags which [processPendingRestart] sets for the analysis of the
    new arguments of a restart. *)
Definition restart_flags `{ArgsConstants} (flags_ : Z) : Z :=
  Z.lor (Z.lor flags_ NO_HELP) NO_EXIT_ON_ERROR.

(** The four names of the predefined options. *)
Definition predefined_name (k : string) : bool :=
  String.eqb k "help" || String.eqb k "version" || String.eqb k "verbose"
  || String.eqb k "debug".

(** A plugin with the options [--help] and [--pid]: its flags are those of
    the constructor of [ts::Plugin], without predefined option but the
    help. *)
Definition sample_args : Args :=
  mkArgs [("help"%string,
           mkIOption "help" 0 INTEGER 0 1 INT_MIN INT_MAX 0 7
                     [("name"%string, 0); ("description"%string, 1);
                      ("usage"%string, 2); ("syntax"%string, 3);
                      ("full"%string, 4)]
                     EmptyString "Display this help text." [] 0);
          ("pid"%string, pid_option)]
         (64 + 256 + 512).

(* ===================================================================== *)
(** * Properties *)

Lemma ringNext_lt (r : Ring) (i : nat) :
  (i < length r)%nat → (ringNext r i < length r)%nat.
Proof. intros H. unfold ringNext. apply Nat.mod_upper_bound. lia. Qed.

Lemma ringNext_ne (r : Ring) (i : nat) :
  (2 ≤ length r)%nat → (i < length r)%nat → ringNext r i ≠ i.
Proof.
  intros Hn Hi. unfold ringNext.
  destruct (decide (S i = length r)) as [E|E].
  - rewrite E, Nat.Div0.mod_same. lia.
  - rewrite Nat.mod_small by lia. lia.
Qed.

Lemma ringNext_cases (r : Ring) (i : nat) :
  (i < length r)%nat →
  (S i < length r ∧ ringNext r i = S i)%nat ∨
  (S i = length r ∧ ringNext r i = 0)%nat.
Proof.
  intros Hi. unfold ringNext.
  destruct (decide (S i = length r)) as [E|E].
  - right. rewrite E, Nat.Div0.mod_same. done.
  - left. rewrite Nat.mod_small by lia. lia.
Qed.

(** Case analysis on the abort decision inside [passPackets]. *)
Ltac case_abort :=
  match goal with
  | |- context [if ?c then alter signal _ _ else _] => destruct c
  end.

Lemma length_passPackets cap i count br iend aborted r :
  length (passPackets cap i count br iend aborted r).1 = length r.
Proof.
  unfold passPackets. cbv zeta. cbn [fst].
  case_abort; rewrite ?length_alter; done.
Qed.

Lemma ringNext_passPackets cap i count br iend aborted r k :
  ringNext (passPackets cap i count br iend aborted r).1 k = ringNext r k.
Proof. unfold ringNext. by rewrite length_passPackets. Qed.

(** The effect of [passPackets] on the window of every executor. *)
Lemma passPackets_lookup cap i count br iend aborted r k e' :
  (2 ≤ length r)%nat → (i < length r)%nat →
  (passPackets cap i count br iend aborted r).1 !! k = Some e' →
  ∃ e, r !! k = Some e ∧ ptype e' = ptype e ∧
    pkt_first e' = (if decide (k = i)
                    then size_add (pkt_first e) count mod cap
                    else pkt_first e) ∧
    pkt_cnt e' = (if decide (k = i) then size_sub (pkt_cnt e) count
                  else if decide (k = ringNext r i)
                       then size_add (pkt_cnt e) count
                       else pkt_cnt e).
Proof.
  intros Hn Hi. pose proof (ringNext_ne r i Hn Hi) as Hne.
  unfold passPackets. cbv zeta. cbn [fst].
  case_abort;
    rewrite ?list_lookup_alter; intros H;
    destruct (r !! k) as [e|] eqn:Hk;
    repeat case_decide; try congruence;
    repeat match goal with
           | E : ?a = k |- _ => rewrite E in H
           | E : k = ?a |- _ => rewrite <- E in H
           end;
    rewrite ?Hk in H; simpl in H; try discriminate;
    injection H as <-; exists e; simpl; done.
Qed.

Lemma sum_cnt_alter (f : PluginExecutor → PluginExecutor) r i e :
  r !! i = Some e →
  sum_cnt (alter f i r) = sum_cnt r - pkt_cnt e + pkt_cnt (f e).
Proof.
  revert i. induction r as [|x r IH]; intros [|i] H; simpl in *; try done.
  - injection H as ->. lia.
  - pose proof (IH i H) as IH'. unfold alter in IH'. lia.
Qed.

Lemma sum_cnt_alter_same (f : PluginExecutor → PluginExecutor) r i :
  (∀ e, pkt_cnt (f e) = pkt_cnt e) →
  sum_cnt (alter f i r) = sum_cnt r.
Proof.
  intros Hf. revert i.
  induction r as [|x r IH]; intros [|i]; simpl; try done.
  - by rewrite Hf.
  - pose proof (IH i) as IH'. unfold alter in IH'. lia.
Qed.

Lemma sum_cnt_app r1 r2 : sum_cnt (r1 ++ r2) = sum_cnt r1 + sum_cnt r2.
Proof. induction r1; simpl; lia. Qed.

Lemma sum_cnt_nonneg r :
  (∀ i e, r !! i = Some e → 0 ≤ pkt_cnt e) → 0 ≤ sum_cnt r.
Proof.
  induction r as [|x r IH]; intros H; simpl; [lia|].
  pose proof (H 0%nat x eq_refl).
  assert (0 ≤ sum_cnt r); [|lia].
  apply IH. intros i e Hi. apply (H (S i) e Hi).
Qed.

Lemma sum_cnt_lookup_le r i e :
  (∀ i e, r !! i = Some e → 0 ≤ pkt_cnt e) →
  r !! i = Some e → pkt_cnt e ≤ sum_cnt r.
Proof.
  revert i. induction r as [|x r IH]; intros [|i] Hp H; simpl in *; try done.
  - injection H as ->.
    assert (0 ≤ sum_cnt r); [|lia].
    apply sum_cnt_nonneg. intros j ej Hj. apply (Hp (S j) ej Hj).
  - pose proof (Hp 0%nat x eq_refl).
    assert (pkt_cnt e ≤ sum_cnt r); [|lia].
    apply (IH i); [|done]. intros j ej Hj. apply (Hp (S j) ej Hj).
Qed.

Lemma sum_cnt_lookup2_le r i j ei ej :
  (∀ i e, r !! i = Some e → 0 ≤ pkt_cnt e) →
  i ≠ j → r !! i = Some ei → r !! j = Some ej →
  pkt_cnt ei + pkt_cnt ej ≤ sum_cnt r.
Proof.
  revert i j. induction r as [|x r IH]; intros [|i] [|j] Hp Hne Hi Hj;
    simpl in *; try done.
  - injection Hi as ->.
    enough (pkt_cnt ej ≤ sum_cnt r) by lia.
    apply (sum_cnt_lookup_le r j); [|done].
    intros k ek Hk. apply (Hp (S k) ek Hk).
  - injection Hj as ->.
    enough (pkt_cnt ei ≤ sum_cnt r) by lia.
    apply (sum_cnt_lookup_le r i); [|done].
    intros k ek Hk. apply (Hp (S k) ek Hk).
  - pose proof (Hp 0%nat x eq_refl).
    enough (pkt_cnt ei + pkt_cnt ej ≤ sum_cnt r) by lia.
    apply (IH i j); try done; [|lia].
    intros k ek Hk. apply (Hp (S k) ek Hk).
Qed.

(** The sum of the window sizes in terms of the two executors which
    [passPackets] touches. *)
Lemma sum_cnt_passPackets cap i count br iend aborted r e nx :
  (2 ≤ length r)%nat →
  r !! i = Some e → r !! ringNext r i = Some nx →
  sum_cnt (passPackets cap i count br iend aborted r).1
  = sum_cnt r - pkt_cnt e + size_sub (pkt_cnt e) count
    - pkt_cnt nx + size_add (pkt_cnt nx) count.
Proof.
  intros Hn He Hnx.
  assert (Hi : (i < length r)%nat) by (by eapply lookup_lt_Some).
  pose proof (ringNext_ne r i Hn Hi) as Hne.
  assert (Hr2 : sum_cnt (alter (pass_next count br iend) (ringNext r i)
                           (alter (pass_own cap count) i r))
                = sum_cnt r - pkt_cnt e + size_sub (pkt_cnt e) count
                  - pkt_cnt nx + size_add (pkt_cnt nx) count).
  { rewrite (sum_cnt_alter _ _ _ nx).
    - rewrite (sum_cnt_alter _ _ _ e He). simpl. lia.
    - rewrite list_lookup_alter_ne by done. done. }
  unfold passPackets. cbv zeta. cbn [fst].
  case_abort; [|done].
  rewrite !sum_cnt_alter_same by done. done.
Qed.

(** *** Arithmetic helpers *)

Lemma size_add_small a b : 0 ≤ a + b < SIZE_MOD → size_add a b = a + b.
Proof. intros H. unfold size_add. by apply Z.mod_small. Qed.

Lemma size_sub_small a b : 0 ≤ a - b < SIZE_MOD → size_sub a b = a - b.
Proof. intros H. unfold size_sub. by apply Z.mod_small. Qed.

Lemma mod_eq_congr cap a b : 0 < cap → a mod cap = b mod cap → congr cap a b.
Proof.
  intros Hc H. exists (a / cap - b / cap).
  pose proof (Z.div_mod a cap). pose proof (Z.div_mod b cap). lia.
Qed.

Lemma congr_mod_eq cap a b : 0 < cap → congr cap a b → a mod cap = b mod cap.
Proof.
  intros Hc [q ->]. by rewrite Z.mod_add by lia.
Qed.

Lemma congr_mod cap a : 0 < cap → congr cap (a mod cap) a.
Proof.
  intros Hc. exists (- (a / cap)). pose proof (Z.div_mod a cap). lia.
Qed.

Lemma congr_small cap a b :
  0 < cap → congr cap a b → 0 ≤ a - b < cap → a = b.
Proof.
  intros Hc [q ->] H.
  assert (q = 0) as -> by nia. lia.
Qed.

Lemma buffer_fits_twice cap : buffer_fits cap → 0 < cap ∧ 2 * cap < SIZE_MOD.
Proof. unfold buffer_fits, PKT_SIZE. lia. Qed.

(** *** The invariant of the ring *)

Lemma ringNext_inj (r : Ring) i j :
  (i < length r)%nat → (j < length r)%nat →
  ringNext r i = ringNext r j → i = j.
Proof.
  intros Hi Hj.
  destruct (ringNext_cases r i Hi) as [[? ->]|[? ->]],
           (ringNext_cases r j Hj) as [[? ->]|[? ->]]; lia.
Qed.

Lemma ring_inv_cnt_le cap r i e :
  ring_inv cap r → r !! i = Some e → 0 ≤ pkt_cnt e ≤ cap.
Proof.
  intros [Hn Hr Hs Hc] He. split; [by apply (Hr i e)|].
  rewrite <- Hs. apply (sum_cnt_lookup_le r i e); [|done].
  intros j ej Hj. by apply (Hr j ej).
Qed.

(** In a ring which satisfies the invariant, a hand-off of at most the
    size of the window does not wrap around in [size_t]. *)
Lemma passPackets_no_wrap cap r i e nx count :
  buffer_fits cap → ring_inv cap r →
  r !! i = Some e → r !! ringNext r i = Some nx →
  0 ≤ count ≤ pkt_cnt e →
  size_add (pkt_first e) count = pkt_first e + count ∧
  size_sub (pkt_cnt e) count = pkt_cnt e - count ∧
  size_add (pkt_cnt nx) count = pkt_cnt nx + count ∧
  pkt_cnt nx + count ≤ cap.
Proof.
  intros Hfit Hinv He Hnx Hcount.
  destruct (buffer_fits_twice cap Hfit) as [Hc Hc2].
  pose proof (ring_inv_cnt_le cap r i e Hinv He) as Hle.
  pose proof (ring_inv_cnt_le cap r _ nx Hinv Hnx) as Hle'.
  pose proof (inv_range cap r Hinv i e He) as [Hf _].
  assert (Hi : (i < length r)%nat) by (by eapply lookup_lt_Some).
  assert (Hsum : pkt_cnt e + pkt_cnt nx ≤ cap).
  { rewrite <- (inv_sum cap r Hinv).
    apply (sum_cnt_lookup2_le r i (ringNext r i)); try done.
    - intros j ej Hj. by apply (inv_range cap r Hinv j ej).
    - pose proof (ringNext_ne r i (inv_len cap r Hinv) Hi). done. }
  rewrite !size_add_small, size_sub_small by lia. lia.
Qed.

Lemma ring_inv_passPackets cap r i e count br iend aborted :
  buffer_fits cap → ring_inv cap r →
  r !! i = Some e → 0 ≤ count ≤ pkt_cnt e →
  ring_inv cap (passPackets cap i count br iend aborted r).1.
Proof.
  intros Hfit Hinv He Hcount.
  destruct (buffer_fits_twice cap Hfit) as [Hc Hc2].
  pose proof (inv_len cap r Hinv) as Hn.
  assert (Hi : (i < length r)%nat) by (by eapply lookup_lt_Some).
  destruct (lookup_lt_is_Some_2 r _ (ringNext_lt r i Hi)) as [nx Hnx].
  destruct (passPackets_no_wrap cap r i e nx count Hfit Hinv He Hnx Hcount)
    as (Ha & Hs & Hb & Hle).
  pose proof (ringNext_ne r i Hn Hi) as Hne.
  split.
  - by rewrite length_passPackets.
  - intros k e' Hk.
    destruct (passPackets_lookup _ _ _ _ _ _ _ _ _ Hn Hi Hk)
      as (ek & Hek & _ & Hf & Hcnt).
    pose proof (inv_range cap r Hinv k ek Hek) as [Hfk Hck].
    rewrite Hf, Hcnt. repeat case_decide; simplify_eq.
    + split; [apply Z.mod_pos_bound; lia | lia].
    + lia.
    + lia.
  - rewrite (sum_cnt_passPackets _ _ _ _ _ _ _ e nx Hn He Hnx).
    rewrite Hs, Hb, (inv_sum cap r Hinv). lia.
  - intros k e' nx' Hk Hnk. rewrite ringNext_passPackets in Hnk.
    destruct (passPackets_lookup _ _ _ _ _ _ _ _ _ Hn Hi Hk)
      as (ek & Hek & _ & Hf & _).
    destruct (passPackets_lookup _ _ _ _ _ _ _ _ _ Hn Hi Hnk)
      as (enk & Henk & _ & Hf' & Hcnt').
    pose proof (inv_chain cap r Hinv k ek enk Hek Henk) as Hch.
    assert (Hklt : (k < length r)%nat) by (by eapply lookup_lt_Some).
    pose proof (ringNext_ne r k Hn Hklt) as Hnek.
    pose proof (inv_range cap r Hinv k ek Hek) as [Hfk _].
    rewrite Hf, Hf', Hcnt'. clear Hf Hf' Hcnt'.
    repeat case_decide; simplify_eq.
    + (* the predecessor and the executor which passes the packets *)
      rewrite Ha, Hs, <- Hch. apply congr_mod_eq; [done|].
      destruct (congr_mod cap (pkt_first e + count) Hc) as [q Hq].
      exists q. lia.
    + (* the executor which passes the packets and its successor *)
      rewrite Ha, Hb, <- Hch. apply congr_mod_eq; [done|].
      destruct (congr_mod cap (pkt_first nx + pkt_cnt nx) Hc) as [q Hq].
      exists (- q). lia.
    + exfalso. match goal with H : ringNext r k = ringNext r _ |- _ =>
        apply ringNext_inj in H; [done|done|done] end.
    + done.
Qed.

Lemma ring_inv_alter_same cap (f : PluginExecutor → PluginExecutor) j r :
  (∀ e, pkt_first (f e) = pkt_first e ∧ pkt_cnt (f e) = pkt_cnt e) →
  ring_inv cap r → ring_inv cap (alter f j r).
Proof.
  intros Hf [Hn Hr Hs Hc].
  assert (Hlk : ∀ k e', alter f j r !! k = Some e' →
            ∃ e, r !! k = Some e ∧ pkt_first e' = pkt_first e
                 ∧ pkt_cnt e' = pkt_cnt e).
  { intros k e'. rewrite list_lookup_alter. case_decide.
    - subst k. destruct (r !! j) as [e|]; simpl; [|by inversion 1].
      intros [= <-]. exists e. destruct (Hf e). done.
    - intros H'. by exists e'. }
  split.
  - by rewrite length_alter.
  - intros k e' Hk. destruct (Hlk k e' Hk) as (e & He & -> & ->).
    by apply (Hr k e).
  - rewrite sum_cnt_alter_same; [done|]. intros e. by destruct (Hf e).
  - intros k e' nx' Hk Hnk.
    unfold ringNext in Hnk. rewrite length_alter in Hnk.
    destruct (Hlk k e' Hk) as (e & He & -> & _).
    destruct (Hlk _ nx' Hnk) as (nx & Hnx & -> & ->).
    by apply (Hc k e nx).
Qed.

Lemma ring_inv_setAbort cap i r : ring_inv cap r → ring_inv cap (setAbort i r).
Proof.
  intros H. unfold setAbort. by do 2 (apply ring_inv_alter_same; [done|]).
Qed.

Lemma sum_cnt_imap_zero (h : nat → PluginExecutor → PluginExecutor) r :
  (∀ k e, pkt_cnt (h k e) = 0) → sum_cnt (imap h r) = 0.
Proof.
  revert h. induction r as [|x r IH]; intros h Hh; simpl; [done|].
  rewrite Hh, IH; [done|]. intros k e. apply Hh.
Qed.

(** The windows set by [initAllBuffers]. *)
Lemma initAllBuffers_lookup cap p b (r : Ring) k e' :
  (2 ≤ length r)%nat →
  initAllBuffers_ring cap p b r !! k = Some e' →
  pkt_first e' = (if decide (k = 0%nat) then p mod cap else 0) ∧
  pkt_cnt e' = (if decide (k = 0%nat) then size_sub cap p
                else if decide (k = 1%nat) then p else 0).
Proof.
  intros Hn. unfold initAllBuffers_ring.
  assert (ringNext r 0 = 1%nat) as ->.
  { unfold ringNext. apply Nat.mod_small. lia. }
  rewrite list_lookup_imap, !list_lookup_alter.
  destruct k as [|[|k]]; repeat case_decide; try lia;
    match goal with |- context [r !! ?n] => destruct (r !! n) as [e|] end;
    simpl; try (by inversion 1); intros [= <-]; done.
Qed.

Lemma length_initAllBuffers cap p b (r : Ring) :
  length (initAllBuffers_ring cap p b r) = length r.
Proof.
  unfold initAllBuffers_ring. by rewrite length_imap, !length_alter.
Qed.

(** [initAllBuffers] establishes the invariant. *)
Lemma ring_inv_initAllBuffers cap p b (r : Ring) :
  buffer_fits cap → (2 ≤ length r)%nat → 0 < p ≤ cap / 2 →
  ring_inv cap (initAllBuffers_ring cap p b r).
Proof.
  intros Hfit Hn Hp.
  destruct (buffer_fits_twice cap Hfit) as [Hc Hc2].
  assert (Hpc : 2 * p ≤ cap).
  { pose proof (Z.mul_div_le cap 2). lia. }
  assert (Hsub : size_sub cap p = cap - p) by (apply size_sub_small; lia).
  assert (Hmod : p mod cap = p) by (apply Z.mod_small; lia).
  split.
  - by rewrite length_initAllBuffers.
  - intros k e' Hk.
    destruct (initAllBuffers_lookup _ _ _ _ _ _ Hn Hk) as [-> ->].
    repeat case_decide; lia.
  - destruct r as [|e0 [|e1 r]]; simpl in Hn; try lia.
    unfold initAllBuffers_ring.
    assert (ringNext (e0 :: e1 :: r) 0 = 1%nat) as ->.
    { unfold ringNext. apply Nat.mod_small. simpl. lia. }
    simpl. rewrite sum_cnt_imap_zero by done. lia.
  - intros k e' nx' Hk Hnk.
    assert (Hklt : (k < length r)%nat).
    { apply lookup_lt_Some in Hk. by rewrite length_initAllBuffers in Hk. }
    unfold ringNext in Hnk. rewrite length_initAllBuffers in Hnk.
    fold (ringNext r k) in Hnk.
    destruct (initAllBuffers_lookup _ _ _ _ _ _ Hn Hk) as [-> _].
    destruct (initAllBuffers_lookup _ _ _ _ _ _ Hn Hnk) as [-> ->].
    destruct (ringNext_cases r k Hklt) as [[? E]|[? E]]; rewrite E;
      repeat case_decide; try lia; rewrite ?Hsub, ?Hmod.
    + by apply Z.mod_small; lia.
    + by rewrite Z.mod_0_l by lia.
    + replace (p + (cap - p)) with cap by lia. by rewrite Z.mod_same by lia.
Qed.

Lemma length_new_ring nproc : length (new_ring nproc) = S (S nproc).
Proof.
  unfold new_ring. simpl. rewrite length_app, length_replicate. simpl. lia.
Qed.

(** Every reachable state of the ring satisfies the invariant. *)
Lemma reachable_inv cap r : buffer_fits cap → reachable cap r → ring_inv cap r.
Proof.
  intros Hfit.
  induction 1 as [n p b Hp|r i count br iend ab Hr IH Hc Ha|r i Hr IH Hi
                  |r i b Hr IH|r i Hr IH].
  - apply ring_inv_initAllBuffers; [done| |done].
    rewrite length_new_ring. lia.
  - unfold passPackets_asserts in Ha.
    destruct (r !! i) as [e|] eqn:He; [|done].
    apply andb_prop in Ha as [Ha _]. apply Z.leb_le in Ha.
    by apply (ring_inv_passPackets cap r i e).
  - by apply ring_inv_setAbort.
  - by apply ring_inv_alter_same.
  - by apply ring_inv_alter_same.
Qed.

(** *** Disjointness of the windows

    Under the invariant, the window of the executor at position [j] ends
    where the window of position [j - 1] starts.  Counting the slots
    backwards from the end [B] of the window of the input executor, the
    window of position [j] is made of the slots [B - t] for [t] between the
    sum of the sizes of the windows before [j] (excluded) and the sum of the
    sizes up to [j] (included). *)

Lemma sum_cnt_take_nonneg (r : Ring) n :
  (∀ i e, r !! i = Some e → 0 ≤ pkt_cnt e) → 0 ≤ sum_cnt (take n r).
Proof.
  intros Hp. apply sum_cnt_nonneg. intros i e Hi.
  apply lookup_take_Some in Hi as [Hi _]. by apply (Hp i e).
Qed.

Lemma sum_cnt_take_mono (r : Ring) a b :
  (∀ i e, r !! i = Some e → 0 ≤ pkt_cnt e) → (a ≤ b)%nat →
  sum_cnt (take a r) ≤ sum_cnt (take b r).
Proof.
  intros Hp Hab.
  replace b with (a + (b - a))%nat by lia.
  rewrite <- take_take_drop. rewrite sum_cnt_app.
  enough (0 ≤ sum_cnt (take (b - a) (drop a r))) by lia.
  apply sum_cnt_nonneg. intros i e Hi.
  apply lookup_take_Some in Hi as [Hi _]. rewrite lookup_drop in Hi.
  by apply (Hp _ e Hi).
Qed.

Lemma sum_cnt_take_le (r : Ring) n :
  (∀ i e, r !! i = Some e → 0 ≤ pkt_cnt e) →
  sum_cnt (take n r) ≤ sum_cnt r.
Proof.
  intros Hp. destruct (decide (n ≤ length r)%nat).
  - rewrite <- (firstn_all r) at 2. by apply sum_cnt_take_mono.
  - rewrite take_ge by lia. lia.
Qed.

Lemma sum_cnt_take_S (r : Ring) j e :
  r !! j = Some e → sum_cnt (take (S j) r) = sum_cnt (take j r) + pkt_cnt e.
Proof.
  intros H. rewrite (take_S_r r j e H), sum_cnt_app. simpl. lia.
Qed.

(** Position of the start of every window relative to the window of the
    input executor. *)
Lemma ring_inv_first cap (r : Ring) e0 j e :
  ring_inv cap r → r !! 0%nat = Some e0 → r !! j = Some e →
  congr cap (pkt_first e) (pkt_first e0 + pkt_cnt e0 - sum_cnt (take (S j) r)).
Proof.
  intros Hinv H0. revert e.
  assert (Hc : 0 < cap).
  { pose proof (inv_range cap r Hinv 0%nat e0 H0). lia. }
  induction j as [|j IH]; intros e He.
  - rewrite He in H0. injection H0 as ->.
    rewrite (sum_cnt_take_S r 0 e0 He). simpl. exists 0. lia.
  - assert (Hj : (S j < length r)%nat) by (by eapply lookup_lt_Some).
    destruct (lookup_lt_is_Some_2 r j) as [ej Hej]; [lia|].
    assert (Hnx : ringNext r j = S j).
    { unfold ringNext. apply Nat.mod_small. lia. }
    pose proof (inv_chain cap r Hinv j ej e Hej) as Hch.
    rewrite Hnx in Hch. specialize (Hch He).
    destruct (IH ej Hej) as [q Hq].
    destruct (congr_mod cap (pkt_first e + pkt_cnt e) Hc) as [q' Hq'].
    rewrite (sum_cnt_take_S r (S j) e He).
    exists (q - q'). lia.
Qed.

(** A slot of a window, counted backwards from the end of the window of the
    input executor. *)
Lemma in_window_offset cap (r : Ring) e0 j e k :
  ring_inv cap r → r !! 0%nat = Some e0 → r !! j = Some e →
  in_window cap e k = true →
  ∃ t, sum_cnt (take j r) < t ≤ sum_cnt (take (S j) r)
       ∧ congr cap k (pkt_first e0 + pkt_cnt e0 - t).
Proof.
  intros Hinv H0 He Hw.
  assert (Hc : 0 < cap).
  { pose proof (inv_range cap r Hinv 0%nat e0 H0). lia. }
  unfold in_window in Hw.
  apply andb_prop in Hw as [Hw Hd]. apply andb_prop in Hw as [Hk0 Hk1].
  apply Z.leb_le in Hk0. apply Z.ltb_lt in Hk1, Hd.
  pose proof (Z.mod_pos_bound (k - pkt_first e) cap Hc) as Hb.
  destruct (congr_mod cap (k - pkt_first e) Hc) as [q Hq].
  destruct (ring_inv_first cap r e0 j e Hinv H0 He) as [q' Hq'].
  rewrite (sum_cnt_take_S r j e He) in *.
  exists (sum_cnt (take j r) + pkt_cnt e - (k - pkt_first e) mod cap).
  split; [lia|]. exists (q' - q). lia.
Qed.

(** Under the invariant, the windows of two distinct executors have no slot
    in common. *)
Lemma ring_inv_disjoint cap (r : Ring) : ring_inv cap r → windows_disjoint cap r.
Proof.
  intros Hinv.
  assert (Hp : ∀ i e, r !! i = Some e → 0 ≤ pkt_cnt e).
  { intros i e He. by apply (inv_range cap r Hinv i e). }
  destruct (lookup_lt_is_Some_2 r 0) as [e0 H0].
  { pose proof (inv_len cap r Hinv). lia. }
  assert (Hc : 0 < cap).
  { pose proof (inv_range cap r Hinv 0%nat e0 H0). lia. }
  assert (Hlt : ∀ i j ei ej k, (i < j)%nat →
            r !! i = Some ei → r !! j = Some ej →
            in_window cap ei k = true → in_window cap ej k = true → False).
  { intros i j ei ej k Hij Hi Hj Hwi Hwj.
    destruct (in_window_offset cap r e0 i ei k Hinv H0 Hi Hwi)
      as (ti & Hti & [qi Hqi]).
    destruct (in_window_offset cap r e0 j ej k Hinv H0 Hj Hwj)
      as (tj & Htj & [qj Hqj]).
    pose proof (sum_cnt_take_mono r (S i) j Hp ltac:(lia)) as Hm.
    pose proof (sum_cnt_take_nonneg r i Hp) as Hz.
    pose proof (sum_cnt_take_le r (S j) Hp) as Hle.
    rewrite (inv_sum cap r Hinv) in Hle.
    assert (Hcg : congr cap tj ti) by (exists (qj - qi); lia).
    apply congr_small in Hcg; lia. }
  intros i j ei ej k Hne Hi Hj Hwi Hwj.
  destruct (decide (i < j)%nat).
  - by apply (Hlt i j ei ej k).
  - apply (Hlt j i ej ei k); [lia|done..].
Qed.

(** ** The window hand-off *)

(** The window hand-off of the body of [passPackets], for a count within
    the window of the caller. *)
Lemma passPackets_hand_off cap r i e nx count br iend aborted :
  buffer_fits cap → reachable cap r →
  r !! i = Some e → r !! ringNext r i = Some nx →
  0 ≤ count ≤ pkt_cnt e →
  let r' := (passPackets cap i count br iend aborted r).1 in
  ∃ e' nx',
    r' !! i = Some e' ∧ r' !! ringNext r i = Some nx' ∧
    pkt_first e' = (pkt_first e + count) mod cap ∧
    pkt_cnt e' = pkt_cnt e - count ∧
    pkt_cnt nx' = pkt_cnt nx + count ∧
    pkt_first nx' = pkt_first nx.
Proof.
  intros Hfit Hr He Hnx Hcount r'.
  pose proof (reachable_inv cap r Hfit Hr) as Hinv.
  pose proof (inv_len cap r Hinv) as Hn.
  assert (Hi : (i < length r)%nat) by (by eapply lookup_lt_Some).
  destruct (passPackets_no_wrap cap r i e nx count Hfit Hinv He Hnx Hcount)
    as (Ha & Hs & Hb & Hle).
  pose proof (ringNext_ne r i Hn Hi) as Hne.
  destruct (lookup_lt_is_Some_2 r' i) as [e' He'].
  { unfold r'. by rewrite length_passPackets. }
  destruct (lookup_lt_is_Some_2 r' (ringNext r i)) as [nx' Hnx'].
  { unfold r'. rewrite length_passPackets. by apply ringNext_lt. }
  exists e', nx'. split; [done|]. split; [done|].
  destruct (passPackets_lookup _ _ _ _ _ _ _ _ _ Hn Hi He')
    as (e1 & He1 & _ & Hf1 & Hc1).
  destruct (passPackets_lookup _ _ _ _ _ _ _ _ _ Hn Hi Hnx')
    as (e2 & He2 & _ & Hf2 & Hc2).
  rewrite decide_True in Hf1, Hc1 by done.
  rewrite decide_False in Hf2, Hc2 by done.
  rewrite decide_True in Hc2 by done.
  simplify_eq. rewrite Hf1, Hc1, Hf2, Hc2, Ha, Hs, Hb. done.
Qed.

(** C2, as the code has it.  In a reachable ring, a call to [passPackets]
    by an executor whose window is [(first, cnt)] goes past its two
    assertions exactly when [count <= cnt] and [first + count <= cap]: the
    packets which are passed must not go around the end of the buffer.  The
    call then sets the window of the executor to
    [((first + count) mod cap, cnt - count)] and adds exactly [count] to
    the size of the window of its successor, whose start does not
    change. *)
Theorem passPackets_window cap r i e nx count br iend aborted :
  buffer_fits cap → reachable cap r →
  r !! i = Some e → r !! ringNext r i = Some nx →
  0 ≤ count →
  (is_Some (passPackets_checked cap i count br iend aborted r)
   ↔ count ≤ pkt_cnt e ∧ pkt_first e + count ≤ cap) ∧
  (count ≤ pkt_cnt e → pkt_first e + count ≤ cap →
   ∃ r' b e' nx',
     passPackets_checked cap i count br iend aborted r = Some (r', b) ∧
     r' !! i = Some e' ∧ r' !! ringNext r i = Some nx' ∧
     pkt_first e' = (pkt_first e + count) mod cap ∧
     pkt_cnt e' = pkt_cnt e - count ∧
     pkt_cnt nx' = pkt_cnt nx + count ∧
     pkt_first nx' = pkt_first nx).
Proof.
  intros Hfit Hr He Hnx Hpos.
  pose proof (reachable_inv cap r Hfit Hr) as Hinv.
  destruct (buffer_fits_twice cap Hfit) as [Hc Hc2].
  pose proof (inv_range cap r Hinv i e He) as [Hfe Hce].
  assert (Hasserts : passPackets_asserts cap i count r = true
                     ↔ count ≤ pkt_cnt e ∧ pkt_first e + count ≤ cap).
  { unfold passPackets_asserts. rewrite He. split.
    - intros H. apply andb_prop in H as [H1 H2].
      apply Z.leb_le in H1, H2. split; [done|].
      pose proof (ring_inv_cnt_le cap r i e Hinv He).
      rewrite size_add_small in H2 by lia. done.
    - intros [H1 H2]. rewrite size_add_small by lia.
      apply andb_true_intro. split; by apply Z.leb_le. }
  split.
  - unfold passPackets_checked.
    destruct (passPackets_asserts cap i count r).
    + split; [intros _; by apply Hasserts|by eexists].
    + split; [by intros [? ?]|]. intros H. by apply Hasserts in H.
  - intros H1 H2.
    destruct (passPackets_hand_off cap r i e nx count br iend aborted
                Hfit Hr He Hnx ltac:(lia)) as (e' & nx' & H).
    unfold passPackets_checked.
    rewrite (proj2 Hasserts (conj H1 H2)).
    destruct (passPackets cap i count br iend aborted r) as [r' b].
    by exists r', b, e', nx'.
Qed.

Lemma buffer_fits_8 : buffer_fits 8.
Proof. unfold buffer_fits, PKT_SIZE, SIZE_MOD. lia. Qed.

Lemma reachable_ring_2_4 : reachable 8 ring_2_4.
Proof. apply reach_init. change (8 / 2) with 4. lia. Qed.

Lemma reachable_ring_wrapped : reachable 8 ring_wrapped.
Proof.
  unfold ring_wrapped.
  apply reach_pass; [|lia|reflexivity].
  apply reach_pass; [|lia|reflexivity].
  apply reach_pass; [|lia|reflexivity].
  exact reachable_ring_2_4.
Qed.

Lemma passPackets_window_witness :
  ∃ r' b e' nx',
    passPackets_checked 8 0 3 1000 false false ring_2_4 = Some (r', b) ∧
    r' !! 0%nat = Some e' ∧ r' !! ringNext ring_2_4 0 = Some nx' ∧
    pkt_first e' = (4 + 3) mod 8 ∧ pkt_cnt e' = 4 - 3 ∧
    pkt_cnt nx' = 4 + 3 ∧ pkt_first nx' = 0.
Proof.
  apply (proj2 (passPackets_window 8 ring_2_4 0
                  (mkExec INPUT_PLUGIN 4 4 false 0 0 false 0)
                  (mkExec OUTPUT_PLUGIN 0 4 false 0 0 false 0) 3 1000 false
                  false buffer_fits_8 reachable_ring_2_4 eq_refl eq_refl
                  ltac:(lia))).
  - simpl. lia.
  - simpl. lia.
Defined.

(** C2 fails as it is stated: in a reachable ring, the output executor
    has the window [(2, 8)] of a buffer of 8 packets; a call to
    [passPackets] with the count 7, which is less than the size of its
    window, stops at the second assertion, because the 7 packets go around
    the end of the buffer, and sets no window. *)
Lemma passPackets_count_in_window_fails :
  reachable 8 ring_wrapped ∧
  ring_wrapped !! 1%nat = Some (mkExec OUTPUT_PLUGIN 2 8 false 0 0 false 2) ∧
  7 ≤ 8 ∧
  passPackets_checked 8 1 7 0 false false ring_wrapped = None.
Proof.
  split; [exact reachable_ring_wrapped|].
  split; [reflexivity|]. split; [lia|reflexivity].
Qed.

(** ** Waiting for work *)

(** The ring which [waitWork] holds on return is the initial one or one
    which an event of the wait brought. *)
Lemma waitWork_loop_ring (P : Ring → Prop) i t n r evs t' n' r' :
  P r → Forall (λ ev, P (ring_then ev)) evs →
  waitWork_loop i t n r evs = Some (t', n', r') → P r'.
Proof.
  revert t n r. induction evs as [|ev evs IH]; intros t n r Hr Hevs; simpl.
  - destruct (must_wait i t r) as [[|]|]; try done. by intros [= <- <- <-].
  - destruct (must_wait i t r) as [[|]|]; try done.
    + apply IH; by inversion Hevs.
    + by intros [= <- <- <-].
Qed.

(** The count which [waitWork] returns is a [size_t]. *)
Lemma waitWork_cnt_lt cap i r evs w r' :
  waitWork cap i r evs = Some (w, r') → w_cnt w < SIZE_MOD.
Proof.
  unfold waitWork.
  destruct (waitWork_loop i false 0 r evs) as [[[t n] r1]|]; [|done].
  destruct (r1 !! i) as [e|]; [|done].
  destruct (r1 !! ringNext r1 i) as [nx|]; [|done].
  intros [= <- <-]. simpl. destruct t; [unfold SIZE_MOD; lia|].
  pose proof (Z.mod_pos_bound (cap - pkt_first e) SIZE_MOD
                ltac:(unfold SIZE_MOD; lia)).
  unfold size_sub. lia.
Qed.

(** C3, as the code has it.  When the aborting flag of the successor in
    the ring is set, [waitWork] returns at once, without waiting on the
    condition and without timeout; it reports [aborted = true] for every
    executor except the output executor, for which it reports
    [aborted = false]. *)
Theorem waitWork_successor_aborting cap i r e nx evs :
  r !! i = Some e → r !! ringNext r i = Some nx →
  tsp_aborting nx = true →
  ∃ w, waitWork cap i r evs = Some (w, r) ∧
       w_waits w = 0%nat ∧ w_timeout w = false ∧
       w_aborted w = negb (is_output (ptype e)).
Proof.
  intros He Hnx Hab. unfold waitWork.
  assert (Hloop : waitWork_loop i false 0 r evs = Some (false, 0%nat, r)).
  { destruct evs; simpl; unfold must_wait; rewrite He, Hnx, Hab;
      by rewrite andb_false_r. }
  rewrite Hloop, He, Hnx. eexists. split; [done|]. simpl.
  rewrite Hab, andb_true_r. done.
Qed.

Lemma reachable_ring_3_aborted : reachable 8 ring_3_aborted.
Proof.
  unfold ring_3_aborted.
  apply reach_pass; [|lia|reflexivity].
  apply reach_pass; [|lia|reflexivity].
  apply reach_init. change (8 / 2) with 4. lia.
Qed.

Lemma waitWork_successor_aborting_witness :
  ∃ w, waitWork 8 0 ring_3_aborted [] = Some (w, ring_3_aborted) ∧
       w_waits w = 0%nat ∧ w_timeout w = false ∧ w_aborted w = true.
Proof.
  apply (waitWork_successor_aborting 8 0 ring_3_aborted
           (mkExec INPUT_PLUGIN 4 4 false 0 0 true 1)
           (mkExec PROCESSOR_PLUGIN 0 4 false 0 0 true 0) []);
    reflexivity.
Defined.

(** C3 fails for the output executor: its successor in the ring, the
    input executor, is aborting, [waitWork] returns at once but reports
    [aborted = false]. *)
Lemma waitWork_output_not_aborted :
  reachable 8 ring_3_aborted ∧
  tsp_aborting <$> ring_3_aborted !! ringNext ring_3_aborted 2 = Some true ∧
  (λ x, (w_waits x.1, w_aborted x.1)) <$> waitWork 8 2 ring_3_aborted []
  = Some (0%nat, false).
Proof.
  split; [exact reachable_ring_3_aborted|]. split; reflexivity.
Qed.

(** The window which [waitWork] returns, in a reachable ring. *)
Lemma waitWork_window cap i r evs w r' :
  buffer_fits cap → reachable cap r →
  Forall (λ ev, reachable cap (ring_then ev)) evs →
  waitWork cap i r evs = Some (w, r') →
  reachable cap r' ∧
  ∃ e, r' !! i = Some e ∧ w_first w = pkt_first e ∧
       w_cnt w = (if w_timeout w then 0
                  else Z.min (pkt_cnt e) (cap - pkt_first e)) ∧
       0 ≤ w_cnt w ∧ w_first w + w_cnt w ≤ cap ∧
       (w_input_end w = true → w_cnt w = pkt_cnt e).
Proof.
  intros Hfit Hr Hevs. unfold waitWork.
  destruct (waitWork_loop i false 0 r evs) as [[[t n] r1]|] eqn:Hloop; [|done].
  pose proof (waitWork_loop_ring _ _ _ _ _ _ _ _ _ Hr Hevs Hloop) as Hr1.
  pose proof (reachable_inv cap r1 Hfit Hr1) as Hinv.
  destruct (r1 !! i) as [e|] eqn:He; [|done].
  destruct (r1 !! ringNext r1 i) as [nx|]; [|done].
  intros [= <- <-]. split; [exact Hr1|]. exists e. simpl.
  destruct (buffer_fits_twice cap Hfit) as [Hc Hc2].
  pose proof (inv_range cap r1 Hinv i e He) as [Hf Hcnt].
  rewrite size_sub_small by lia.
  split; [exact He|]. split; [reflexivity|]. split; [reflexivity|].
  destruct t; (split; [lia|]); (split; [lia|]);
    rewrite andb_true_iff, Z.eqb_eq; intros [_ H]; exact H.
Qed.

(** C9. [waitWork] never returns a range of slots which wraps around the
    end of the buffer: unless it times out, the count it returns is the
    smaller of the size of the window and of the number of slots from the
    start of the window to the end of the buffer (0 after a timeout), and it
    reports the end of input only when this count covers the whole
    window. *)
Theorem waitWork_no_wrap cap i r evs w r' :
  buffer_fits cap → reachable cap r →
  Forall (λ ev, reachable cap (ring_then ev)) evs →
  waitWork cap i r evs = Some (w, r') →
  ∃ e, r' !! i = Some e ∧ w_first w = pkt_first e ∧
       w_cnt w = (if w_timeout w then 0
                  else Z.min (pkt_cnt e) (cap - pkt_first e)) ∧
       0 ≤ w_cnt w ∧ w_first w + w_cnt w ≤ cap ∧
       (w_input_end w = true → w_cnt w = pkt_cnt e).
Proof.
  intros Hfit Hr Hevs Hw.
  by destruct (waitWork_window cap i r evs w r' Hfit Hr Hevs Hw) as [_ Hwin].
Qed.

Lemma waitWork_no_wrap_witness :
  ∃ e, ring_2_4 !! 0%nat = Some e ∧ 4 = pkt_first e ∧
       4 = Z.min (pkt_cnt e) (8 - pkt_first e) ∧
       0 ≤ 4 ∧ 4 + 4 ≤ 8 ∧ (false = true → 4 = pkt_cnt e).
Proof.
  apply (waitWork_no_wrap 8 0 ring_2_4 []
           (mkWork 4 4 0 false false false 0) ring_2_4).
  - exact buffer_fits_8.
  - exact reachable_ring_2_4.
  - constructor.
  - reflexivity.
Defined.

(** ** Restart *)

Section RestartProperties.
Context {P : Type} `{Plugin P}.

Implicit Types s : RestartExec P.

Lemma rd_add_messages_add ms ms' rd :
  rd_add_messages ms' (rd_add_messages ms rd) = rd_add_messages (ms ++ ms') rd.
Proof. unfold rd_add_messages. simpl. by rewrite app_assoc. Qed.

Lemma rd_extends_here id rd s : rd_heap s !! id = Some rd → rd_extends id rd s.
Proof.
  intros Hrd. exists []. rewrite Hrd. f_equal. destruct rd.
  unfold rd_add_messages. simpl. by rewrite app_nil_r.
Qed.

(** Adding messages to a report keeps what is known of the other ones. *)
Lemma rd_extends_alter id rd id' ms (heap : list RestartData) :
  (∃ ms0, heap !! id = Some (rd_add_messages ms0 rd)) →
  ∃ ms1, alter (rd_add_messages ms) id' heap !! id
         = Some (rd_add_messages ms1 rd).
Proof.
  intros [ms0 H0]. rewrite list_lookup_alter. case_decide.
  - subst id'. rewrite H0. simpl. rewrite rd_add_messages_add. by eexists.
  - by exists ms0.
Qed.

(** One call to a method of the plugin: its result, the plugin, the trace
    of the calls, and the reports. *)
Lemma call_plugin_spec c (f : P → bool * P * list Message) s :
  let r := call_plugin c f s in
  r.1 = (f (plugin s)).1.1 ∧ plugin r.2 = (f (plugin s)).1.2 ∧
  calls r.2 = calls s ++ [c] ∧ subreport r.2 = subreport s ∧
  restart_flag r.2 = restart_flag s ∧ restart_data r.2 = restart_data s ∧
  (∀ id rd, rd_extends id rd s → rd_extends id rd r.2) ∧
  rd_heap r.2 = rd_heap s.
Proof.
  unfold call_plugin, plugin_report.
  destruct (f (plugin s)) as [[ok p'] ms]. simpl.
  by repeat (split; [done|]).
Qed.

(** The start of the plugin with given arguments. *)
Lemma try_start_spec a s :
  let r := try_start a s in
  subreport r.2 = subreport s ∧
  restart_flag r.2 = restart_flag s ∧ restart_data r.2 = restart_data s ∧
  (∀ id rd, rd_extends id rd s → rd_extends id rd r.2) ∧
  (∃ t, calls r.2 = calls s ++ CallAnalyze a :: t ∧
        (r.1 = true → t = [CallGetOptions; CallStart])) ∧
  (plugin_keeps_args P → p_getCommandArgs (plugin r.2) = a).
Proof.
  unfold try_start.
  pose proof (call_plugin_spec (CallAnalyze a) (p_analyze a) s) as H1.
  destruct (call_plugin (CallAnalyze a) (p_analyze a) s) as [ok1 s1].
  simpl in H1. destruct H1 as (_ & Hp1 & Hc1 & Hs1 & Hf1 & Hd1 & He1 & _).
  assert (Ha1 : plugin_keeps_args P → p_getCommandArgs (plugin s1) = a).
  { intros Hlaw. rewrite Hp1. apply (@analyze_args P _ Hlaw). }
  destruct ok1.
  - pose proof (call_plugin_spec CallGetOptions p_getOptions s1) as H2.
    destruct (call_plugin CallGetOptions p_getOptions s1) as [ok2 s2].
    simpl in H2. destruct H2 as (_ & Hp2 & Hc2 & Hs2 & Hf2 & Hd2 & He2 & _).
    assert (Ha2 : plugin_keeps_args P → p_getCommandArgs (plugin s2) = a).
    { intros Hlaw. rewrite Hp2, (@getOptions_args P _ Hlaw). by apply Ha1. }
    destruct ok2.
    + pose proof (call_plugin_spec CallStart p_start s2) as H3.
      destruct (call_plugin CallStart p_start s2) as [ok3 s3].
      simpl in H3. destruct H3 as (_ & Hp3 & Hc3 & Hs3 & Hf3 & Hd3 & He3 & _).
      simpl. rewrite Hs3, Hs2, Hs1, Hf3, Hf2, Hf1, Hd3, Hd2, Hd1.
      refine (conj eq_refl (conj eq_refl (conj eq_refl (conj _ (conj _ _))))).
      * intros id rd Hr. apply He3, He2, He1, Hr.
      * exists [CallGetOptions; CallStart]. split; [|done].
        rewrite Hc3, Hc2, Hc1, <- !app_assoc. done.
      * intros Hlaw. rewrite Hp3, (@start_args P _ Hlaw). by apply Ha2.
    + simpl. rewrite Hs2, Hs1, Hf2, Hf1, Hd2, Hd1.
      refine (conj eq_refl (conj eq_refl (conj eq_refl (conj _ (conj _ Ha2))))).
      * intros id rd Hr. apply He2, He1, Hr.
      * exists [CallGetOptions]. split; [|done].
        rewrite Hc2, Hc1, <- !app_assoc. done.
  - simpl. rewrite Hs1, Hf1, Hd1.
    refine (conj eq_refl (conj eq_refl (conj eq_refl (conj He1 (conj _ Ha1))))).
    exists []. split; [exact Hc1|done].
Qed.

(** The state in which the new arguments are tried. *)
Lemma restart_prologue_spec id s rd :
  rd_heap s !! id = Some rd →
  let s1 := restart_prologue id s in
  subreport s1 = Some id ∧
  restart_flag s1 = restart_flag s ∧ restart_data s1 = restart_data s ∧
  calls s1 = calls s ++ [CallStop; CallGetCommandArgs; CallSetFlags] ∧
  rd_extends id rd s1 ∧
  (subreport s = None →
   rd_heap s1 !! id = Some (rd_add_messages [MSG_RESTARTING] rd)) ∧
  (plugin_keeps_args P →
   p_getCommandArgs (plugin (restart_stopped id s))
   = p_getCommandArgs (plugin s)).
Proof.
  intros Hrd. unfold restart_prologue, restart_stopped.
  set (s0 := rd_report_to id [MSG_RESTARTING] (exec_report MSG_RESTARTING_TSP s)).
  assert (H0 : rd_heap s0 !! id = Some (rd_add_messages [MSG_RESTARTING] rd)).
  { unfold s0. simpl. by rewrite list_lookup_alter_eq, Hrd. }
  pose proof (call_plugin_spec CallStop p_stop s0) as Hc.
  destruct (call_plugin CallStop p_stop s0) as [ok s1].
  simpl in Hc. destruct Hc as (_ & Hp & Hcalls & Hs & Hf & Hd & He & Hh).
  simpl. rewrite Hf, Hd, Hcalls. simpl.
  repeat (split; [done|]). split; [by rewrite <- !app_assoc|].
  split; [|split].
  - destruct (He id rd) as [ms Hms]; [by exists [MSG_RESTARTING]|].
    by exists ms.
  - intros Hsub. rewrite Hh; done.
  - intros Hlaw. rewrite Hp. apply (@stop_args P _ Hlaw).
Qed.

(** [processPendingRestart] with a pending restart which brings new
    arguments. *)
Lemma processPendingRestart_new_args s id rd :
  restart_flag s = true → restart_data s = Some id →
  rd_heap s !! id = Some rd → same_args rd = false →
  let a := try_start (rd_args rd) (restart_prologue id s) in
  let res := if a.1 then (true, a.2)
             else try_start (p_getCommandArgs (plugin (restart_stopped id s)))
                            (rd_report_to id [MSG_FALLBACK] a.2) in
  processPendingRestart s
  = (res.1,
     exec_report MSG_RESTARTED
       (finish_restart id (redirectReport (subreport s) res.2).2)).
Proof.
  intros Hf Hd Hrd Hsame.
  unfold processPendingRestart, restart_prologue, restart_stopped.
  rewrite Hf, Hd, Hrd, Hsame. cbv zeta.
  set (s0 := call_plugin CallStop p_stop _).
  assert (Hs0 : subreport s0.2 = subreport s).
  { unfold s0.
    by destruct (call_plugin_spec CallStop p_stop
      (rd_report_to id [MSG_RESTARTING] (exec_report MSG_RESTARTING_TSP s)))
      as (_ & _ & _ & -> & _). }
  destruct s0 as [ok0 s0]. simpl in Hs0.
  unfold redirectReport, call_getCommandArgs.
  cbv beta iota zeta delta [fst snd]. cbn [plugin]. rewrite Hs0.
  match goal with |- context [try_start (rd_args rd) ?x] =>
    destruct (try_start (rd_args rd) x) as [ok s2] end.
  destruct ok; [reflexivity|].
  match goal with |- context [try_start ?a ?x] =>
    destruct (try_start a x) as [ok3 s3] end.
  reflexivity.
Qed.

(** [processPendingRestart] with a pending restart with the same
    arguments. *)
Lemma processPendingRestart_same_args s id rd :
  restart_flag s = true → restart_data s = Some id →
  rd_heap s !! id = Some rd → same_args rd = true →
  let res := call_plugin CallStart p_start
               (redirectReport (Some id) (restart_stopped id s)).2 in
  processPendingRestart s
  = (res.1,
     exec_report MSG_RESTARTED
       (finish_restart id (redirectReport (subreport s) res.2).2)).
Proof.
  intros Hf Hd Hrd Hsame.
  unfold processPendingRestart, restart_stopped.
  rewrite Hf, Hd, Hrd, Hsame. cbv zeta.
  set (s0 := call_plugin CallStop p_stop _).
  assert (Hs0 : subreport s0.2 = subreport s).
  { unfold s0.
    by destruct (call_plugin_spec CallStop p_stop
      (rd_report_to id [MSG_RESTARTING] (exec_report MSG_RESTARTING_TSP s)))
      as (_ & _ & _ & -> & _). }
  destruct s0 as [ok0 s0]. simpl in Hs0.
  unfold redirectReport.
  cbv beta iota zeta delta [fst snd]. rewrite Hs0.
  match goal with |- context [call_plugin CallStart p_start ?x] =>
    destruct (call_plugin CallStart p_start x) as [ok3 s3] end.
  reflexivity.
Qed.

(** Every call to [processPendingRestart] with a pending restart sets the
    completion flag of the request and signals its condition once. *)
Lemma processPendingRestart_completes s id rd :
  restart_flag s = true → restart_data s = Some id →
  rd_heap s !! id = Some rd →
  let s' := (processPendingRestart s).2 in
  (∃ rd', rd_heap s' !! id = Some rd' ∧ completed rd' = true ∧
          rd_signals rd' = S (rd_signals rd)) ∧
  restart_flag s' = false ∧ restart_data s' = None.
Proof.
  intros Hf Hd Hrd.
  assert (Hfin : ∀ s2 sub, rd_extends id rd s2 →
    let s' := exec_report MSG_RESTARTED
                (finish_restart id (redirectReport sub s2).2) in
    (∃ rd', rd_heap s' !! id = Some rd' ∧ completed rd' = true ∧
            rd_signals rd' = S (rd_signals rd)) ∧
    restart_flag s' = false ∧ restart_data s' = None).
  { intros s2 sub [ms Hms]. simpl. split; [|done].
    rewrite list_lookup_alter_eq, Hms. simpl. by eexists. }
  destruct (restart_prologue_spec id s rd Hrd) as (_ & _ & _ & _ & Hext & _).
  destruct (same_args rd) eqn:Hsame.
  - rewrite (processPendingRestart_same_args s id rd Hf Hd Hrd Hsame).
    cbn [snd]. apply Hfin.
    match goal with |- context [call_plugin CallStart p_start ?x] =>
      destruct (call_plugin_spec CallStart p_start x)
        as (_ & _ & _ & _ & _ & _ & He3 & _) end.
    apply He3.
    destruct (call_plugin_spec CallStop p_stop
      (rd_report_to id [MSG_RESTARTING] (exec_report MSG_RESTARTING_TSP s)))
      as (_ & _ & _ & _ & _ & _ & He & _).
    destruct (He id rd) as [ms Hms].
    { exists [MSG_RESTARTING]. simpl. by rewrite list_lookup_alter_eq, Hrd. }
    exists ms. exact Hms.
  - rewrite (processPendingRestart_new_args s id rd Hf Hd Hrd Hsame).
    cbn [snd]. apply Hfin.
    destruct (try_start_spec (rd_args rd) (restart_prologue id s))
      as (_ & _ & _ & Hext2 & _).
    destruct (try_start (rd_args rd) (restart_prologue id s)) as [ok s2].
    simpl in *. specialize (Hext2 id rd Hext).
    destruct ok; [exact Hext2|].
    match goal with |- context [try_start ?a ?x] =>
      destruct (try_start_spec a x) as (_ & _ & _ & Hext3 & _) end.
    apply Hext3. unfold rd_report_to. simpl. by apply rd_extends_alter.
Qed.

(** The calls to the plugin leave the reports of the requests as they are:
    the messages of the plugin go to the report of the executor. *)
Lemma try_start_heap a s :
  rd_heap (try_start a s).2 = rd_heap s ∧
  subreport (try_start a s).2 = subreport s.
Proof.
  unfold try_start.
  pose proof (call_plugin_spec (CallAnalyze a) (p_analyze a) s) as H1.
  destruct (call_plugin (CallAnalyze a) (p_analyze a) s) as [ok1 s1].
  simpl in H1. destruct H1 as (_ & _ & _ & Hs1 & _ & _ & _ & Hh1).
  destruct ok1; [|done].
  pose proof (call_plugin_spec CallGetOptions p_getOptions s1) as H2.
  destruct (call_plugin CallGetOptions p_getOptions s1) as [ok2 s2].
  simpl in H2. destruct H2 as (_ & _ & _ & Hs2 & _ & _ & _ & Hh2).
  destruct ok2; [|simpl; split; congruence].
  pose proof (call_plugin_spec CallStart p_start s2) as H3.
  destruct (call_plugin CallStart p_start s2) as [ok3 s3].
  simpl in H3. destruct H3 as (_ & _ & _ & Hs3 & _ & _ & _ & Hh3).
  simpl. split; congruence.
Qed.

Lemma restart_prologue_heap id s rd :
  rd_heap s !! id = Some rd →
  rd_heap (restart_prologue id s) !! id
  = Some (rd_add_messages [MSG_RESTARTING] rd).
Proof.
  intros Hrd. unfold restart_prologue, restart_stopped.
  set (s0 := rd_report_to id [MSG_RESTARTING] (exec_report MSG_RESTARTING_TSP s)).
  assert (H0 : rd_heap s0 !! id = Some (rd_add_messages [MSG_RESTARTING] rd)).
  { unfold s0. simpl. by rewrite list_lookup_alter_eq, Hrd. }
  pose proof (call_plugin_spec CallStop p_stop s0) as Hc.
  destruct (call_plugin CallStop p_stop s0) as [ok s1].
  simpl in Hc. destruct Hc as (_ & _ & _ & _ & _ & _ & _ & Hh).
  simpl. by rewrite Hh.
Qed.

(** C8. An executor whose plugin runs with the arguments [A] processes a
    pending restart with new arguments [B], and the start with [B] fails
    ([analyze], [getOptions] or [start] returns false).  Then
    [processPendingRestart] analyzes the saved arguments [A] again and
    restarts the plugin with them: its result is the result of this second
    start and the command line of the plugin is [A] again.  The report of
    the request gets exactly two messages, whatever the plugin logs and
    whether the second start succeeds or not: the verbose message of the
    restart and, after the failure, one warning; no error is recorded in
    it.  The redirection of the report of the plugin is what it was.  In
    every case, with any pending restart, the completion flag of the
    request is set and its condition is signalled exactly once. *)
Theorem restart_fallback s id rd :
  plugin_keeps_args P →
  restart_flag s = true → restart_data s = Some id →
  rd_heap s !! id = Some rd →
  same_args rd = false →
  (try_start (rd_args rd) (restart_prologue id s)).1 = false →
  let A := p_getCommandArgs (plugin s) in
  let s' := (processPendingRestart s).2 in
  let fallback :=
    try_start A (rd_report_to id [MSG_FALLBACK]
                   (try_start (rd_args rd) (restart_prologue id s)).2) in
  (processPendingRestart s).1 = fallback.1 ∧
  plugin s' = plugin fallback.2 ∧
  p_getCommandArgs (plugin s') = A ∧
  (∃ tB tA,
     calls s' = calls s ++ [CallStop; CallGetCommandArgs; CallSetFlags;
                            CallAnalyze (rd_args rd)]
                        ++ tB ++ [CallAnalyze A] ++ tA ∧
     ((processPendingRestart s).1 = true → tA = [CallGetOptions; CallStart])) ∧
  (∃ rd',
     rd_heap s' !! id = Some rd' ∧
     rd_report rd' = rd_report rd ++ [MSG_RESTARTING; MSG_FALLBACK] ∧
     MSG_RESTARTING.1 = SevVerbose ∧ MSG_FALLBACK.1 = SevWarning ∧
     completed rd' = true ∧ rd_signals rd' = S (rd_signals rd)) ∧
  restart_flag s' = false ∧ restart_data s' = None ∧
  subreport s' = subreport s ∧
  (∀ (s0 : RestartExec P) id0 rd0,
     restart_flag s0 = true → restart_data s0 = Some id0 →
     rd_heap s0 !! id0 = Some rd0 →
     ∃ rd', rd_heap (processPendingRestart s0).2 !! id0 = Some rd' ∧
            completed rd' = true ∧ rd_signals rd' = S (rd_signals rd0)).
Proof.
  intros Hlaw Hf Hd Hrd Hsame Hfail A s' fallback.
  destruct (restart_prologue_spec id s rd Hrd)
    as (Hs1 & Hf1 & Hd1 & Hc1 & Hext1 & _ & Ha1).
  specialize (Ha1 Hlaw).
  pose proof (restart_prologue_heap id s rd Hrd) as Hh1.
  pose proof (processPendingRestart_new_args s id rd Hf Hd Hrd Hsame) as Heq.
  cbv zeta in Heq. rewrite Hfail, Ha1 in Heq. fold A in Heq.
  destruct (try_start_spec (rd_args rd) (restart_prologue id s))
    as (Hs2 & _ & _ & _ & (tB & Hc2 & _) & _).
  destruct (try_start_heap (rd_args rd) (restart_prologue id s)) as [HhB _].
  set (sB := (try_start (rd_args rd) (restart_prologue id s)).2) in *.
  set (sF := rd_report_to id [MSG_FALLBACK] sB) in *.
  assert (HF : rd_heap sF !! id
               = Some (rd_add_messages [MSG_FALLBACK]
                         (rd_add_messages [MSG_RESTARTING] rd))).
  { unfold sF. simpl. by rewrite list_lookup_alter_eq, HhB, Hh1. }
  destruct (try_start_spec A sF)
    as (Hs3 & _ & _ & _ & (tA & Hc3 & Hok3) & Ha3).
  destruct (try_start_heap A sF) as [HhA _].
  subst s'. rewrite Heq. cbn [fst snd]. fold fallback.
  split; [reflexivity|]. split; [reflexivity|].
  split; [exact (Ha3 Hlaw)|]. split; [|split; [|split; [|split; [|split]]]].
  - exists tB, tA. split; [|exact Hok3].
    simpl. unfold fallback. rewrite Hc3.
    change (calls sF) with (calls sB).
    rewrite Hc2, Hc1, <- !app_assoc. reflexivity.
  - eexists. simpl. unfold fallback.
    rewrite list_lookup_alter_eq, HhA, HF. simpl.
    split; [reflexivity|]. unfold rd_complete, rd_add_messages. simpl.
    rewrite <- !app_assoc. done.
  - done.
  - done.
  - done.
  - intros s0 id0 rd0 H1 H2 H3.
    by destruct (processPendingRestart_completes s0 id0 rd0 H1 H2 H3).
Qed.
End RestartProperties.

(** ** The input executor *)

Section InputProperties.
Context {I A : Type} `{InputPlugin I} `{Analyzer A}.

Implicit Types s : InputExecutor I A.

(** States which differ by fields other than the sticky flags and the
    options. *)
Ltac flags := unfold keeps_flags; simpl; repeat split; auto.

Lemma keeps_flags_refl s : keeps_flags s s.
Proof. flags. Qed.

Lemma keeps_flags_trans s1 s2 s3 :
  keeps_flags s1 s2 → keeps_flags s2 s3 → keeps_flags s1 s3.
Proof.
  intros (Ha & Hb & Hc) (Ha' & Hb' & Hc'). unfold keeps_flags.
  rewrite Hc', Hc. auto.
Qed.

Lemma null_loop_flags todo index n s :
  keeps_flags s (null_loop todo index n s).
Proof.
  revert n s. induction todo as [|todo IH]; intros n s; simpl.
  - apply keeps_flags_refl.
  - eapply keeps_flags_trans; [|apply IH]. flags.
Qed.

Lemma receiveNullPackets_flags index m s :
  keeps_flags s (receiveNullPackets index m s).2.
Proof.
  unfold receiveNullPackets. simpl.
  eapply keeps_flags_trans;
    [apply (null_loop_flags (Z.to_nat m) index 0 s)|]. flags.
Qed.

Lemma sync_lost_dump_flags index n count s :
  keeps_flags s (sync_lost_dump index n count s).
Proof.
  unfold sync_lost_dump.
  destruct (1 <=? max_severity s); [|apply keeps_flags_refl].
  destruct (0 <? n); flags.
Qed.

Lemma validate_loop_flags fuel index n count s :
  keeps_flags s (validate_loop fuel index n count s).2.
Proof.
  revert n count s. induction fuel as [|fuel IH]; intros n count s; simpl.
  - apply keeps_flags_refl.
  - destruct (n <? count); [|apply keeps_flags_refl].
    destruct (hasValidSync _).
    + eapply keeps_flags_trans; [|apply IH]. flags.
    + set (s1 := input_log _ s).
      eapply keeps_flags_trans; [|apply IH].
      apply (keeps_flags_trans s s1); [flags|].
      apply (keeps_flags_trans s1 (sync_lost_dump index n count s1));
        [apply sync_lost_dump_flags|flags].
Qed.

Lemma receiveAndValidate_flags index m s :
  keeps_flags s (receiveAndValidate index m s).2.
Proof.
  unfold receiveAndValidate.
  destruct (in_sync_lost s) eqn:E; [apply keeps_flags_refl|].
  cbv zeta. destruct (receive (input s) m) as [pkts plug].
  eapply keeps_flags_trans; [|apply validate_loop_flags].
  unfold keeps_flags. simpl. rewrite E. done.
Qed.

Lemma start_loop_flags fuel l s :
  keeps_flags s (start_loop fuel l s).2.
Proof.
  revert l s. induction fuel as [|fuel IH]; intros l s; simpl.
  - apply keeps_flags_refl.
  - destruct (_ && _); [|apply keeps_flags_refl].
    eapply keeps_flags_trans; [|apply IH]. flags.
Qed.

Lemma stuff_nulls_flags l s : keeps_flags s (stuff_nulls l s).2.
Proof.
  unfold stuff_nulls.
  pose proof (receiveNullPackets_flags (index l)
    (Z.min (instuff_nullpkt_remain s) (pkt_remain l)) s) as Hn.
  destruct (receiveNullPackets _ _ s) as [count s1]. simpl in *.
  apply (keeps_flags_trans s s1); [exact Hn|flags].
Qed.

Lemma stuff_input_flags l s : keeps_flags s (stuff_input l s).2.
Proof.
  unfold stuff_input.
  set (s0 := if _ && _ then set_inpkt_remain _ s else s).
  assert (H0' : keeps_flags s s0).
  { unfold s0. destruct (_ && _); flags. }
  pose proof (receiveAndValidate_flags (index l)
    (Z.min (pkt_remain l) (instuff_inpkt_remain s0)) s0) as Hv.
  destruct (receiveAndValidate _ _ s0) as [count s1]. cbn [snd] in *.
  apply (keeps_flags_trans s s0); [exact H0'|].
  apply (keeps_flags_trans s0 s1); [exact Hv|].
  match goal with |- keeps_flags _ (if ?c then _ else _) => destruct c end;
    flags.
Qed.

Lemma stuff_loop_S fuel l s :
  stuff_loop (S fuel) l s
  = if 0 <? pkt_remain l then
      let '(l, s) := stuff_nulls l s in
      if pkt_remain l =? 0 then (l, s)
      else
        let '(go, l, s) := stuff_input l s in
        if go then stuff_loop fuel l s else (l, s)
    else (l, s).
Proof. reflexivity. Qed.

Lemma stuff_loop_flags fuel l s :
  keeps_flags s (stuff_loop fuel l s).2.
Proof.
  revert l s. induction fuel as [|fuel IH]; intros l s.
  - apply keeps_flags_refl.
  - rewrite stuff_loop_S.
    destruct (0 <? pkt_remain l); [|apply keeps_flags_refl].
    pose proof (stuff_nulls_flags l s) as Hn.
    destruct (stuff_nulls l s) as [l1 s1]. cbn [snd] in Hn.
    destruct (pkt_remain l1 =? 0); [exact Hn|].
    pose proof (stuff_input_flags l1 s1) as Hi.
    destruct (stuff_input l1 s1) as [[go l2] s2]. cbn [snd] in Hi.
    destruct go.
    + apply (keeps_flags_trans s s1); [exact Hn|].
      apply (keeps_flags_trans s1 s2); [exact Hi|apply IH].
    + by apply (keeps_flags_trans s s1).
Qed.

Lemma receiveAndStuff_flags i0 m s :
  keeps_flags s (receiveAndStuff i0 m s).2.
Proof.
  unfold receiveAndStuff, receiveAndStuff_locals.
  pose proof (start_loop_flags (Z.to_nat m) (mkStuff i0 m 0 0) s) as Hs.
  destruct (start_loop _ _ s) as [l s1]. simpl in Hs.
  destruct (instuff_inpkt (options s1) =? 0).
  - pose proof (receiveAndValidate_flags (index l) (pkt_remain l) s1) as Hv.
    destruct (receiveAndValidate _ _ s1) as [n s2]. simpl in *.
    by eapply keeps_flags_trans.
  - pose proof (stuff_loop_flags (S (Z.to_nat m)) l s1) as Hv.
    destruct (stuff_loop _ l s1) as [l2 s2]. simpl in *.
    by eapply keeps_flags_trans.
Qed.

Lemma getBitrate_flags s : keeps_flags s (getBitrate s).2.
Proof.
  unfold getBitrate.
  destruct (negb _); [destruct (_ =? 0); apply keeps_flags_refl|].
  destruct (negb (use_dts_analyzer s) && _); [apply keeps_flags_refl|].
  unfold keeps_flags. simpl. split; [done|]. split; [|done].
  intros ->. done.
Qed.

Lemma adjust_bitrate_flags t l s r l' s' r' :
  adjust_bitrate t l s r = Some (l', s', r') → keeps_flags s s'.
Proof.
  unfold adjust_bitrate.
  destruct (opt_bitrate (options s) =? 0);
    [|intros [= <- <- <-]; apply keeps_flags_refl].
  destruct (_ || _); [|intros [= <- <- <-]; apply keeps_flags_refl].
  destruct (if own_tsp_bitrate r =? 0 then _ else _); [|done].
  pose proof (getBitrate_flags s) as Hg.
  destruct (getBitrate s) as [b s1]. simpl in Hg.
  destruct (0 <? b); intros [= <- <- <-]; [|done].
  eapply keeps_flags_trans; [exact Hg|]. flags.
Qed.

Lemma adjust_bitrate_completed t l s r l' s' r' :
  adjust_bitrate t l s r = Some (l', s', r') →
  plugin_completed l' = plugin_completed l.
Proof.
  unfold adjust_bitrate. cbv zeta.
  destruct (opt_bitrate (options s) =? 0); [|by intros [= <- <- <-]].
  destruct ((own_tsp_bitrate r =? 0)
            && (bitrate_due_packet l <=? plugin_packets s)); cbn [orb].
  - destruct (if own_tsp_bitrate r =? 0 then _ else _); [|done].
    destruct (getBitrate s) as [b s1].
    by destruct (0 <? b); intros [= <- <- <-].
  - destruct (_ <? _); [|by intros [= <- <- <-]].
    destruct (if own_tsp_bitrate r =? 0 then _ else _); [|done].
    destruct (getBitrate s) as [b s1].
    by destruct (0 <? b); intros [= <- <- <-].
Qed.

Lemma read_plugin_flags c pf pm s : keeps_flags s (read_plugin c pf pm s).2.
Proof.
  unfold read_plugin. destruct (negb c); [|apply keeps_flags_refl].
  pose proof (receiveAndStuff_flags pf pm s) as Hr.
  by destruct (receiveAndStuff pf pm s) as [n s1].
Qed.

Lemma read_trailing_flags c pf pm pr s :
  keeps_flags s (read_trailing c pf pm pr s).2.
Proof.
  unfold read_trailing. destruct (_ && _); [|apply keeps_flags_refl].
  pose proof (receiveNullPackets_flags (size_add pf pr)
    (Z.min (instuff_stop_remain s) (size_sub pm pr)) s) as Hr.
  destruct (receiveNullPackets _ _ s) as [count s1]. cbn [snd] in *.
  apply (keeps_flags_trans s s1); [exact Hr|flags].
Qed.

(** A turn of the loop of [main] which neither aborts nor times out. *)
Lemma main_body_run cap env l (x : InputRun I A) w r :
  w_aborted w = false → w_timeout w = false →
  main_body cap env l x w r
  = let pkt_max := limit_input (exec x) (w_cnt w) in
    let rp := read_plugin (plugin_completed l) (w_first w) pkt_max (exec x) in
    let rt := read_trailing rp.1.2 (w_first w) pkt_max rp.1.1 rp.2 in
    let iend := rp.1.2 && (instuff_stop_remain rt.2 =? 0) in
    let l1 := mkLocals (current_time l) (bitrate_due_time l)
                       (bitrate_due_packet l) rp.1.2 iend false in
    match adjust_bitrate (now env) l1 rt.2 r with
    | None => (IterDiverges, l1, mkRun rt.2 r (produced x))
    | Some (l2, s2, r2) =>
        (if iend then IterLeave else IterContinue, l2,
         mkRun s2 (passPackets cap 0 rt.1 (own_tsp_bitrate r2) iend false r2).1
               (produced x ++ slots s2 (w_first w) rt.1))
    end.
Proof.
  intros Hab Hto. unfold main_body. rewrite Hab, Hto. cbv zeta.
  destruct (read_plugin _ _ _ (exec x)) as [[n c] s1].
  cbn [fst snd]. destruct (read_trailing c _ _ n s1) as [n2 s2].
  reflexivity.
Qed.

Lemma main_body_flags cap env l (x : InputRun I A) w r :
  keeps_flags (exec x) (exec (main_body cap env l x w r).2).
Proof.
  unfold main_body.
  destruct (w_aborted w); [apply keeps_flags_refl|].
  destruct (w_timeout w); [apply keeps_flags_refl|].
  cbv zeta.
  pose proof (read_plugin_flags (plugin_completed l) (w_first w)
                (limit_input (exec x) (w_cnt w)) (exec x)) as H1.
  destruct (read_plugin _ _ _ (exec x)) as [[n c] s1]. cbn [snd] in H1.
  pose proof (read_trailing_flags c (w_first w)
                (limit_input (exec x) (w_cnt w)) n s1) as H2.
  destruct (read_trailing c _ _ n s1) as [n2 s2]. cbn [snd] in H2.
  assert (Hs2 : keeps_flags (exec x) s2) by (by eapply keeps_flags_trans).
  destruct (adjust_bitrate _ _ s2 r) as [[[l3 s3] r3]|] eqn:Ea; [|exact Hs2].
  cbn [snd exec]. apply (keeps_flags_trans _ s2); [exact Hs2|].
  by eapply adjust_bitrate_flags.
Qed.

Lemma main_iteration_flags cap env l (x : InputRun I A) :
  keeps_flags (exec x) (exec (main_iteration cap env l x).2).
Proof.
  unfold main_iteration.
  destruct (waitWork cap 0 (ring x) (wait_events env)) as [[w r]|];
    [apply main_body_flags|apply keeps_flags_refl].
Qed.

End InputProperties.


(** *** Reading back what was written in the buffer *)

Lemma write_list_outside {X : Type} (l : list X) (a : Z → X) i j :
  0 ≤ i → i + Z.of_nat (length l) < SIZE_MOD →
  j < i ∨ i + Z.of_nat (length l) ≤ j →
  write_list a i l j = a j.
Proof.
  revert a i. induction l as [|x l IH]; intros a i Hi Hlen Hj; [done|].
  cbn [write_list length] in *. rewrite Nat2Z.inj_succ in Hlen, Hj.
  rewrite size_add_small by lia.
  rewrite IH by lia. unfold write.
  destruct (j =? i) eqn:E; [|done]. apply Z.eqb_eq in E. lia.
Qed.

Lemma write_list_at {X : Type} (l : list X) (a : Z → X) i k x :
  0 ≤ i → i + Z.of_nat (length l) < SIZE_MOD →
  l !! k = Some x →
  write_list a i l (i + Z.of_nat k) = x.
Proof.
  revert a i k. induction l as [|y l IH]; intros a i k Hi Hlen Hk; [done|].
  cbn [write_list length] in *. rewrite Nat2Z.inj_succ in Hlen.
  rewrite size_add_small by lia.
  destruct k as [|k]; simpl in Hk.
  - injection Hk as ->. rewrite write_list_outside by lia.
    unfold write. change (Z.of_nat 0) with 0.
    rewrite Z.add_0_r, Z.eqb_refl. done.
  - rewrite Nat2Z.inj_succ.
    replace (i + Z.succ (Z.of_nat k)) with (i + 1 + Z.of_nat k) by lia.
    apply IH; [lia|lia|done].
Qed.

Section SyncLoss.
Context {I A : Type} `{InputPlugin I} `{Analyzer A}.

Implicit Types s : InputExecutor I A.

Lemma sync_lost_dump_errors i n count s :
  List.filter is_error (in_log (sync_lost_dump i n count s))
  = List.filter is_error (in_log s) ∧
  plugin_packets (sync_lost_dump i n count s) = plugin_packets s.
Proof.
  unfold sync_lost_dump. destruct (1 <=? max_severity s); [|done].
  destruct (0 <? n); simpl; rewrite !List.filter_app; simpl;
    rewrite ?app_nil_r; done.
Qed.

(** The loop which checks the sync bytes, when the packets [n] to
    [c - 1] are valid and the packet [c] is not. *)
Lemma validate_loop_lost (d : nat) fuel i n count s c :
  d = Z.to_nat (c - n) →
  0 ≤ i → i + count < SIZE_MOD → 0 ≤ n ≤ c → c < count →
  0 ≤ plugin_packets s < SIZE_MOD →
  (d + 2 ≤ fuel)%nat →
  (∀ k, n ≤ k < c → hasValidSync (buffer s (i + k)) = true) →
  hasValidSync (buffer s (i + c)) = false →
  let r := validate_loop fuel i n count s in
  r.1 = c ∧ in_sync_lost r.2 = true ∧
  List.filter is_error (in_log r.2)
  = List.filter is_error (in_log s)
    ++ [ErrSyncLost ((plugin_packets s + (c - n)) mod SIZE_MOD)
                    (nth 0 (buffer s (i + c)) 0)] ∧
  plugin_packets r.2 = (plugin_packets s + (c - n)) mod SIZE_MOD.
Proof.
  revert fuel n s.
  induction d as [|d IH];
    intros fuel n s Hd Hi Hic Hn Hc Hpp Hfuel Hgood Hbad.
  - assert (n = c) as -> by lia.
    destruct fuel as [|[|fuel]]; try lia. simpl.
    assert ((c <? count) = true) as -> by (apply Z.ltb_lt; lia).
    rewrite size_add_small by lia. rewrite Hbad.
    rewrite size_add_small by lia.
    assert ((c + 1 <? c) = false) as -> by (apply Z.ltb_ge; lia).
    simpl.
    destruct (sync_lost_dump_errors i c count
      (input_log (ErrSyncLost (plugin_packets s) (nth 0 (buffer s (i + c)) 0)) s))
      as [He Hp].
    rewrite He, Hp. simpl. rewrite List.filter_app. simpl.
    rewrite Z.sub_diag, Z.add_0_r, Z.mod_small by done.
    done.
  - destruct fuel as [|fuel]; [lia|]. simpl.
    assert ((n <? count) = true) as -> by (apply Z.ltb_lt; lia).
    rewrite size_add_small by lia. rewrite Hgood by lia.
    rewrite size_add_small by lia.
    specialize (IH fuel (n + 1)
                  (feed_analyzers (buffer s (i + n)) (addPluginPackets 1 s))).
    destruct IH as (H1 & H2 & H3 & H4); try done; try lia.
    + simpl. unfold size_add. apply Z.mod_pos_bound. done.
    + intros k Hk. simpl. apply Hgood. lia.
    + rewrite H1, H2, H3, H4. simpl. unfold size_add.
      rewrite Z.add_mod_idemp_l by done.
      replace (plugin_packets s + 1 + (c - (n + 1)))
        with (plugin_packets s + (c - n)) by lia.
      done.
Qed.

(** C6. The loss of synchronization is sticky.  When the plugin returns
    packets of which the first ones ([good]) have a valid sync byte and
    the next one ([bad]) has not, [receiveAndValidate] reports one error,
    returns the number of the packets before the bad one and sets the
    flag.  Once the flag is set, [receiveAndValidate] returns 0 without
    calling the plugin, and nothing clears the flag. *)
Theorem sync_loss_sticky :
  (∀ s i m pkts plug good bad rest,
     in_sync_lost s = false →
     receive (input s) m = (pkts, plug) →
     pkts.*1 = good ++ bad :: rest →
     Forall (λ p, hasValidSync p = true) good → hasValidSync bad = false →
     0 ≤ i → i + Z.of_nat (length pkts) < SIZE_MOD →
     0 ≤ plugin_packets s < SIZE_MOD →
     let r := receiveAndValidate i m s in
     r.1 = Z.of_nat (length good) ∧ in_sync_lost r.2 = true ∧
     List.filter is_error (in_log r.2)
     = List.filter is_error (in_log s)
       ++ [ErrSyncLost
             ((plugin_packets s + Z.of_nat (length good)) mod SIZE_MOD)
             (nth 0 bad 0)] ∧
     plugin_packets r.2
     = (plugin_packets s + Z.of_nat (length good)) mod SIZE_MOD) ∧
  (∀ s i m, in_sync_lost s = true → receiveAndValidate i m s = (0, s)) ∧
  (∀ s, in_sync_lost s = true →
     (∀ i m, in_sync_lost (receiveAndValidate i m s).2 = true ∧
             in_sync_lost (receiveNullPackets i m s).2 = true ∧
             in_sync_lost (receiveAndStuff i m s).2 = true) ∧
     in_sync_lost (getBitrate s).2 = true ∧
     (∀ cap env l (x : InputRun I A), exec x = s →
        in_sync_lost (exec (main_iteration cap env l x).2) = true)).
Proof.
  split; [|split].
  - intros s i m pkts plug good bad rest Hs Hr Hp Hgood Hbad Hi Hlen Hpp.
    unfold receiveAndValidate. rewrite Hs, Hr. cbv zeta.
    assert (Hl : length pkts = (length good + S (length rest))%nat).
    { rewrite <- (length_fmap fst pkts), Hp, length_app. done. }
    set (s1 := set_metadata _ (set_buffer _ _)).
    assert (Hbuf : ∀ k x, (good ++ bad :: rest) !! k = Some x →
              buffer s1 (i + Z.of_nat k) = x).
    { intros k x Hk. unfold s1. simpl. rewrite Hp.
      apply write_list_at; [done| |done].
      rewrite <- Hp, length_fmap. done. }
    pose proof (validate_loop_lost (length good) (S (length pkts)) i 0
                  (Z.of_nat (length pkts)) s1 (Z.of_nat (length good)))
      as Hv.
    rewrite (Hbuf (length good) bad) in Hv.
    2: { rewrite lookup_app_r by lia. by rewrite Nat.sub_diag. }
    rewrite Z.sub_0_r in Hv. apply Hv; try done; try lia.
    intros k Hk.
    replace k with (Z.of_nat (Z.to_nat k)) by lia.
    destruct (lookup_lt_is_Some_2 good (Z.to_nat k)) as [x Hx]; [lia|].
    rewrite (Hbuf (Z.to_nat k) x).
    + rewrite Forall_forall in Hgood. apply Hgood.
      by eapply list_elem_of_lookup_2.
    + by rewrite lookup_app_l by lia.
  - intros s i m Hs. unfold receiveAndValidate. by rewrite Hs.
  - intros s Hs. split; [|split].
    + intros i m. split; [|split].
      * by apply (receiveAndValidate_flags i m s).
      * by apply (receiveNullPackets_flags i m s).
      * by apply (receiveAndStuff_flags i m s).
    + by apply (getBitrate_flags s).
    + intros cap env l x <-. by apply (main_iteration_flags cap env l x).
Qed.

(** *** Packets of the plugin and packets of stuffing *)

Lemma mod_sub_add a a2 b c :
  a2 mod SIZE_MOD = (a + c) mod SIZE_MOD →
  (a2 - (b + c) mod SIZE_MOD) mod SIZE_MOD = (a - b) mod SIZE_MOD.
Proof.
  intros E. rewrite Zminus_mod_idemp_r.
  rewrite Zminus_mod, E, <- Zminus_mod. f_equal. lia.
Qed.

Lemma null_loop_packets todo i n s :
  plugin_packets (null_loop todo i n s) = plugin_packets s.
Proof.
  revert n s. induction todo as [|todo IH]; intros n s; simpl; [done|].
  by rewrite IH.
Qed.

Lemma start_loop_packets fuel l s :
  plugin_packets (start_loop fuel l s).2 = plugin_packets s ∧
  pkt_from_input (start_loop fuel l s).1 = pkt_from_input l.
Proof.
  revert l s. induction fuel as [|fuel IH]; intros l s; simpl; [done|].
  destruct (_ && _); [|done].
  match goal with |- context [start_loop fuel ?l' ?s'] =>
    destruct (IH l' s') as [-> ->] end. done.
Qed.

Lemma start_loop_remain fuel l s :
  pkt_remain l < SIZE_MOD → pkt_remain (start_loop fuel l s).1 < SIZE_MOD.
Proof.
  revert l s. induction fuel as [|fuel IH]; intros l s Hl; simpl; [done|].
  destruct (_ && _); [|done].
  apply IH. simpl. unfold size_sub. by apply Z.mod_pos_bound.
Qed.

(** The count which the loop on the sync bytes returns and the packets
    which it counts as coming from the plugin. *)
Lemma validate_loop_count fuel i n count s :
  0 ≤ n ≤ count → count < SIZE_MOD →
  (Z.to_nat (count - n) < fuel)%nat →
  let r := validate_loop fuel i n count s in
  n ≤ r.1 ≤ count ∧
  plugin_packets r.2 mod SIZE_MOD
  = (plugin_packets s + (r.1 - n)) mod SIZE_MOD.
Proof.
  revert n count s.
  induction fuel as [|fuel IH]; intros n count s Hn Hc Hf; [lia|]. simpl.
  destruct (n <? count) eqn:E.
  - apply Z.ltb_lt in E. rewrite (size_add_small n 1) by lia.
    destruct (hasValidSync _).
    + destruct (IH (n + 1) count
        (feed_analyzers (buffer s (size_add i n)) (addPluginPackets 1 s)))
        as [Hr Hp]; [lia|lia|lia|].
      split; [lia|]. rewrite Hp. simpl. unfold size_add.
      rewrite Z.add_mod_idemp_l by done. f_equal. lia.
    + assert (Hres : ∀ s', validate_loop fuel i (n + 1) n s' = (n, s')).
      { intros s'. destruct fuel; simpl; [done|].
        assert ((n + 1 <? n) = false) as -> by (apply Z.ltb_ge; lia). done. }
      rewrite Hres. simpl.
      destruct (sync_lost_dump_errors i n count
        (input_log (ErrSyncLost (plugin_packets s)
                      (nth 0 (buffer s (size_add i n)) 0)) s)) as [_ ->].
      simpl. split; [lia|]. f_equal. lia.
  - apply Z.ltb_ge in E. simpl. split; [lia|]. f_equal. lia.
Qed.

Lemma receiveAndValidate_count i m s :
  receive_size_t I → m < SIZE_MOD →
  let r := receiveAndValidate i m s in
  0 ≤ r.1 < SIZE_MOD ∧
  plugin_packets r.2 mod SIZE_MOD = (plugin_packets s + r.1) mod SIZE_MOD.
Proof.
  intros Hsz Hm. unfold receiveAndValidate.
  destruct (in_sync_lost s).
  - simpl. split; [done|]. by rewrite Z.add_0_r.
  - pose proof (Hsz (input s) m Hm) as Hlen.
    destruct (receive (input s) m) as [pkts plug]. simpl in Hlen. cbv zeta.
    set (s1 := set_metadata _ _).
    destruct (validate_loop_count (S (length pkts)) i 0
                (Z.of_nat (length pkts)) s1) as [Hr Hp]; [lia|lia|lia|].
    rewrite Z.sub_0_r in Hp. split; [lia|]. exact Hp.
Qed.

Lemma stuff_nulls_count l s :
  plugin_packets (stuff_nulls l s).2 = plugin_packets s ∧
  pkt_from_input (stuff_nulls l s).1 = pkt_from_input l ∧
  (0 ≤ pkt_remain (stuff_nulls l s).1 < SIZE_MOD).
Proof.
  unfold stuff_nulls, receiveNullPackets. simpl.
  rewrite null_loop_packets. split; [done|]. split; [done|].
  unfold size_sub. by apply Z.mod_pos_bound.
Qed.

Lemma stuff_input_count l s :
  receive_size_t I → pkt_remain l < SIZE_MOD →
  let r := stuff_input l s in
  (plugin_packets r.2 - pkt_from_input r.1.2) mod SIZE_MOD
  = (plugin_packets s - pkt_from_input l) mod SIZE_MOD ∧
  0 ≤ pkt_from_input r.1.2 < SIZE_MOD ∧
  0 ≤ pkt_remain r.1.2 < SIZE_MOD.
Proof.
  intros Hsz Hrem. unfold stuff_input.
  set (s0 := if _ && _ then set_inpkt_remain _ s else s).
  assert (Hs0 : plugin_packets s0 = plugin_packets s).
  { unfold s0. by destruct (_ && _). }
  destruct (receiveAndValidate_count (index l)
    (Z.min (pkt_remain l) (instuff_inpkt_remain s0)) s0 Hsz) as [Hc Hp];
    [lia|].
  destruct (receiveAndValidate _ _ s0) as [count s1]. cbn [fst snd] in *.
  rewrite Hs0 in Hp.
  assert (Hs2 : ∀ b x, plugin_packets
            (if b : bool then set_nullpkt_remain x
               (set_inpkt_remain (size_sub (instuff_inpkt_remain s1) count) s1)
             else set_inpkt_remain (size_sub (instuff_inpkt_remain s1) count) s1)
            = plugin_packets s1).
  { intros b x. by destruct b. }
  rewrite Hs2. simpl.
  split; [unfold size_add; by apply mod_sub_add|].
  split; [unfold size_add|unfold size_sub]; by apply Z.mod_pos_bound.
Qed.

Lemma stuff_loop_count fuel l s :
  receive_size_t I → pkt_remain l < SIZE_MOD →
  let r := stuff_loop fuel l s in
  (plugin_packets r.2 - pkt_from_input r.1) mod SIZE_MOD
  = (plugin_packets s - pkt_from_input l) mod SIZE_MOD ∧
  (0 ≤ pkt_from_input l < SIZE_MOD → 0 ≤ pkt_from_input r.1 < SIZE_MOD).
Proof.
  intros Hsz. revert l s.
  induction fuel as [|fuel IH]; intros l s Hrem; [done|].
  rewrite stuff_loop_S.
  destruct (0 <? pkt_remain l); [|done].
  destruct (stuff_nulls_count l s) as (Hn1 & Hn2 & Hn3).
  destruct (stuff_nulls l s) as [l1 s1]. cbn [fst snd] in *.
  destruct (pkt_remain l1 =? 0).
  { simpl. rewrite Hn1, Hn2. done. }
  destruct (stuff_input_count l1 s1 Hsz) as (Hi1 & Hi2 & Hi3); [lia|].
  destruct (stuff_input l1 s1) as [[go l2] s2]. cbn [fst snd] in *.
  rewrite Hn1, Hn2 in Hi1.
  destruct go.
  - destruct (IH l2 s2) as [IH1 IH2]; [lia|].
    split; [by rewrite IH1|]. intros _. by apply IH2.
  - simpl. done.
Qed.

(** The number of packets which [receiveAndStuff] took from the plugin,
    in terms of the counter of the packets of the plugin. *)
Lemma receiveAndStuff_from_input i0 m s :
  receive_size_t I → m < SIZE_MOD →
  let r := receiveAndStuff_locals i0 m s in
  0 ≤ pkt_from_input r.1 < SIZE_MOD ∧
  plugin_packets r.2 mod SIZE_MOD
  = (plugin_packets s + pkt_from_input r.1) mod SIZE_MOD.
Proof.
  intros Hsz Hm. unfold receiveAndStuff_locals.
  destruct (start_loop_packets (Z.to_nat m) (mkStuff i0 m 0 0) s) as [Hp Hf].
  pose proof (start_loop_remain (Z.to_nat m) (mkStuff i0 m 0 0) s Hm) as Hrem.
  destruct (start_loop _ _ s) as [l s1]. simpl in Hp, Hf, Hrem.
  destruct (instuff_inpkt (options s1) =? 0).
  - destruct (receiveAndValidate_count (index l) (pkt_remain l) s1 Hsz Hrem)
      as [Hc Hv].
    destruct (receiveAndValidate _ _ s1) as [n s2]. simpl in *.
    by rewrite <- Hp.
  - destruct (stuff_loop_count (S (Z.to_nat m)) l s1 Hsz Hrem) as [H1 H2].
    destruct (stuff_loop _ l s1) as [l2 s2]. simpl in *.
    rewrite Hf in H1, H2. specialize (H2 ltac:(unfold SIZE_MOD; lia)).
    split; [done|]. rewrite Hp, Z.sub_0_r in H1.
    apply congr_mod_eq; [unfold SIZE_MOD; lia|].
    destruct (mod_eq_congr SIZE_MOD _ _ ltac:(unfold SIZE_MOD; lia) H1)
      as [q Hq].
    exists q. lia.
Qed.
End SyncLoss.

Lemma sync_loss_sticky_witness :
  (receiveAndValidate 0 4 lost_input).1 = 2 ∧
  in_sync_lost (receiveAndValidate 0 4 lost_input).2 = true.
Proof.
  pose proof (proj1 (@sync_loss_sticky ListInput FixedAnalyzer _ _) lost_input
                0 4 _ _ [real_packet 1; real_packet 2] [0; 3] [real_packet 4]
                eq_refl eq_refl eq_refl) as Hw.
  destruct Hw as (H1 & H2 & _).
  - repeat constructor.
  - reflexivity.
  - lia.
  - unfold SIZE_MOD. simpl. lia.
  - unfold SIZE_MOD. simpl. lia.
  - split; [exact H1|exact H2].
Defined.


(** ** Calls which only produce stuffing *)

Section StuffingOnly.
Context {I A : Type} `{InputPlugin I} `{Analyzer A}.

Implicit Types s : InputExecutor I A.

(** [receiveAndStuff] returns 0 when the plugin gave no packet. *)
Lemma receiveAndStuff_zero i0 m s :
  receive_size_t I → m < SIZE_MOD →
  0 ≤ plugin_packets s < SIZE_MOD →
  plugin_packets (receiveAndStuff i0 m s).2 = plugin_packets s →
  (receiveAndStuff i0 m s).1 = 0.
Proof.
  intros Hsz Hm Hpp. unfold receiveAndStuff.
  destruct (receiveAndStuff_from_input i0 m s Hsz Hm) as [Hf Hp].
  destruct (receiveAndStuff_locals i0 m s) as [l s1]. simpl in *.
  intros E. rewrite E in Hp.
  assert (pkt_from_input l = 0) as ->; [|done].
  apply (congr_small SIZE_MOD); [unfold SIZE_MOD; lia| |lia].
  destruct (mod_eq_congr SIZE_MOD _ _ ltac:(unfold SIZE_MOD; lia) Hp)
    as [q Hq].
  exists (- q). lia.
Qed.

(** C10. [receiveAndStuff] returns 0 whenever the counter of the packets
    of the plugin did not move during the call, whatever stuffing the call
    wrote in the buffer.  In the loop of [main], such a call marks the
    plugin as completed, and the packets which this turn hands to the
    successor are the trailing stuffing only, written from the start of
    the window on.  With an input without any packet, 3 null packets to
    add before the input and 2 after it, [initAllBuffers] writes the 3
    leading null packets, fails and hands over nothing; a turn of the
    loop of [main] writes them too and hands over the 2 trailing null
    packets only. *)
Theorem stuffing_only_is_completion :
  receive_size_t I →
  (∀ i0 m s,
     m < SIZE_MOD → 0 ≤ plugin_packets s < SIZE_MOD →
     plugin_packets (receiveAndStuff i0 m s).2 = plugin_packets s →
     (receiveAndStuff i0 m s).1 = 0) ∧
  (∀ cap env l (x : InputRun I A) w r,
     0 ≤ plugin_packets (exec x) < SIZE_MOD →
     waitWork cap 0 (ring x) (wait_events env) = Some (w, r) →
     w_aborted w = false → w_timeout w = false →
     plugin_completed l = false →
     let pkt_max := limit_input (exec x) (w_cnt w) in
     let s1 := (receiveAndStuff (w_first w) pkt_max (exec x)).2 in
     plugin_packets s1 = plugin_packets (exec x) →
     let res := main_iteration cap env l x in
     res.1.1 ≠ IterDiverges →
     plugin_completed res.1.2 = true ∧
     produced res.2
     = produced x ++ slots (exec res.2) (w_first w) (trailing_count s1 pkt_max)) ∧
  (let '(ok, x) := initAllBuffers 8 empty_start in
   (ok, produced x, instuff_start_remain (exec x), total_packets (exec x))
   = (false, [], 0, 3)) ∧
  (let '(st, l, x) := main_iteration 8 (mkIterEnv [] 1)
                        (mkLocals 0 5000 5000 false false false)
                        empty_in_main in
   (st, plugin_completed l, packet_kind <$> produced x,
    instuff_start_remain (exec x), total_packets (exec x))
   = (IterLeave, true, [None; None], 0, 5)).
Proof.
  intros Hsz. split; [|split; [|split]].
  - intros i0 m s Hm Hpp E. by apply receiveAndStuff_zero.
  - intros cap env l x w r Hpp Hw Hab Hto Hpc pkt_max s1 Hs1 res.
    assert (Hmax : pkt_max < SIZE_MOD).
    { pose proof (waitWork_cnt_lt _ _ _ _ _ _ Hw) as Hlt.
      unfold pkt_max, limit_input.
      destruct (0 <? _) eqn:E1; simpl; [|done].
      destruct (_ <? w_cnt w) eqn:E2; [|done].
      apply Z.ltb_lt in E2. lia. }
    pose proof (receiveAndStuff_zero (w_first w) pkt_max (exec x) Hsz Hmax
                  Hpp Hs1) as Hz.
    subst res. unfold main_iteration. rewrite Hw.
    rewrite (main_body_run cap env l x w r Hab Hto). cbv zeta. fold pkt_max.
    assert (Hrp : read_plugin (plugin_completed l) (w_first w) pkt_max (exec x)
                  = (0, true, s1)).
    { unfold read_plugin. rewrite Hpc. cbn [negb]. subst s1.
      destruct (receiveAndStuff (w_first w) pkt_max (exec x)) as [n s1].
      cbn [fst snd] in Hz |- *. by subst n. }
    rewrite Hrp. cbn [fst snd].
    assert (Ht : ∃ s2, read_trailing true (w_first w) pkt_max 0 s1
                       = (trailing_count s1 pkt_max, s2)).
    { unfold read_trailing, trailing_count, receiveNullPackets.
      rewrite andb_true_l. destruct (_ && _); by eexists. }
    destruct Ht as [s2 ->]. cbn [fst snd].
    destruct (adjust_bitrate _ _ s2 r) as [[[l3 s3] r3]|] eqn:Ea;
      cbn [fst snd]; [|done].
    intros _. split; [|reflexivity].
    by rewrite (adjust_bitrate_completed _ _ _ _ _ _ _ Ea).
  - vm_compute. reflexivity.
  - vm_compute. reflexivity.
Qed.
End StuffingOnly.

(** ** The edge from the output executor back to the input executor *)

(** A field which a function keeps is read the same after [alter]. *)
Lemma lookup_alter_keeps {B : Type} (g : PluginExecutor → B)
    (f : PluginExecutor → PluginExecutor) j (r : Ring) k :
  (∀ e, g (f e) = g e) → g <$> alter f j r !! k = g <$> r !! k.
Proof.
  intros Hg. rewrite list_lookup_alter. case_decide; [subst j|done].
  destruct (r !! k) as [e|]; simpl; [|done]. by rewrite Hg.
Qed.

(** [passPackets] sets the aborting flag of the calling executor only. *)
Lemma passPackets_other_aborting cap i count br iend aborted (r : Ring) k e :
  k ≠ i → r !! k = Some e →
  tsp_aborting <$> (passPackets cap i count br iend aborted r).1 !! k
  = Some (tsp_aborting e).
Proof.
  intros Hk He. unfold passPackets. cbv zeta. cbn [fst].
  assert (H2 : tsp_aborting <$>
            alter (pass_next count br iend) (ringNext r i)
              (alter (pass_own cap count) i r) !! k = Some (tsp_aborting e)).
  { rewrite lookup_alter_keeps by done.
    rewrite list_lookup_alter_ne by done. by rewrite He. }
  case_abort; [|exact H2].
  rewrite lookup_alter_keeps by done.
  rewrite list_lookup_alter_ne by done. exact H2.
Qed.

Lemma setAbort_other_aborting i (r : Ring) k e :
  k ≠ i → r !! k = Some e →
  tsp_aborting <$> setAbort i r !! k = Some (tsp_aborting e).
Proof.
  intros Hk He. unfold setAbort.
  rewrite lookup_alter_keeps by done.
  rewrite list_lookup_alter_ne by done. by rewrite He.
Qed.

(** What [passPackets] writes in the successor of the caller. *)
Lemma passPackets_next_data cap i count br iend aborted (r : Ring) nx :
  ringNext r i ≠ i → r !! ringNext r i = Some nx →
  (λ e, (pkt_cnt e, input_end e, bitrate e))
    <$> (passPackets cap i count br iend aborted r).1 !! ringNext r i
  = Some (size_add (pkt_cnt nx) count, input_end nx || iend, br).
Proof.
  intros Hne Hnx. unfold passPackets. cbv zeta. cbn [fst].
  assert (H2 : (λ e, (pkt_cnt e, input_end e, bitrate e)) <$>
            alter (pass_next count br iend) (ringNext r i)
              (alter (pass_own cap count) i r) !! ringNext r i
            = Some (size_add (pkt_cnt nx) count, input_end nx || iend, br)).
  { rewrite list_lookup_alter_eq, list_lookup_alter_ne by done.
    by rewrite Hnx. }
  case_abort; [|exact H2].
  rewrite lookup_alter_keeps by done.
  rewrite list_lookup_alter_ne by done. exact H2.
Qed.

(** The abort decision of the output executor in [passPackets]. *)
Lemma passPackets_output_abort cap o count br iend aborted (r : Ring) eo :
  ringNext r o ≠ o → r !! o = Some eo → ptype eo = OUTPUT_PLUGIN →
  tsp_aborting <$> (passPackets cap o count br iend aborted r).1 !! o
  = Some (tsp_aborting eo || aborted) ∧
  (passPackets cap o count br iend aborted r).2 = negb iend && negb aborted.
Proof.
  intros Hne Ho Ht. unfold passPackets. cbv zeta. cbn [fst snd].
  assert (H2 : alter (pass_next count br iend) (ringNext r o)
                 (alter (pass_own cap count) o r) !! o
               = Some (pass_own cap count eo)).
  { rewrite list_lookup_alter_ne by done.
    by rewrite list_lookup_alter_eq, Ho. }
  rewrite H2. simpl from_option. rewrite Ht. simpl is_output. cbv iota.
  split; [|done]. destruct aborted.
  - rewrite lookup_alter_keeps by done.
    rewrite list_lookup_alter_eq, H2. simpl. by rewrite orb_true_r.
  - rewrite H2. simpl. by rewrite orb_false_r.
Qed.

Section ClosureEdge.
Context {I A : Type} `{InputPlugin I} `{Analyzer A}.

(** The loop of [main] does not use the bitrate and the end of input
    which [waitWork] reports. *)
Lemma main_body_ignores cap env l (x : InputRun I A) w r b ie :
  let res := main_body cap env l x w r in
  let res' := main_body cap env l x (with_data b ie w) r in
  res'.1.1 = res.1.1 ∧ res'.2 = res.2 ∧
  plugin_completed res'.1.2 = plugin_completed res.1.2 ∧
  main_aborted res'.1.2 = main_aborted res.1.2 ∧
  (res.1.1 = IterContinue → res' = res).
Proof.
  unfold main_body, with_data. simpl.
  destruct (w_aborted w); [done|].
  destruct (w_timeout w); [done|].
  simpl. done.
Qed.

(** C4, as the code has it.  [passPackets] has no special case for the
    data which the output executor hands to its successor in the ring,
    the input executor: the count is added to the window of the input
    executor (the slots are free again) and the end of input and the
    bitrate are written in it as on any other edge; it is the loop of
    [main] of the input executor which does not use the bitrate and the
    end of input which [waitWork] reports.  The aborting flag does not
    cross this edge: the output executor aborts only if it is itself
    called with [aborted], whatever the aborting flag of the input
    executor, its [waitWork] never reports [aborted], and no call to
    [passPackets] or [setAbort] by another executor changes the aborting
    flag of the input executor. *)
Theorem output_to_input_edge cap (r : Ring) o eo e0 :
  (2 ≤ length r)%nat →
  r !! o = Some eo → ptype eo = OUTPUT_PLUGIN →
  ringNext r o = 0%nat → r !! 0%nat = Some e0 →
  (∀ count br iend aborted,
     let res := passPackets cap o count br iend aborted r in
     (λ e, (pkt_cnt e, input_end e, bitrate e)) <$> res.1 !! 0%nat
     = Some (size_add (pkt_cnt e0) count, input_end e0 || iend, br) ∧
     tsp_aborting <$> res.1 !! 0%nat = Some (tsp_aborting e0) ∧
     tsp_aborting <$> res.1 !! o = Some (tsp_aborting eo || aborted) ∧
     res.2 = negb iend && negb aborted) ∧
  (∀ evs w r' eo', waitWork cap o r evs = Some (w, r') →
     r' !! o = Some eo' → ptype eo' = OUTPUT_PLUGIN → w_aborted w = false) ∧
  (∀ i count br iend aborted, i ≠ 0%nat →
     tsp_aborting <$> (passPackets cap i count br iend aborted r).1 !! 0%nat
     = Some (tsp_aborting e0)) ∧
  (∀ i, i ≠ 0%nat →
     tsp_aborting <$> setAbort i r !! 0%nat = Some (tsp_aborting e0)) ∧
  (∀ env l (x : InputRun I A) w r0 b ie,
     let res := main_body cap env l x w r0 in
     let res' := main_body cap env l x (with_data b ie w) r0 in
     res'.1.1 = res.1.1 ∧ res'.2 = res.2 ∧
     plugin_completed res'.1.2 = plugin_completed res.1.2 ∧
     main_aborted res'.1.2 = main_aborted res.1.2 ∧
     (res.1.1 = IterContinue → res' = res)).
Proof.
  intros Hn Ho Ht Hnx Hin.
  assert (Hlt : (o < length r)%nat) by (by eapply lookup_lt_Some).
  pose proof (ringNext_ne r o Hn Hlt) as Hne.
  assert (Ho0 : o ≠ 0%nat) by congruence.
  split; [|split; [|split; [|split]]].
  - intros count br iend aborted res. subst res.
    pose proof (passPackets_next_data cap o count br iend aborted r e0 Hne)
      as Hd.
    rewrite Hnx in Hd. split; [by apply Hd|].
    split; [by apply passPackets_other_aborting|].
    by apply passPackets_output_abort.
  - intros evs w r' eo' Hw Ho' Ht'. unfold waitWork in Hw.
    destruct (waitWork_loop o false 0 r evs) as [[[t n] r1]|]; [|done].
    destruct (r1 !! o) as [e|] eqn:E1; [|done].
    destruct (r1 !! ringNext r1 o) as [nx|]; [|done].
    injection Hw as <- <-. simpl. rewrite E1 in Ho'. injection Ho' as ->.
    by rewrite Ht'.
  - intros i count br iend aborted Hi.
    by apply passPackets_other_aborting.
  - intros i Hi. by apply setAbort_other_aborting.
  - intros env l x w r0 b ie. apply main_body_ignores.
Qed.
End ClosureEdge.

Lemma reachable_ring_full_end : reachable 8 ring_full_end.
Proof.
  unfold ring_full_end, ring_full.
  apply reach_pass; [|lia|reflexivity].
  apply reach_pass; [|lia|reflexivity].
  exact reachable_ring_2_4.
Qed.

(** C4 fails as it is stated.  In a reachable ring in which the window of
    the input executor is empty, the input executor is blocked in
    [waitWork].  After a call to [passPackets] by the output executor with
    a bitrate and the end of input, [waitWork] of the input executor
    returns at once and reports this bitrate and the end of input, and the
    turn of the loop of [main] then marks the plugin as completed and
    leaves the loop although the plugin still holds its 11 packets. *)
Lemma output_end_of_input_reaches_input :
  reachable 8 ring_full_end ∧
  waitWork 8 0 ring_full [] = None ∧
  work_data ∘ fst <$> waitWork 8 0 ring_full_end []
  = Some (0, 0, 5000, true, false, false) ∧
  (let '(st, l, x) :=
     main_iteration 8 (mkIterEnv [] 1)
       (mkLocals 0 5000 5000 false false false) (input_in ring_full_end) in
   (st, plugin_completed l, length (input (exec x))))
  = (IterLeave, true, 11%nat).
Proof.
  split; [exact reachable_ring_full_end|].
  split; [reflexivity|]. split; [reflexivity|].
  vm_compute. reflexivity.
Qed.

Lemma output_to_input_edge_witness :
  (λ e, (pkt_cnt e, input_end e, bitrate e))
    <$> (passPackets 8 1 4 5000 true false ring_2_4).1 !! 0%nat
  = Some (size_add 4 4, false || true, 5000) ∧
  tsp_aborting <$> (passPackets 8 1 4 5000 true false ring_2_4).1 !! 0%nat
  = Some false.
Proof.
  pose proof (proj1 (@output_to_input_edge ListInput FixedAnalyzer _ _ 8
                       ring_2_4 1
                       (mkExec OUTPUT_PLUGIN 0 4 false 0 0 false 0)
                       (mkExec INPUT_PLUGIN 4 4 false 0 0 false 0)
                       ltac:(simpl; lia) eq_refl eq_refl eq_refl eq_refl)
                4 5000 true false) as (H1 & H2 & _).
  split; [exact H1|exact H2].
Defined.

(** ** The input thread keeps to the protocol of the ring *)

Lemma remains_nonneg {I A : Type} (s s' : InputExecutor I A) :
  remains s' = remains s → counters_nonneg s → counters_nonneg s'.
Proof.
  unfold remains, counters_nonneg. intros [= -> -> -> ->]. done.
Qed.

Section InputBounds.
Context {I A : Type} `{InputPlugin I} `{Analyzer A}.
Hypothesis Hbounded : receive_bounded I.

Implicit Types s : InputExecutor I A.

Lemma null_loop_remains todo i n s :
  remains (null_loop todo i n s) = remains s.
Proof.
  revert n s. induction todo as [|todo IH]; intros n s; simpl; [done|].
  by rewrite IH.
Qed.

Lemma receiveNullPackets_remains i m s :
  remains (receiveNullPackets i m s).2 = remains s.
Proof.
  unfold receiveNullPackets. cbn [snd].
  by rewrite <- (null_loop_remains (Z.to_nat m) i 0 s).
Qed.

Lemma sync_lost_dump_remains i n count s :
  remains (sync_lost_dump i n count s) = remains s.
Proof.
  unfold sync_lost_dump. destruct (1 <=? max_severity s); [|done].
  by destruct (0 <? n).
Qed.

Lemma validate_loop_remains fuel i n count s :
  remains (validate_loop fuel i n count s).2 = remains s.
Proof.
  revert n count s.
  induction fuel as [|fuel IH]; intros n count s; simpl; [done|].
  destruct (n <? count); [|done].
  destruct (hasValidSync _).
  - by rewrite IH.
  - rewrite IH.
    match goal with
    | |- remains (set_in_sync_lost true (sync_lost_dump _ _ _ ?s1)) = _ =>
        change (remains (sync_lost_dump i n count s1) = remains s)
    end.
    by rewrite sync_lost_dump_remains.
Qed.

Lemma receiveAndValidate_remains i m s :
  remains (receiveAndValidate i m s).2 = remains s.
Proof.
  unfold receiveAndValidate. destruct (in_sync_lost s); [done|].
  cbv zeta. destruct (receive (input s) m) as [pkts plug].
  by rewrite validate_loop_remains.
Qed.

(** [receiveAndValidate] returns at most [max_packets]. *)
Lemma receiveAndValidate_le i m s :
  0 ≤ m < SIZE_MOD → 0 ≤ (receiveAndValidate i m s).1 ≤ m.
Proof.
  intros Hm. unfold receiveAndValidate.
  destruct (in_sync_lost s); [simpl; lia|].
  pose proof (Hbounded (input s) m ltac:(lia)) as Hlen.
  destruct (receive (input s) m) as [pkts plug]. simpl in Hlen. cbv zeta.
  match goal with
  | |- context [validate_loop ?f ?i0 0 ?c ?s1] =>
      destruct (validate_loop_count f i0 0 c s1) as [Hr _]; [lia|lia|lia|]
  end.
  lia.
Qed.

Lemma start_loop_bounds fuel m l s :
  m < SIZE_MOD → locals_ok m l →
  locals_ok m (start_loop fuel l s).1 ∧
  remains (start_loop fuel l s).2 = remains s.
Proof.
  intros Hm. revert l s.
  induction fuel as [|fuel IH]; intros l s Hl; simpl; [done|].
  destruct (_ && _) eqn:E; [|done].
  apply andb_prop in E as [_ E]. apply Z.ltb_lt in E.
  destruct Hl as (H1 & H2 & H3).
  match goal with
  | |- context [start_loop fuel ?l' ?s'] =>
      destruct (IH l' s') as [IH1 IH2]
  end.
  { unfold locals_ok. simpl.
    rewrite size_sub_small, size_add_small by lia. lia. }
  split; [exact IH1|]. by rewrite IH2.
Qed.

Lemma stuff_nulls_bounds m l s :
  m < SIZE_MOD → locals_ok m l → counters_nonneg s →
  locals_ok m (stuff_nulls l s).1 ∧ counters_nonneg (stuff_nulls l s).2.
Proof.
  intros Hm (H1 & H2 & H3) (Hc1 & Hc2 & Hc3 & Hc4 & Hc5).
  unfold stuff_nulls.
  set (count := Z.min (instuff_nullpkt_remain s) (pkt_remain l)).
  assert (Hcount : 0 ≤ count ≤ pkt_remain l) by (unfold count; lia).
  pose proof (receiveNullPackets_remains (index l) count s) as Hr.
  destruct (receiveNullPackets (index l) count s) as [c s1] eqn:E.
  assert (c = count) as ->.
  { unfold receiveNullPackets in E. by injection E. }
  cbn [fst snd] in *. unfold remains in Hr. injection Hr as R1 R2 R3 R4.
  split.
  - unfold locals_ok. simpl.
    rewrite size_sub_small, size_add_small by lia. lia.
  - unfold counters_nonneg. simpl. rewrite R1, R3, R4.
    repeat split; try done.
    unfold size_sub. apply Z.mod_pos_bound. done.
Qed.

Lemma stuff_input_bounds m l s :
  m < SIZE_MOD → locals_ok m l → counters_nonneg s →
  locals_ok m (stuff_input l s).1.2 ∧ counters_nonneg (stuff_input l s).2.
Proof.
  intros Hm (H1 & H2 & H3) (Hc1 & Hc2 & Hc3 & Hc4 & Hc5).
  unfold stuff_input.
  set (s0 := if _ && _ then set_inpkt_remain _ s else s).
  assert (Hs0 : counters_nonneg s0 ∧ options s0 = options s).
  { unfold s0. by destruct (_ && _). }
  destruct Hs0 as [(Hd1 & Hd2 & Hd3 & Hd4 & Hd5) Ho].
  set (mx := Z.min (pkt_remain l) (instuff_inpkt_remain s0)).
  assert (Hmx : 0 ≤ mx ≤ pkt_remain l) by (unfold mx; lia).
  pose proof (receiveAndValidate_le (index l) mx s0 ltac:(lia)) as Hle.
  pose proof (receiveAndValidate_remains (index l) mx s0) as Hr.
  destruct (receiveAndValidate (index l) mx s0) as [count s1].
  cbn [fst snd] in *. unfold remains in Hr. injection Hr as R1 R2 R3 R4.
  split.
  - unfold locals_ok. simpl.
    rewrite size_sub_small, size_add_small by lia. lia.
  - match goal with
    | |- counters_nonneg (if ?c then _ else _) => destruct c
    end; unfold counters_nonneg; simpl; rewrite ?R1, ?R2, ?R4;
      repeat split; try done; unfold size_sub; by apply Z.mod_pos_bound.
Qed.

Lemma stuff_loop_bounds fuel m l s :
  m < SIZE_MOD → locals_ok m l → counters_nonneg s →
  locals_ok m (stuff_loop fuel l s).1 ∧ counters_nonneg (stuff_loop fuel l s).2.
Proof.
  intros Hm. revert l s.
  induction fuel as [|fuel IH]; intros l s Hl Hs; [done|].
  rewrite stuff_loop_S.
  destruct (0 <? pkt_remain l); [|done].
  destruct (stuff_nulls_bounds m l s Hm Hl Hs) as [Hl1 Hs1].
  destruct (stuff_nulls l s) as [l1 s1]. cbn [fst snd] in *.
  destruct (pkt_remain l1 =? 0); [done|].
  destruct (stuff_input_bounds m l1 s1 Hm Hl1 Hs1) as [Hl2 Hs2].
  destruct (stuff_input l1 s1) as [[go l2] s2]. cbn [fst snd] in *.
  destruct go; [by apply IH|done].
Qed.

(** [receiveAndStuff] returns at most [max_packets]. *)
Lemma receiveAndStuff_bounds i0 m s :
  0 ≤ m < SIZE_MOD → counters_nonneg s →
  0 ≤ (receiveAndStuff i0 m s).1 ≤ m ∧
  counters_nonneg (receiveAndStuff i0 m s).2.
Proof.
  intros Hm Hs. unfold receiveAndStuff, receiveAndStuff_locals.
  destruct (start_loop_bounds (Z.to_nat m) m (mkStuff i0 m 0 0) s)
    as [Hl Hr]; [lia|unfold locals_ok; simpl; lia|].
  destruct (start_loop _ _ s) as [l s1]. cbn [fst snd] in *.
  pose proof (remains_nonneg s s1 Hr Hs) as Hs1.
  destruct Hl as (H1 & H2 & H3).
  destruct (instuff_inpkt (options s1) =? 0).
  - pose proof (receiveAndValidate_le (index l) (pkt_remain l) s1
                  ltac:(lia)) as Hle.
    pose proof (receiveAndValidate_remains (index l) (pkt_remain l) s1) as Hv.
    destruct (receiveAndValidate _ _ s1) as [n s2]. cbn [fst snd] in *.
    split; [|by apply (remains_nonneg s1)].
    simpl. destruct (n =? 0); [lia|].
    rewrite size_add_small by lia. lia.
  - destruct (stuff_loop_bounds (S (Z.to_nat m)) m l s1)
      as [(G1 & G2 & G3) Hs2]; [lia|done|done|].
    destruct (stuff_loop _ l s1) as [l2 s2]. cbn [fst snd] in *.
    split; [|done]. destruct (pkt_from_input l2 =? 0); lia.
Qed.

Lemma read_plugin_bounds c pf pm s :
  0 ≤ pm < SIZE_MOD → counters_nonneg s →
  0 ≤ (read_plugin c pf pm s).1.1 ≤ pm ∧
  counters_nonneg (read_plugin c pf pm s).2.
Proof.
  intros Hm Hs. unfold read_plugin.
  destruct (negb c); [|simpl; split; [lia|done]].
  pose proof (receiveAndStuff_bounds pf pm s Hm Hs) as Hb.
  by destruct (receiveAndStuff pf pm s) as [n s1].
Qed.

Lemma read_trailing_bounds c pf pm pr s :
  0 ≤ pr ≤ pm → pm < SIZE_MOD → counters_nonneg s →
  0 ≤ (read_trailing c pf pm pr s).1 ≤ pm ∧
  counters_nonneg (read_trailing c pf pm pr s).2.
Proof.
  intros Hpr Hm Hs. unfold read_trailing.
  destruct (_ && _) eqn:E; [|done].
  apply andb_prop in E as [E E3]. apply andb_prop in E as [_ E2].
  apply Z.ltb_lt in E2, E3.
  set (count := Z.min (instuff_stop_remain s) (size_sub pm pr)).
  assert (Hcount : 0 ≤ count ≤ pm - pr).
  { unfold count. rewrite size_sub_small by lia. lia. }
  pose proof (receiveNullPackets_remains (size_add pf pr) count s) as Hr.
  destruct (receiveNullPackets (size_add pf pr) count s) as [c1 s1] eqn:E.
  assert (c1 = count) as ->.
  { unfold receiveNullPackets in E. by injection E. }
  cbn [fst snd] in *. unfold remains in Hr. injection Hr as R1 R2 R3 R4.
  split; [rewrite size_add_small by lia; lia|].
  destruct Hs as (Hc1 & Hc2 & Hc3 & Hc4 & Hc5).
  unfold counters_nonneg. simpl. rewrite R2, R3, R4.
  repeat split; try done. unfold size_sub. by apply Z.mod_pos_bound.
Qed.

Lemma getBitrate_remains s : remains (getBitrate s).2 = remains s.
Proof.
  unfold getBitrate.
  destruct (negb _); [by destruct (_ =? 0)|].
  by destruct (negb (use_dts_analyzer s) && _).
Qed.

(** The periodic bitrate adjustment keeps the counters; in the ring it
    changes at most the bitrate of the input executor. *)
Lemma adjust_bitrate_ring t l s r l' s' r' :
  adjust_bitrate t l s r = Some (l', s', r') →
  remains s' = remains s ∧
  (r' = r ∨ ∃ b, r' = alter (set_tsp_bitrate b) 0%nat r).
Proof.
  unfold adjust_bitrate.
  destruct (opt_bitrate (options s) =? 0);
    [|intros [= <- <- <-]; split; [done|by left]].
  destruct (_ || _); [|intros [= <- <- <-]; split; [done|by left]].
  destruct (if own_tsp_bitrate r =? 0 then _ else _); [|done].
  pose proof (getBitrate_remains s) as Hg.
  destruct (getBitrate s) as [b s1]. cbn [snd] in Hg.
  destruct (0 <? b); intros [= <- <- <-].
  - split; [exact Hg|]. right. by exists b.
  - split; [exact Hg|by left].
Qed.

Lemma limit_input_bounds s pm : 0 ≤ pm → 0 ≤ limit_input s pm ≤ pm.
Proof.
  intros Hpm. unfold limit_input.
  destruct (0 <? _) eqn:E1; simpl; [|lia].
  destruct (_ <? pm) eqn:E2; [|lia].
  apply Z.ltb_lt in E1, E2. lia.
Qed.

(** A turn of the loop of [main] calls [passPackets] within its
    assertions: the ring stays reachable. *)
Lemma main_body_reachable cap env l (x : InputRun I A) w r e :
  buffer_fits cap → counters_nonneg (exec x) → reachable cap r →
  r !! 0%nat = Some e → w_first w = pkt_first e →
  0 ≤ w_cnt w ≤ pkt_cnt e → w_first w + w_cnt w ≤ cap →
  let res := main_body cap env l x w r in
  reachable cap (ring res.2) ∧ counters_nonneg (exec res.2).
Proof.
  intros Hfit Hs Hr He Hf Hcnt Hend res. subst res.
  pose proof (reachable_inv cap r Hfit Hr) as Hinv.
  destruct (buffer_fits_twice cap Hfit) as [Hc Hc2].
  pose proof (inv_range cap r Hinv 0%nat e He) as [Hfe Hce].
  pose proof (ring_inv_cnt_le cap r 0%nat e Hinv He) as Hle.
  destruct (w_aborted w) eqn:Hab.
  { unfold main_body. rewrite Hab. done. }
  destruct (w_timeout w) eqn:Hto.
  { unfold main_body. rewrite Hab, Hto. cbn [snd ring exec].
    split; [|done]. apply reach_pass; [done|lia|].
    unfold passPackets_asserts. rewrite He.
    rewrite size_add_small by lia.
    apply andb_true_intro. split; apply Z.leb_le; lia. }
  rewrite (main_body_run cap env l x w r Hab Hto). cbv zeta.
  set (pkt_max := limit_input (exec x) (w_cnt w)).
  pose proof (limit_input_bounds (exec x) (w_cnt w) ltac:(lia)) as Hmax.
  fold pkt_max in Hmax.
  destruct (read_plugin_bounds (plugin_completed l) (w_first w) pkt_max
              (exec x) ltac:(lia) Hs) as [Hn1 Hs1].
  destruct (read_plugin _ _ pkt_max (exec x)) as [[n c] s1].
  cbn [fst snd] in *.
  destruct (read_trailing_bounds c (w_first w) pkt_max n s1
              ltac:(lia) ltac:(lia) Hs1) as [Hn2 Hs2].
  destruct (read_trailing c _ pkt_max n s1) as [n2 s2]. cbn [fst snd] in *.
  destruct (adjust_bitrate _ _ s2 r) as [[[l3 s3] r3]|] eqn:Ea;
    cbn [snd ring exec]; [|done].
  destruct (adjust_bitrate_ring _ _ _ _ _ _ _ Ea) as [Hrem Hr3].
  split; [|by apply (remains_nonneg s2)].
  assert (Hr3' : reachable cap r3 ∧
            ∃ e3, r3 !! 0%nat = Some e3 ∧ pkt_first e3 = pkt_first e
                  ∧ pkt_cnt e3 = pkt_cnt e).
  { destruct Hr3 as [->|[b ->]].
    - split; [done|]. by exists e.
    - split; [by apply reach_bitrate|].
      exists (set_tsp_bitrate b e).
      by rewrite list_lookup_alter_eq, He. }
  destruct Hr3' as (Hreach & e3 & He3 & Hf3 & Hc3).
  apply reach_pass; [done|lia|].
  unfold passPackets_asserts. rewrite He3, Hf3, Hc3.
  rewrite size_add_small by lia.
  apply andb_true_intro. split; apply Z.leb_le; lia.
Qed.

Lemma main_iteration_reachable cap env l (x : InputRun I A) :
  buffer_fits cap → counters_nonneg (exec x) → reachable cap (ring x) →
  Forall (λ ev, reachable cap (ring_then ev)) (wait_events env) →
  let res := main_iteration cap env l x in
  reachable cap (ring res.2) ∧ counters_nonneg (exec res.2).
Proof.
  intros Hfit Hs Hr Hevs res. subst res. unfold main_iteration.
  destruct (waitWork cap 0 (ring x) (wait_events env)) as [[w r]|] eqn:Hw;
    [|done].
  destruct (waitWork_window cap 0 (ring x) _ w r Hfit Hr Hevs Hw)
    as (Hr' & e & He & Hf & Hcnt & Hpos & Hend & _).
  pose proof (inv_range cap r (reachable_inv cap r Hfit Hr') 0%nat e He)
    as [_ Hce].
  apply (main_body_reachable cap env l x w r e); try done.
  destruct (w_timeout w); lia.
Qed.

Lemma main_loop_reachable cap envs l (x : InputRun I A) :
  buffer_fits cap → counters_nonneg (exec x) → reachable cap (ring x) →
  Forall (λ env, Forall (λ ev, reachable cap (ring_then ev)) (wait_events env))
         envs →
  let res := main_loop cap envs l x in
  reachable cap (ring res.2) ∧ counters_nonneg (exec res.2).
Proof.
  intros Hfit. revert l x.
  induction envs as [|env envs IH]; intros l x Hs Hr Hevs; [done|].
  apply Forall_cons in Hevs as [Hev Hevs]. simpl.
  pose proof (main_iteration_reachable cap env l x Hfit Hs Hr Hev) as Hit.
  destruct (main_iteration cap env l x) as [[st l1] x1].
  cbn [fst snd] in Hit. destruct Hit as [Hr1 Hs1].
  destruct st; try done. by apply IH.
Qed.

(** The whole of [main] keeps the ring reachable. *)
Lemma main_reachable cap t envs (x : InputRun I A) :
  buffer_fits cap → counters_nonneg (exec x) → reachable cap (ring x) →
  Forall (λ env, Forall (λ ev, reachable cap (ring_then ev)) (wait_events env))
         envs →
  reachable cap (ring (main cap t envs x).2).
Proof.
  intros Hfit Hs Hr Hevs. unfold main.
  match goal with
  | |- context [main_loop cap envs ?l0 ?x0] =>
      pose proof (main_loop_reachable cap envs l0 x0 Hfit Hs Hr Hevs) as Hl;
      destruct (main_loop cap envs l0 x0) as [[st l1] x1]
  end.
  cbn [fst snd] in Hl. destruct Hl as [Hr1 _]. by destruct st.
Qed.

Lemma initAllBuffers_ring_init cap p b (f : PluginExecutor → PluginExecutor)
    e0 (t : Ring) :
  ptype (f e0) = ptype e0 → to_do (f e0) = to_do e0 → t ≠ [] →
  initAllBuffers_ring cap p b (f e0 :: t) = initAllBuffers_ring cap p b (e0 :: t).
Proof.
  intros Hp Ht Hne. destruct t as [|e1 t]; [done|].
  unfold initAllBuffers_ring.
  assert (Hnx : ∀ y, ringNext (y :: e1 :: t) 0 = 1%nat).
  { intros y. unfold ringNext. apply Nat.mod_small. simpl. lia. }
  rewrite !Hnx. simpl. unfold initBuffer. by rewrite Hp, Ht.
Qed.

(** A successful [initAllBuffers] sets a reachable state of the ring. *)
Lemma initAllBuffers_reachable cap nproc (x x' : InputRun I A) :
  buffer_fits cap → counters_nonneg (exec x) → ring x = new_ring nproc →
  initAllBuffers cap x = (true, x') →
  reachable cap (ring x') ∧ counters_nonneg (exec x').
Proof.
  intros Hfit Hs Hring. unfold initAllBuffers.
  destruct (buffer_fits_twice cap Hfit) as [Hc Hc2].
  assert (Hhalf : 0 ≤ cap / 2 < SIZE_MOD).
  { pose proof (Z.mul_div_le cap 2). pose proof (Z.div_pos cap 2). lia. }
  destruct (receiveAndStuff_bounds 0 (cap / 2) (exec x) Hhalf Hs) as [Hn Hs1].
  destruct (receiveAndStuff 0 (cap / 2) (exec x)) as [pkt_read s1].
  cbn [fst snd] in *.
  destruct (pkt_read =? 0) eqn:E; [done|]. apply Z.eqb_neq in E.
  pose proof (getBitrate_remains (input_log (DbgInitialLoad pkt_read) s1)) as Hg.
  destruct (getBitrate _) as [b s2]. cbn [snd] in Hg.
  intros [= <-]. cbn [ring exec]. split.
  - rewrite Hring. unfold new_ring. simpl alter.
    rewrite initAllBuffers_ring_init; [|done|done|by destruct nproc].
    apply (reach_init cap nproc pkt_read b). lia.
  - apply (remains_nonneg s1); [exact Hg|done].
Qed.

(** The ring stays reachable all along a run of the input thread. *)
Lemma run_input_reachable cap t envs nproc (x : InputRun I A) res :
  buffer_fits cap → counters_nonneg (exec x) → ring x = new_ring nproc →
  Forall (λ env, Forall (λ ev, reachable cap (ring_then ev)) (wait_events env))
         envs →
  run_input cap t envs x = Some res → reachable cap (ring res.2).
Proof.
  intros Hfit Hs Hring Hevs. unfold run_input.
  destruct (initAllBuffers cap x) as [ok x1] eqn:Ei.
  destruct ok; [|done]. intros [= <-].
  destruct (initAllBuffers_reachable cap nproc x x1 Hfit Hs Hring Ei)
    as [Hr1 Hs1].
  by apply main_reachable.
Qed.
End InputBounds.

Lemma list_input_bounded : receive_bounded ListInput.
Proof.
  intros p m Hm. simpl. rewrite length_fmap, length_take. lia.
Qed.

(** ** Disjointness of the windows in every reachable state *)

Section WindowDisjointness.
Context {I A : Type} `{InputPlugin I} `{Analyzer A}.

(** C1. In every reachable state of the ring, the windows of two distinct
    executors have no slot in common and the sizes of all windows sum to at
    most the size of the buffer.  In particular the state set by
    [initAllBuffers] has this property, for the ring part of the function
    after any initial load of at most half of the buffer as for the whole
    function whenever it succeeds, and every call to [passPackets] with a
    count within the window of the caller keeps the sum: it subtracts the
    count from the size of the window of the caller and adds it to the size
    of the window of its successor in the ring. *)
Theorem window_disjointness cap :
  buffer_fits cap →
  (∀ r, reachable cap r → windows_disjoint cap r ∧ sum_cnt r ≤ cap) ∧
  (∀ nproc pkt_read init_bitrate, 0 < pkt_read ≤ cap / 2 →
     let r := initAllBuffers_ring cap pkt_read init_bitrate (new_ring nproc) in
     windows_disjoint cap r ∧ sum_cnt r ≤ cap) ∧
  (∀ nproc (x x' : InputRun I A),
     receive_bounded I → counters_nonneg (exec x) →
     ring x = new_ring nproc → initAllBuffers cap x = (true, x') →
     windows_disjoint cap (ring x') ∧ sum_cnt (ring x') ≤ cap) ∧
  (∀ r i e nx count br iend aborted,
     reachable cap r →
     r !! i = Some e → r !! ringNext r i = Some nx →
     0 ≤ count ≤ pkt_cnt e →
     let r' := (passPackets cap i count br iend aborted r).1 in
     sum_cnt r' = sum_cnt r ∧
     pkt_cnt <$> r' !! i = Some (pkt_cnt e - count) ∧
     pkt_cnt <$> r' !! ringNext r i = Some (pkt_cnt nx + count)).
Proof.
  intros Hfit.
  assert (Hreach : ∀ r, reachable cap r → windows_disjoint cap r ∧ sum_cnt r ≤ cap).
  { intros r Hr. pose proof (reachable_inv cap r Hfit Hr) as Hinv.
    split; [by apply ring_inv_disjoint|].
    rewrite (inv_sum cap r Hinv). lia. }
  split; [done|]. split; [|split].
  - intros nproc p b Hp r. apply Hreach. by apply reach_init.
  - intros nproc x x' Hb Hs Hring Hinit. apply Hreach.
    by destruct (initAllBuffers_reachable Hb cap nproc x x' Hfit Hs Hring Hinit).
  - intros r i e nx count br iend aborted Hr He Hnx Hcount r'.
    pose proof (reachable_inv cap r Hfit Hr) as Hinv.
    pose proof (inv_len cap r Hinv) as Hn.
    assert (Hi : (i < length r)%nat) by (by eapply lookup_lt_Some).
    destruct (passPackets_no_wrap cap r i e nx count Hfit Hinv He Hnx Hcount)
      as (Ha & Hs & Hb & Hle).
    pose proof (ringNext_ne r i Hn Hi) as Hne.
    split; [|split].
    + unfold r'. rewrite (sum_cnt_passPackets _ _ _ _ _ _ _ e nx Hn He Hnx).
      lia.
    + destruct (lookup_lt_is_Some_2 r' i) as [e' He'].
      { unfold r'. by rewrite length_passPackets. }
      rewrite He'. simpl. f_equal.
      destruct (passPackets_lookup _ _ _ _ _ _ _ _ _ Hn Hi He')
        as (e1 & He1 & _ & _ & Hcnt).
      rewrite decide_True in Hcnt by done. simplify_eq. lia.
    + destruct (lookup_lt_is_Some_2 r' (ringNext r i)) as [e' He'].
      { unfold r'. rewrite length_passPackets. by apply ringNext_lt. }
      rewrite He'. simpl. f_equal.
      destruct (passPackets_lookup _ _ _ _ _ _ _ _ _ Hn Hi He')
        as (e1 & He1 & _ & _ & Hcnt).
      rewrite decide_False, decide_True in Hcnt by done. simplify_eq. lia.
Qed.
End WindowDisjointness.

Lemma window_disjointness_witness :
  buffer_fits 8 ∧
  windows_disjoint 8 ring_2_4 ∧ sum_cnt ring_2_4 ≤ 8.
Proof.
  split; [exact buffer_fits_8|].
  exact (proj1 (@window_disjointness ListInput FixedAnalyzer _ _ 8
                  buffer_fits_8) ring_2_4 reachable_ring_2_4).
Defined.

(** ** Witnesses for the restart and for the calls with stuffing only *)

Lemma sample_keeps_args : plugin_keeps_args SamplePlugin.
Proof.
  split; try done.
  intros p. simpl. by destruct (sample_valid p.1).
Qed.

Lemma restart_fallback_witness :
  (processPendingRestart sample_restart).1 = true ∧
  p_getCommandArgs (plugin (processPendingRestart sample_restart).2)
  = ["-a"%string] ∧
  restart_flag (processPendingRestart sample_restart).2 = false.
Proof.
  pose proof (restart_fallback sample_restart 0
                (mkRestartData [] false ["--bad"%string] false 0)
                sample_keeps_args eq_refl eq_refl eq_refl eq_refl
                eq_refl) as (H1 & _ & H3 & _ & _ & H6 & _).
  split; [exact H1|]. split; [exact H3|exact H6].
Defined.

Lemma list_input_size_t : receive_size_t ListInput.
Proof.
  intros p m Hm. simpl. rewrite length_fmap, length_take.
  unfold SIZE_MOD in *. lia.
Qed.

Lemma stuffing_only_is_completion_witness :
  total_packets (receiveAndStuff 0 4 (exec empty_start)).2 = 3 ∧
  (receiveAndStuff 0 4 (exec empty_start)).1 = 0.
Proof.
  split; [reflexivity|].
  apply (proj1 (stuffing_only_is_completion list_input_size_t)).
  - unfold SIZE_MOD. lia.
  - unfold SIZE_MOD. simpl. lia.
  - reflexivity.
Defined.

(* ===================================================================== *)
(** * Further properties *)

(** ** More on the hand-off of packets and on aborts *)

Lemma ringPrevious_lt (r : Ring) i :
  (i < length r)%nat → (ringPrevious r i < length r)%nat.
Proof. intros Hi. unfold ringPrevious. apply Nat.mod_upper_bound. lia. Qed.

Lemma ringPrevious_ne (r : Ring) i :
  (2 ≤ length r)%nat → (i < length r)%nat → ringPrevious r i ≠ i.
Proof.
  intros Hn Hi. unfold ringPrevious.
  destruct i as [|i].
  - rewrite Nat.add_0_l, Nat.mod_small by lia. lia.
  - replace (S i + length r - 1)%nat with (i + 1 * length r)%nat by lia.
    rewrite Nat.Div0.mod_add, Nat.mod_small by lia. lia.
Qed.

Lemma ringNext_ringPrevious (r : Ring) i :
  (i < length r)%nat → ringNext r (ringPrevious r i) = i.
Proof.
  intros Hi. unfold ringNext, ringPrevious.
  destruct i as [|i].
  - rewrite Nat.add_0_l.
    destruct (decide (length r = 1%nat)) as [E|E].
    + rewrite E. done.
    + rewrite (Nat.mod_small (length r - 1)) by lia.
      replace (S (length r - 1)) with (length r) by lia.
      by rewrite Nat.Div0.mod_same.
  - replace (S i + length r - 1)%nat with (i + 1 * length r)%nat by lia.
    rewrite Nat.Div0.mod_add, (Nat.mod_small i) by lia.
    by rewrite Nat.mod_small by lia.
Qed.

(** The cell of the caller and the value returned by [passPackets]. *)
Lemma passPackets_caller cap i count br iend aborted (r : Ring) e nx :
  (2 ≤ length r)%nat →
  r !! i = Some e → r !! ringNext r i = Some nx →
  let ab := if is_output (ptype e) then aborted
            else aborted || tsp_aborting nx in
  (passPackets cap i count br iend aborted r).2 = negb iend && negb ab ∧
  (passPackets cap i count br iend aborted r).1 !! i
  = Some (if ab then set_aborting (pass_own cap count e)
          else pass_own cap count e).
Proof.
  intros Hn He Hnx ab.
  assert (Hi : (i < length r)%nat) by (by eapply lookup_lt_Some).
  pose proof (ringNext_ne r i Hn Hi) as Hne.
  pose proof (ringPrevious_ne r i Hn Hi) as Hpe.
  unfold passPackets. cbv zeta. cbn [fst snd].
  assert (H2 : alter (pass_next count br iend) (ringNext r i)
                 (alter (pass_own cap count) i r) !! i
               = Some (pass_own cap count e)).
  { rewrite list_lookup_alter_ne by done.
    by rewrite list_lookup_alter_eq, He. }
  assert (H3 : alter (pass_next count br iend) (ringNext r i)
                 (alter (pass_own cap count) i r) !! ringNext r i
               = Some (pass_next count br iend nx)).
  { rewrite list_lookup_alter_eq, list_lookup_alter_ne by done.
    by rewrite Hnx. }
  rewrite H2, H3. cbn [from_option pass_own pass_next ptype tsp_aborting].
  fold ab. split; [done|].
  destruct ab; [|done].
  rewrite list_lookup_alter_ne by done.
  by rewrite list_lookup_alter_eq, H2.
Qed.

(** What [passPackets] does with the abort of the successor when the
    caller is not the output executor. *)
Lemma passPackets_not_output cap i count br iend aborted (r : Ring) e nx :
  (2 ≤ length r)%nat →
  r !! i = Some e → r !! ringNext r i = Some nx →
  ptype e ≠ OUTPUT_PLUGIN →
  let res := passPackets cap i count br iend aborted r in
  res.2 = negb iend && negb (aborted || tsp_aborting nx) ∧
  tsp_aborting <$> res.1 !! i
  = Some (tsp_aborting e || aborted || tsp_aborting nx) ∧
  tsp_aborting <$> res.1 !! ringNext r i = Some (tsp_aborting nx).
Proof.
  intros Hn He Hnx Ht res. subst res.
  assert (Hi : (i < length r)%nat) by (by eapply lookup_lt_Some).
  destruct (passPackets_caller cap i count br iend aborted r e nx Hn He Hnx)
    as [Hb Hc].
  assert (Hout : is_output (ptype e) = false) by (by destruct (ptype e)).
  rewrite Hout in Hb, Hc.
  split; [exact Hb|]. split.
  - rewrite Hc. destruct (aborted || tsp_aborting nx) eqn:E; simpl.
    + by rewrite <- orb_assoc, E, orb_true_r.
    + by rewrite <- orb_assoc, E, orb_false_r.
  - apply passPackets_other_aborting; [|done].
    by apply ringNext_ne.
Qed.

(** X1. [passPackets] called by an executor which is not the output
    executor inherits the abort of its successor in the ring: it returns
    false as soon as the end of input is passed, the caller aborts or the
    successor is aborting; the aborting flag of the caller is set when the
    caller aborts or the successor is aborting, and the flag of the
    successor does not change. *)
Theorem passPackets_inherits_abort cap i count br iend aborted (r : Ring) e nx :
  (2 ≤ length r)%nat →
  r !! i = Some e → r !! ringNext r i = Some nx →
  ptype e ≠ OUTPUT_PLUGIN →
  let res := passPackets cap i count br iend aborted r in
  res.2 = negb iend && negb (aborted || tsp_aborting nx) ∧
  tsp_aborting <$> res.1 !! i
  = Some (tsp_aborting e || aborted || tsp_aborting nx) ∧
  tsp_aborting <$> res.1 !! ringNext r i = Some (tsp_aborting nx).
Proof. apply passPackets_not_output. Qed.

Lemma passPackets_inherits_abort_witness :
  (passPackets 8 0 0 0 false false
     (passPackets 8 1 0 0 false true
        (initAllBuffers_ring 8 4 0 (new_ring 1))).1).2 = false.
Proof.
  apply (passPackets_inherits_abort 8 0 0 0 false false
           (passPackets 8 1 0 0 false true
              (initAllBuffers_ring 8 4 0 (new_ring 1))).1
           (mkExec INPUT_PLUGIN 4 4 false 0 0 false 1)
           (mkExec PROCESSOR_PLUGIN 0 4 false 0 0 true 0)).
  - simpl. lia.
  - reflexivity.
  - reflexivity.
  - discriminate.
Defined.

Lemma passPackets_ptype cap i count br iend aborted (r : Ring) k :
  ptype <$> (passPackets cap i count br iend aborted r).1 !! k
  = ptype <$> r !! k.
Proof.
  unfold passPackets. cbv zeta. cbn [fst].
  case_abort; by rewrite !lookup_alter_keeps by done.
Qed.

Lemma drain_S cap a k (r : Ring) :
  drain cap a (S k) r
  = let '(count, br, iend, aborted) := a k in
    let '(r1, b) := passPackets cap k count br iend aborted r in
    let '(r2, bs) := drain cap a k r1 in
    (r2, b :: bs).
Proof. reflexivity. Qed.

Lemma drain_length cap a k (r : Ring) :
  length (drain cap a k r).1 = length r ∧ length (drain cap a k r).2 = k.
Proof.
  revert r. induction k as [|k IH]; intros r; [done|]. rewrite drain_S.
  destruct (a k) as [[[count br] iend] aborted].
  pose proof (length_passPackets cap k count br iend aborted r) as Hl.
  destruct (passPackets cap k count br iend aborted r) as [r1 b].
  destruct (IH r1) as [IH1 IH2].
  destruct (drain cap a k r1) as [r2 bs]. cbn [fst snd length] in *.
  split; [by rewrite IH1|by rewrite IH2].
Qed.

(** The calls of the executors before [k] leave the aborting flags and
    the types of the executors from [k] on as they are. *)
Lemma drain_above cap a k (r : Ring) j :
  (k ≤ j)%nat →
  tsp_aborting <$> (drain cap a k r).1 !! j = tsp_aborting <$> r !! j.
Proof.
  revert r. induction k as [|k IH]; intros r Hj; [done|]. rewrite drain_S.
  destruct (a k) as [[[count br] iend] aborted].
  assert (H1 : tsp_aborting <$>
            (passPackets cap k count br iend aborted r).1 !! j
            = tsp_aborting <$> r !! j).
  { destruct (r !! j) as [e|] eqn:E.
    - apply passPackets_other_aborting; [lia|done].
    - apply lookup_ge_None in E.
      assert (Hn : (passPackets cap k count br iend aborted r).1 !! j = None).
      { apply lookup_ge_None. by rewrite length_passPackets. }
      by rewrite Hn. }
  destruct (passPackets cap k count br iend aborted r) as [r1 b].
  specialize (IH r1 ltac:(lia)).
  destruct (drain cap a k r1) as [r2 bs]. simpl in *. congruence.
Qed.

Lemma drain_ptype cap a k (r : Ring) j :
  ptype <$> (drain cap a k r).1 !! j = ptype <$> r !! j.
Proof.
  revert r. induction k as [|k IH]; intros r; [done|]. rewrite drain_S.
  destruct (a k) as [[[count br] iend] aborted].
  pose proof (passPackets_ptype cap k count br iend aborted r j) as H1.
  destruct (passPackets cap k count br iend aborted r) as [r1 b].
  specialize (IH r1).
  destruct (drain cap a k r1) as [r2 bs]. simpl in *. congruence.
Qed.

(** X2. An abort propagates upstream, one executor per call.  When the
    executor at position [k] is aborting and the executors before it, none
    of which is the output executor, call [passPackets] one after the other
    from position [k - 1] down to the input executor, whatever they pass,
    every one of these calls returns false and all the executors up to
    position [k] are aborting in the end. *)
Theorem abort_propagates_upstream cap a k (r : Ring) :
  (k < length r)%nat →
  (∀ i e, (i < k)%nat → r !! i = Some e → ptype e ≠ OUTPUT_PLUGIN) →
  tsp_aborting <$> r !! k = Some true →
  let res := drain cap a k r in
  (∀ i, (i ≤ k)%nat → tsp_aborting <$> res.1 !! i = Some true) ∧
  res.2 = replicate k false.
Proof.
  revert r. induction k as [|k IH]; intros r Hk Hty Hab res; subst res.
  { simpl. split; [|done]. intros i Hi. by replace i with 0%nat by lia. }
  rewrite drain_S. destruct (a k) as [[[count br] iend] aborted].
  destruct (lookup_lt_is_Some_2 r k ltac:(lia)) as [e He].
  destruct (r !! S k) as [nx|] eqn:Hnx; [|done].
  injection Hab as Hab.
  assert (Hnext : ringNext r k = S k).
  { unfold ringNext. apply Nat.mod_small. lia. }
  destruct (passPackets_not_output cap k count br iend aborted r e nx)
    as (Hb & Hc & Hd);
    [lia|done|by rewrite Hnext|apply (Hty k e); [lia|done]|].
  rewrite Hab, !orb_true_r in Hb, Hc. rewrite andb_false_r in Hb.
  pose proof (length_passPackets cap k count br iend aborted r) as Hlen.
  assert (Hty1 : ∀ i e1, (i < k)%nat →
            (passPackets cap k count br iend aborted r).1 !! i = Some e1 →
            ptype e1 ≠ OUTPUT_PLUGIN).
  { intros i e1 Hi He1.
    pose proof (passPackets_ptype cap k count br iend aborted r i) as Hp.
    rewrite He1 in Hp. simpl in Hp.
    destruct (r !! i) as [e0|] eqn:E0; [|done].
    injection Hp as ->. apply (Hty i); [lia|done]. }
  assert (HSk : tsp_aborting <$>
            (passPackets cap k count br iend aborted r).1 !! S k = Some true).
  { rewrite Hnext in Hd. by rewrite Hd, Hab. }
  destruct (passPackets cap k count br iend aborted r) as [r1 b].
  cbn [fst snd] in *. subst b.
  destruct (IH r1) as [IH1 IH2]; [lia|done|done|].
  pose proof (drain_above cap a k r1 (S k) ltac:(lia)) as Habove.
  destruct (drain cap a k r1) as [r2 bs]. cbn [fst snd] in *.
  split; [|by rewrite IH2].
  intros i Hi. destruct (decide (i = S k)) as [->|Hne].
  - by rewrite Habove.
  - apply IH1. lia.
Qed.

Lemma abort_propagates_upstream_witness :
  (drain 8 (λ _, (0, 0, false, false)) 1
     (passPackets 8 1 0 0 false true
        (initAllBuffers_ring 8 4 0 (new_ring 1))).1).2 = [false].
Proof.
  apply (abort_propagates_upstream 8 (λ _, (0, 0, false, false)) 1
           (passPackets 8 1 0 0 false true
              (initAllBuffers_ring 8 4 0 (new_ring 1))).1).
  - simpl. lia.
  - intros [|i] e Hi; [|lia]. intros [= <-]. discriminate.
  - reflexivity.
Defined.

(** [waitWork] when the condition of its loop does not hold at once. *)
Lemma waitWork_no_wait cap i (r : Ring) e nx evs :
  r !! i = Some e → r !! ringNext r i = Some nx →
  must_wait i false r = Some false →
  waitWork cap i r evs
  = Some (mkWork (pkt_first e)
                 (Z.min (pkt_cnt e) (size_sub cap (pkt_first e)))
                 (bitrate e)
                 (input_end e
                  && (Z.min (pkt_cnt e) (size_sub cap (pkt_first e))
                      =? pkt_cnt e))
                 (negb (is_output (ptype e)) && tsp_aborting nx)
                 false 0, r).
Proof.
  intros He Hnx Hm. unfold waitWork.
  assert (Hloop : waitWork_loop i false 0 r evs = Some (false, 0%nat, r)).
  { destruct evs; simpl; by rewrite Hm. }
  by rewrite Hloop, He, Hnx.
Qed.

Lemma setAbort_lookup i (r : Ring) k :
  (2 ≤ length r)%nat → (i < length r)%nat →
  setAbort i r !! k
  = (λ e, if decide (k = i) then set_aborting e
          else if decide (k = ringPrevious r i) then signal e else e)
    <$> r !! k.
Proof.
  intros Hn Hi. pose proof (ringPrevious_ne r i Hn Hi) as Hne.
  unfold setAbort.
  destruct (decide (k = i)) as [->|Hki].
  - rewrite list_lookup_alter_ne, list_lookup_alter_eq by done.
    by destruct (r !! i).
  - destruct (decide (k = ringPrevious r i)) as [->|Hkp].
    + rewrite list_lookup_alter_eq, list_lookup_alter_ne by done.
      by destruct (r !! ringPrevious r i).
    + rewrite !list_lookup_alter_ne by done. by destruct (r !! k).
Qed.

(** X3. [setAbort] sets the aborting flag of the calling executor and
    signals the condition of its predecessor in the ring, and nothing else:
    the windows, the ends of input and the bitrates of all executors stay
    what they were.  After it, [waitWork] of the predecessor returns at
    once, and reports [aborted] unless this predecessor is the output
    executor. *)
Theorem setAbort_wakes_predecessor cap i (r : Ring) e ep evs :
  (2 ≤ length r)%nat →
  r !! i = Some e → r !! ringPrevious r i = Some ep →
  let r' := setAbort i r in
  r' !! i = Some (set_aborting e) ∧
  r' !! ringPrevious r i = Some (signal ep) ∧
  (∀ k, (λ x, (ptype x, pkt_first x, pkt_cnt x, input_end x, bitrate x,
               tsp_bitrate x)) <$> r' !! k
        = (λ x, (ptype x, pkt_first x, pkt_cnt x, input_end x, bitrate x,
                 tsp_bitrate x)) <$> r !! k) ∧
  (∀ k, k ≠ i → tsp_aborting <$> r' !! k = tsp_aborting <$> r !! k) ∧
  ∃ w, waitWork cap (ringPrevious r i) r' evs = Some (w, r') ∧
       w_waits w = 0%nat ∧ w_timeout w = false ∧
       w_aborted w = negb (is_output (ptype ep)).
Proof.
  intros Hn He Hp r'.
  assert (Hi : (i < length r)%nat) by (by eapply lookup_lt_Some).
  pose proof (ringPrevious_ne r i Hn Hi) as Hne.
  assert (Hi' : r' !! i = Some (set_aborting e)).
  { unfold r'. rewrite setAbort_lookup, He by done. simpl.
    by rewrite decide_True. }
  assert (Hp' : r' !! ringPrevious r i = Some (signal ep)).
  { unfold r'. rewrite setAbort_lookup, Hp by done. simpl.
    by rewrite decide_False, decide_True. }
  split; [done|]. split; [done|]. split; [|split].
  - intros k. unfold r'. rewrite setAbort_lookup by done.
    destruct (r !! k) as [x|]; [|done]. simpl.
    by repeat case_decide.
  - intros k Hk. unfold r'. rewrite setAbort_lookup by done.
    destruct (r !! k) as [x|]; [|done]. simpl.
    rewrite decide_False by done. by case_decide.
  - assert (Hnext : ringNext r' (ringPrevious r i) = i).
    { unfold ringNext, r', setAbort. rewrite !length_alter.
      by apply ringNext_ringPrevious. }
    eexists. split.
    + apply (waitWork_no_wait cap _ r' (signal ep) (set_aborting e));
        [done|by rewrite Hnext|].
      unfold must_wait. rewrite Hp', Hnext, Hi'. simpl.
      by rewrite andb_false_r.
    + simpl. by rewrite andb_true_r.
Qed.

Lemma setAbort_wakes_predecessor_witness :
  ∃ w, waitWork 8 0 (setAbort 1 ring_2_4) [] = Some (w, setAbort 1 ring_2_4) ∧
       w_waits w = 0%nat ∧ w_timeout w = false ∧ w_aborted w = true.
Proof.
  apply (setAbort_wakes_predecessor 8 1 ring_2_4
           (mkExec OUTPUT_PLUGIN 0 4 false 0 0 false 0)
           (mkExec INPUT_PLUGIN 4 4 false 0 0 false 0) []).
  - simpl. lia.
  - reflexivity.
  - reflexivity.
Defined.

(** X4. A timeout of the wait which the plugin does not handle ends
    [waitWork]: it reports [timeout] and a count of 0 packets, whatever the
    window of the executor has become in the meantime. *)
Theorem waitWork_timeout cap i (r : Ring) ev evs e' nx' :
  idle i r →
  woken ev = false → handled ev = false →
  ring_then ev !! i = Some e' →
  ring_then ev !! ringNext (ring_then ev) i = Some nx' →
  ∃ w, waitWork cap i r (ev :: evs) = Some (w, ring_then ev) ∧
       w_timeout w = true ∧ w_cnt w = 0 ∧ w_waits w = 1%nat ∧
       w_first w = pkt_first e' ∧
       w_input_end w = input_end e' && (0 =? pkt_cnt e').
Proof.
  intros Hidle Hw Hh He' Hnx'. unfold idle in Hidle. unfold waitWork.
  assert (Hloop : waitWork_loop i false 0 r (ev :: evs)
                  = Some (true, 1%nat, ring_then ev)).
  { simpl. rewrite Hidle, Hw, Hh. simpl.
    assert (Hm : must_wait i true (ring_then ev) = Some false).
    { unfold must_wait. rewrite He', Hnx'. simpl.
      by rewrite andb_false_r. }
    destruct evs; simpl; by rewrite Hm. }
  rewrite Hloop, He', Hnx'. eexists. split; [done|]. done.
Qed.

Lemma waitWork_timeout_witness :
  ∃ w, waitWork 8 0 ring_full [mkWaitEvent false false ring_2_4]
       = Some (w, ring_2_4) ∧
       w_timeout w = true ∧ w_cnt w = 0.
Proof.
  destruct (waitWork_timeout 8 0 ring_full
              (mkWaitEvent false false ring_2_4) []
              (mkExec INPUT_PLUGIN 4 4 false 0 0 false 0)
              (mkExec OUTPUT_PLUGIN 0 4 false 0 0 false 0))
    as (w & H1 & H2 & H3 & _); try reflexivity.
  exists w. by split.
Defined.

Lemma waitWork_loop_goes_on i n (r : Ring) evs1 evs2 :
  idle i r →
  Forall (λ ev, goes_on ev = true ∧ idle i (ring_then ev)) evs1 →
  waitWork_loop i false n r (evs1 ++ evs2)
  = waitWork_loop i false (n + length evs1)
      (default r (last (r :: (ring_then <$> evs1)))) evs2.
Proof.
  revert n r. induction evs1 as [|ev evs1 IH]; intros n r Hidle Hall.
  - simpl. by rewrite Nat.add_0_r.
  - apply Forall_cons in Hall as [[Hgo Hev] Hall].
    cbn [app waitWork_loop]. unfold idle in Hidle. rewrite Hidle.
    assert (Ht : negb (woken ev) && negb (handled ev) = false).
    { unfold goes_on in Hgo. by destruct (woken ev), (handled ev). }
    rewrite Ht, (IH (S n) (ring_then ev) Hev Hall).
    cbn [length fmap list_fmap].
    replace (S n + length evs1)%nat with (n + S (length evs1))%nat by lia.
    f_equal. rewrite !last_cons.
    by destruct (last (ring_then <$> evs1)).
Qed.

Lemma idle_last i (r : Ring) evs1 :
  idle i r →
  Forall (λ ev, goes_on ev = true ∧ idle i (ring_then ev)) evs1 →
  idle i (default r (last (r :: (ring_then <$> evs1)))).
Proof.
  revert r. induction evs1 as [|ev1 evs1 IH]; intros r Hidle Hall; [done|].
  apply Forall_cons in Hall as [[_ Hev] Hall].
  specialize (IH (ring_then ev1) Hev Hall).
  cbn [fmap list_fmap]. rewrite last_cons.
  destruct (last (ring_then ev1 :: (ring_then <$> evs1))) eqn:E; [done|].
  by rewrite last_cons in E; destruct (last (ring_then <$> evs1)).
Qed.

(** X5. [waitWork] waits as long as there is nothing to do.  An executor
    which has nothing to do (an empty window, no end of input, a successor
    which is not aborting) stays blocked in [waitWork] through every
    wake-up which finds it in the same situation, by a signal or by a
    timeout which the plugin handles; it returns at the first wake-up which
    finds something to do, without timeout, having waited once per
    wake-up. *)
Theorem waitWork_waits cap i (r : Ring) evs1 ev evs2 e nx :
  idle i r →
  Forall (λ ev, goes_on ev = true ∧ idle i (ring_then ev)) evs1 →
  waitWork cap i r evs1 = None ∧
  (goes_on ev = true →
   ring_then ev !! i = Some e →
   ring_then ev !! ringNext (ring_then ev) i = Some nx →
   must_wait i false (ring_then ev) = Some false →
   ∃ w, waitWork cap i r (evs1 ++ ev :: evs2) = Some (w, ring_then ev) ∧
        w_waits w = S (length evs1) ∧ w_timeout w = false ∧
        w_first w = pkt_first e ∧
        w_cnt w = Z.min (pkt_cnt e) (size_sub cap (pkt_first e))).
Proof.
  intros Hidle Hall.
  pose proof (idle_last i r evs1 Hidle Hall) as Hlast. unfold idle in Hlast.
  split.
  - unfold waitWork.
    pose proof (waitWork_loop_goes_on i 0 r evs1 [] Hidle Hall) as Hl.
    rewrite app_nil_r in Hl. rewrite Hl. cbn [waitWork_loop].
    by rewrite Hlast.
  - intros Hgo He Hnx Hm. unfold waitWork.
    rewrite (waitWork_loop_goes_on i 0 r evs1 (ev :: evs2) Hidle Hall).
    cbn [waitWork_loop]. rewrite Hlast.
    assert (Ht : negb (woken ev) && negb (handled ev) = false).
    { unfold goes_on in Hgo. by destruct (woken ev), (handled ev). }
    rewrite Ht.
    assert (Hl2 : waitWork_loop i false (S (0 + length evs1)) (ring_then ev) evs2
                  = Some (false, S (length evs1), ring_then ev)).
    { destruct evs2; simpl; by rewrite Hm. }
    rewrite Hl2, He, Hnx. eexists. split; [done|]. done.
Qed.

Lemma waitWork_waits_witness :
  waitWork 8 0 ring_full [mkWaitEvent true false ring_full] = None.
Proof.
  apply (waitWork_waits 8 0 ring_full [mkWaitEvent true false ring_full]
           (mkWaitEvent true false ring_2_4) []
           (mkExec INPUT_PLUGIN 4 4 false 0 0 false 0)
           (mkExec OUTPUT_PLUGIN 0 4 false 0 0 false 0)).
  - reflexivity.
  - repeat constructor.
Defined.

(** ** More on the restart of a plugin *)

Section RestartMore.
Context {P : Type} `{Plugin P}.

Implicit Types s : RestartExec P.

Lemma restart_spec same params s :
  let r := restart same params s in
  restart_flag r.2 = true ∧ restart_data r.2 = Some r.1 ∧
  exec_to_do r.2 = S (exec_to_do s) ∧
  plugin r.2 = plugin s ∧ calls r.2 = calls s ∧
  subreport r.2 = subreport s ∧ exec_log r.2 = exec_log s ∧
  r.1 = length (rd_heap s) ∧
  rd_heap r.2 !! r.1 = Some (mkRestartData [] same params false 0).
Proof.
  unfold restart. cbn [fst snd restart_flag restart_data exec_to_do plugin
                       calls subreport exec_log rd_heap].
  assert (Hlen : ∀ h : list RestartData,
            (h ++ [mkRestartData [] same params false 0]) !! length h
            = Some (mkRestartData [] same params false 0)).
  { intros h. by rewrite lookup_app_r, Nat.sub_diag by lia. }
  do 7 (split; [done|]).
  destruct (restart_data s); (split; [by rewrite ?length_alter|apply Hlen]).
Qed.

(** X6. A restart which is asked while no other one is pending is
    processed exactly once.  [restart] declares the request and signals the
    thread of the plugin; the next [processPendingRestart] completes this
    request and signals the thread which waits for it, once; after it, no
    restart is pending and a further [processPendingRestart] succeeds at
    once, without any call to the plugin. *)
Theorem restart_processed_once same params s :
  restart_data s = None →
  let r := restart same params s in
  let res := processPendingRestart r.2 in
  (restart_flag r.2 = true ∧ restart_data r.2 = Some r.1 ∧
   exec_to_do r.2 = S (exec_to_do s) ∧
   rd_heap r.2 = rd_heap s ++ [mkRestartData [] same params false 0]) ∧
  (∃ rd', rd_heap res.2 !! r.1 = Some rd' ∧ completed rd' = true ∧
          rd_signals rd' = 1%nat) ∧
  restart_flag res.2 = false ∧ restart_data res.2 = None ∧
  processPendingRestart res.2 = (true, res.2).
Proof.
  intros Hnone r res.
  destruct (restart_spec same params s)
    as (Hf & Hd & Htd & _ & _ & _ & _ & Hid & Hrd).
  fold r in Hf, Hd, Htd, Hid, Hrd.
  destruct (processPendingRestart_completes r.2 r.1 _ Hf Hd Hrd)
    as ((rd' & H1 & H2 & H3) & H4 & H5).
  fold res in H1, H4, H5.
  split; [|split; [|split; [|split]]].
  - repeat (split; [done|]). unfold r, restart. by rewrite Hnone.
  - by exists rd'.
  - done.
  - done.
  - unfold processPendingRestart. by rewrite H4.
Qed.

(** X7. A restart which is asked while another one is pending cancels
    the pending one: the older request is completed at once, with the error
    message of an interrupted restart in its report and one signal to the
    thread which waits for it, and the new request takes its place.  The
    next [processPendingRestart] completes the new request and does not
    touch the older one again. *)
Theorem restart_cancels_pending same params s id0 rd0 :
  restart_data s = Some id0 → rd_heap s !! id0 = Some rd0 →
  let r := restart same params s in
  let rd0' := rd_complete (rd_add_messages [MSG_INTERRUPTED] rd0) in
  let res := processPendingRestart r.2 in
  r.1 ≠ id0 ∧ restart_data r.2 = Some r.1 ∧
  rd_heap r.2 !! id0 = Some rd0' ∧
  rd_report rd0' = rd_report rd0 ++ [MSG_INTERRUPTED] ∧
  MSG_INTERRUPTED.1 = SevError ∧
  completed rd0' = true ∧ rd_signals rd0' = S (rd_signals rd0) ∧
  (∃ rd', rd_heap res.2 !! r.1 = Some rd' ∧ completed rd' = true ∧
          rd_signals rd' = 1%nat) ∧
  (completed <$> rd_heap res.2 !! id0 = Some true ∧
   rd_signals <$> rd_heap res.2 !! id0 = Some (S (rd_signals rd0))).
Proof.
  intros Hd0 Hrd0 r rd0' res.
  destruct (restart_spec same params s)
    as (Hf & Hd & _ & _ & _ & Hs & _ & Hid & Hrd).
  fold r in Hf, Hd, Hs, Hid, Hrd.
  assert (Hlt : (id0 < length (rd_heap s))%nat) by (by eapply lookup_lt_Some).
  assert (Hne : r.1 ≠ id0) by lia.
  assert (H0 : rd_heap r.2 !! id0 = Some rd0').
  { unfold r, restart. rewrite Hd0. cbn [snd rd_heap].
    rewrite lookup_app_l by (by rewrite length_alter).
    by rewrite list_lookup_alter_eq, Hrd0. }
  destruct (processPendingRestart_completes r.2 r.1 _ Hf Hd Hrd)
    as ((rd' & H1 & H2 & H3) & _).
  fold res in H1.
  split; [done|]. split; [done|]. split; [done|].
  split; [done|]. split; [done|]. split; [done|]. split; [done|].
  split; [by exists rd'|].
  (* the older request is only read through [rd_extends] *)
  assert (Hext : rd_extends id0 rd0' res.2).
  { unfold res.
    destruct (restart_prologue_spec r.1 r.2 _ Hrd) as (_ & _ & _ & _ & _).
    assert (Hfin : ∀ s2 sub, rd_extends id0 rd0' s2 →
              rd_extends id0 rd0'
                (exec_report MSG_RESTARTED
                   (finish_restart r.1 (redirectReport sub s2).2))).
    { intros s2 sub [ms Hms]. exists ms. simpl.
      by rewrite list_lookup_alter_ne. }
    assert (Hstop : rd_extends id0 rd0' (restart_stopped r.1 r.2)).
    { unfold restart_stopped.
      match goal with |- rd_extends _ _ (call_plugin ?c ?f ?x).2 =>
        destruct (call_plugin_spec c f x) as (_ & _ & _ & _ & _ & _ & He & _)
      end.
      apply He. exists [].
      unfold rd_report_to, exec_report. cbn [rd_heap].
      rewrite list_lookup_alter_ne by done. rewrite H0.
      unfold rd_add_messages. simpl. by rewrite app_nil_r. }
    destruct (same_args (mkRestartData [] same params false 0)) eqn:Hsame.
    - rewrite (processPendingRestart_same_args r.2 r.1 _ Hf Hd Hrd Hsame).
      cbn [snd]. apply Hfin.
      match goal with |- rd_extends _ _ (call_plugin ?c ?f ?x).2 =>
        destruct (call_plugin_spec c f x) as (_ & _ & _ & _ & _ & _ & He & _)
      end.
      apply He. destruct Hstop as [ms Hms]. by exists ms.
    - rewrite (processPendingRestart_new_args r.2 r.1 _ Hf Hd Hrd Hsame).
      cbn [snd]. apply Hfin.
      assert (Hpro : rd_extends id0 rd0' (restart_prologue r.1 r.2)).
      { destruct Hstop as [ms Hms]. by exists ms. }
      destruct (try_start_spec params (restart_prologue r.1 r.2))
        as (_ & _ & _ & Hext2 & _).
      cbn [rd_args].
      destruct (try_start params (restart_prologue r.1 r.2)) as [ok s2].
      cbn [fst snd] in *. specialize (Hext2 id0 rd0' Hpro).
      destruct ok; [exact Hext2|].
      match goal with |- context [try_start ?a ?x] =>
        destruct (try_start_spec a x) as (_ & _ & _ & Hext3 & _) end.
      apply Hext3. unfold rd_report_to. simpl. by apply rd_extends_alter. }
  destruct Hext as [ms Hms]. rewrite Hms. done.
Qed.

(** X8. A restart with the same arguments only stops and starts the
    plugin: [processPendingRestart] calls [stop] then [start], does not
    analyze any command line, and its result is the result of [start]. *)
Theorem restart_same_args_calls s id rd :
  restart_flag s = true → restart_data s = Some id →
  rd_heap s !! id = Some rd → same_args rd = true →
  let p1 := (p_stop (plugin s)).1.2 in
  let res := processPendingRestart s in
  res.1 = (p_start p1).1.1 ∧
  plugin res.2 = (p_start p1).1.2 ∧
  calls res.2 = calls s ++ [CallStop; CallStart] ∧
  subreport res.2 = subreport s.
Proof.
  intros Hf Hd Hrd Hsame p1 res. unfold res.
  rewrite (processPendingRestart_same_args s id rd Hf Hd Hrd Hsame).
  cbn [fst snd].
  destruct (call_plugin_spec CallStop p_stop
    (rd_report_to id [MSG_RESTARTING] (exec_report MSG_RESTARTING_TSP s)))
    as (_ & Hp0 & Hc0 & _).
  fold (restart_stopped id s) in Hp0, Hc0.
  match goal with |- context [call_plugin CallStart p_start ?x] =>
    destruct (call_plugin_spec CallStart p_start x)
      as (Hr & Hp & Hc & _);
    destruct (call_plugin CallStart p_start x) as [ok3 s3] end.
  cbn [fst snd plugin calls subreport redirectReport finish_restart
       exec_report rd_report_to] in *.
  rewrite Hr, Hp, Hc, Hp0, Hc0. cbn [plugin calls].
  by rewrite <- app_assoc.
Qed.

(** X9. A restart with new arguments which the plugin accepts does not
    come back to the previous ones: [processPendingRestart] stops the
    plugin, saves its command line, sets its flags, then calls [analyze]
    with the new arguments, [getOptions] and [start], once each; it returns
    true and the command line of the plugin is the new one. *)
Theorem restart_new_args_calls s id rd :
  plugin_keeps_args P →
  restart_flag s = true → restart_data s = Some id →
  rd_heap s !! id = Some rd → same_args rd = false →
  let p1 := p_setRestartFlags (p_stop (plugin s)).1.2 in
  let p2 := (p_analyze (rd_args rd) p1).1.2 in
  let p3 := (p_getOptions p2).1.2 in
  (p_analyze (rd_args rd) p1).1.1 = true →
  (p_getOptions p2).1.1 = true →
  (p_start p3).1.1 = true →
  let res := processPendingRestart s in
  res.1 = true ∧
  plugin res.2 = (p_start p3).1.2 ∧
  p_getCommandArgs (plugin res.2) = rd_args rd ∧
  calls res.2 = calls s ++ [CallStop; CallGetCommandArgs; CallSetFlags;
                            CallAnalyze (rd_args rd); CallGetOptions;
                            CallStart] ∧
  subreport res.2 = subreport s.
Proof.
  intros Hlaw Hf Hd Hrd Hsame p1 p2 p3 Ha Hg Hst res. unfold res.
  rewrite (processPendingRestart_new_args s id rd Hf Hd Hrd Hsame).
  destruct (restart_prologue_spec id s rd Hrd) as (_ & _ & _ & Hc1 & _).
  assert (Hp1 : plugin (restart_prologue id s) = p1).
  { unfold restart_prologue, restart_stopped, p1.
    destruct (call_plugin_spec CallStop p_stop
      (rd_report_to id [MSG_RESTARTING] (exec_report MSG_RESTARTING_TSP s)))
      as (_ & Hp0 & _).
    cbn [plugin call_setFlags call_getCommandArgs redirectReport snd].
    by rewrite Hp0. }
  (* the three calls of the start with the new arguments *)
  assert (Hts : ∃ s4, try_start (rd_args rd) (restart_prologue id s) = (true, s4)
            ∧ plugin s4 = (p_start p3).1.2
            ∧ calls s4 = calls (restart_prologue id s)
                         ++ [CallAnalyze (rd_args rd); CallGetOptions; CallStart]).
  { unfold try_start.
    destruct (call_plugin_spec (CallAnalyze (rd_args rd))
                (p_analyze (rd_args rd)) (restart_prologue id s))
      as (Hr2 & Hp2 & Hc2 & _).
    destruct (call_plugin (CallAnalyze (rd_args rd)) (p_analyze (rd_args rd))
                (restart_prologue id s)) as [ok2 s2].
    cbn [fst snd] in *. rewrite Hp1 in Hr2, Hp2. fold p2 in Hp2.
    rewrite Ha in Hr2. subst ok2.
    destruct (call_plugin_spec CallGetOptions p_getOptions s2)
      as (Hr3 & Hp3 & Hc3 & _).
    destruct (call_plugin CallGetOptions p_getOptions s2) as [ok3 s3].
    cbn [fst snd] in *. rewrite Hp2 in Hr3, Hp3. fold p3 in Hp3.
    rewrite Hg in Hr3. subst ok3.
    destruct (call_plugin_spec CallStart p_start s3)
      as (Hr4 & Hp4 & Hc4 & _).
    destruct (call_plugin CallStart p_start s3) as [ok4 s4].
    cbn [fst snd] in *. rewrite Hp3 in Hr4, Hp4.
    rewrite Hst in Hr4. subst ok4.
    exists s4. split; [done|]. split; [done|].
    rewrite Hc4, Hc3, Hc2, <- !app_assoc. done. }
  destruct Hts as (s4 & Hts & Hp4 & Hc4).
  destruct (try_start_spec (rd_args rd) (restart_prologue id s))
    as (_ & _ & _ & _ & _ & Hargs).
  rewrite Hts in Hargs |- *. cbn [fst snd] in *.
  cbn [plugin calls subreport redirectReport finish_restart exec_report snd].
  split; [done|]. split; [done|]. split; [by apply Hargs|].
  split; [|done]. rewrite Hc4, Hc1, <- !app_assoc. done.
Qed.
End RestartMore.

Lemma restart_processed_once_witness :
  restart_flag (processPendingRestart sample_restart).2 = false ∧
  processPendingRestart (processPendingRestart sample_restart).2
  = (true, (processPendingRestart sample_restart).2).
Proof.
  pose proof (restart_processed_once false ["--bad"%string]
                (mkRestartExec (["-a"%string], true) [] None false None [] [] 0)
                eq_refl) as (_ & _ & H3 & _ & H5).
  split; [exact H3|exact H5].
Defined.

Lemma restart_cancels_pending_witness :
  completed <$> rd_heap (restart true [] sample_restart).2 !! 0%nat
  = Some true ∧
  restart_data (restart true [] sample_restart).2 = Some 1%nat.
Proof.
  pose proof (restart_cancels_pending true [] sample_restart 0
                (mkRestartData [] false ["--bad"%string] false 0)
                eq_refl eq_refl) as (_ & H2 & H3 & _).
  split; [by rewrite H3|exact H2].
Defined.

(** The sample plugin with a pending restart with the same arguments, and
    with a pending restart with the arguments [-b]. *)
Lemma restart_same_args_calls_witness :
  calls (processPendingRestart
           (restart true []
              (mkRestartExec (["-a"%string], true) [] None false None [] [] 0)).2).2
  = [CallStop; CallStart].
Proof.
  pose proof (restart_same_args_calls
                (restart true []
                   (mkRestartExec (["-a"%string], true) [] None false None [] [] 0)).2
                0 (mkRestartData [] true [] false 0)
                eq_refl eq_refl eq_refl eq_refl) as (_ & _ & H3 & _).
  exact H3.
Defined.

Lemma restart_new_args_calls_witness :
  p_getCommandArgs
    (plugin (processPendingRestart
               (restart false ["-b"%string]
                  (mkRestartExec (["-a"%string], true) [] None false None [] [] 0)).2).2)
  = ["-b"%string].
Proof.
  pose proof (restart_new_args_calls
                (restart false ["-b"%string]
                   (mkRestartExec (["-a"%string], true) [] None false None [] [] 0)).2
                0 (mkRestartData [] false ["-b"%string] false 0)
                sample_keeps_args eq_refl eq_refl eq_refl eq_refl
                eq_refl eq_refl eq_refl) as (_ & _ & H3 & _).
  exact H3.
Defined.

(** ** More on the input executor *)

(** All the fields which [initAllBuffers] sets in the ring. *)
Lemma initAllBuffers_ring_cell cap p b (r : Ring) k e' :
  (2 ≤ length r)%nat →
  initAllBuffers_ring cap p b r !! k = Some e' →
  ∃ e, r !! k = Some e ∧ ptype e' = ptype e ∧ to_do e' = to_do e ∧
       bitrate e' = b ∧ tsp_bitrate e' = b ∧
       input_end e' = (p =? 0) ∧ tsp_aborting e' = (p =? 0).
Proof.
  intros Hn. unfold initAllBuffers_ring.
  assert (ringNext r 0 = 1%nat) as ->.
  { unfold ringNext. apply Nat.mod_small. lia. }
  rewrite list_lookup_imap.
  destruct k as [|[|k]].
  - rewrite list_lookup_alter_eq, list_lookup_alter_ne by done.
    destruct (r !! 0%nat) as [e|]; simpl; [|done].
    intros [= <-]. by exists e.
  - rewrite list_lookup_alter_ne, list_lookup_alter_eq by done.
    destruct (r !! 1%nat) as [e|]; simpl; [|done].
    intros [= <-]. by exists e.
  - rewrite !list_lookup_alter_ne by done.
    destruct (r !! S (S k)) as [e|]; simpl; [|done].
    intros [= <-]. by exists e.
Qed.

Section InputMore.
Context {I A : Type} `{InputPlugin I} `{Analyzer A}.

Implicit Types s : InputExecutor I A.

(** X10. [initAllBuffers] succeeds exactly when the initial load, of at
    most half of the buffer, is not empty.  It then gives the loaded slots,
    from the start of the buffer, to the successor of the input executor,
    the rest of the buffer to the input executor and an empty window to all
    other executors; every executor gets the initial bitrate and none is
    at the end of input or aborting.  When the initial load is empty, only
    the input executor was set up, with the whole buffer. *)
Theorem initAllBuffers_windows cap nproc (x : InputRun I A) :
  buffer_fits cap → receive_bounded I → counters_nonneg (exec x) →
  ring x = new_ring nproc →
  let load := (receiveAndStuff 0 (cap / 2) (exec x)).1 in
  let res := initAllBuffers cap x in
  0 ≤ load ≤ cap / 2 ∧ res.1 = negb (load =? 0) ∧
  length (ring res.2) = S (S nproc) ∧
  (load = 0 →
   ring res.2 = alter (initBuffer 0 cap false false 0) 0%nat (new_ring nproc) ∧
   produced res.2 = produced x) ∧
  (load ≠ 0 →
   ∃ b, ∀ k e, ring res.2 !! k = Some e →
     pkt_first e = (if decide (k = 0%nat) then load else 0) ∧
     pkt_cnt e = (if decide (k = 0%nat) then cap - load
                  else if decide (k = 1%nat) then load else 0) ∧
     bitrate e = b ∧ tsp_bitrate e = b ∧
     input_end e = false ∧ tsp_aborting e = false).
Proof.
  intros Hfit Hb Hs Hring load res.
  destruct (buffer_fits_twice cap Hfit) as [Hc Hc2].
  assert (Hhalf : 0 ≤ cap / 2 < SIZE_MOD).
  { pose proof (Z.mul_div_le cap 2). pose proof (Z.div_pos cap 2). lia. }
  assert (Hhalf2 : 2 * (cap / 2) ≤ cap) by (apply Z.mul_div_le; lia).
  destruct (receiveAndStuff_bounds Hb 0 (cap / 2) (exec x) Hhalf Hs)
    as [Hn _].
  fold load in Hn. split; [done|].
  unfold res, initAllBuffers.
  destruct (receiveAndStuff 0 (cap / 2) (exec x)) as [pkt_read s1] eqn:E.
  cbn [fst] in load. subst load.
  destruct (pkt_read =? 0) eqn:E0.
  - apply Z.eqb_eq in E0. cbn [fst snd ring produced negb].
    split; [done|]. split.
    { by rewrite Hring, length_alter, length_new_ring. }
    split; [by rewrite Hring|]. intros Hne. lia.
  - apply Z.eqb_neq in E0.
    destruct (getBitrate _) as [b s2]. cbn [fst snd ring produced negb].
    split; [done|]. split.
    { by rewrite length_initAllBuffers, Hring, length_alter, length_new_ring. }
    split; [lia|]. intros _. exists b. intros k e He.
    assert (Hlen : (2 ≤ length (alter (initBuffer 0 cap false false 0) 0%nat
                                  (ring x)))%nat).
    { rewrite Hring, length_alter, length_new_ring. lia. }
    destruct (initAllBuffers_lookup _ _ _ _ _ _ Hlen He) as [Hf Hcnt].
    destruct (initAllBuffers_ring_cell _ _ _ _ _ _ Hlen He)
      as (e0 & _ & _ & _ & Hbr & Htb & Hie & Hab).
    assert (Ez : (pkt_read =? 0) = false) by (by apply Z.eqb_neq).
    rewrite Ez in Hie, Hab.
    rewrite Hf, Hcnt, Hbr, Htb, Hie, Hab.
    rewrite size_sub_small, Z.mod_small by lia. done.
Qed.

Lemma null_loop_spec todo i n s :
  0 ≤ i → 0 ≤ n → i + n + Z.of_nat todo < SIZE_MOD →
  let s' := null_loop todo i n s in
  (∀ k, i + n ≤ k < i + n + Z.of_nat todo →
     buffer s' k = NullPacket ∧
     metadata s' k = md_setInputStuffing true md_reset) ∧
  (∀ k, k < i + n ∨ i + n + Z.of_nat todo ≤ k →
     buffer s' k = buffer s k ∧ metadata s' k = metadata s k) ∧
  total_packets s' = total_packets s ∧ input s' = input s ∧
  in_log s' = in_log s.
Proof.
  revert n s. induction todo as [|todo IH]; intros n s Hi Hn Hlen.
  - simpl. split; [intros k Hk; lia|done].
  - rewrite Nat2Z.inj_succ in Hlen |- *. cbn [null_loop].
    rewrite (size_add_small i n), (size_add_small n 1) by lia.
    match goal with |- context [null_loop todo i (n + 1) ?s1] =>
      destruct (IH (n + 1) s1) as (IH1 & IH2 & IH3 & IH4 & IH5);
        [lia|lia|lia|]; set (s' := null_loop todo i (n + 1) s1) in *
    end.
    cbv zeta. split; [|split; [|done]].
    + intros k Hk. destruct (decide (k = i + n)) as [->|Hne].
      * destruct (IH2 (i + n) ltac:(lia)) as [-> ->]. simpl.
        unfold write. by rewrite Z.eqb_refl.
      * apply IH1. lia.
    + intros k Hk. destruct (IH2 k ltac:(lia)) as [-> ->]. simpl.
      unfold write.
      assert ((k =? i + n) = false) as -> by (apply Z.eqb_neq; lia). done.
Qed.

(** X11. [receiveNullPackets] writes [max_packets] null packets, marked
    as input stuffing, in the slots from [index] on and leaves the other
    slots as they are; it returns [max_packets], counts these packets in
    the total but not as packets of the plugin, does not call the plugin
    and reports nothing. *)
Theorem receiveNullPackets_effect i m s :
  0 ≤ i → 0 ≤ m → i + m < SIZE_MOD →
  let r := receiveNullPackets i m s in
  r.1 = m ∧
  (∀ k, i ≤ k < i + m →
     buffer r.2 k = NullPacket ∧
     metadata r.2 k = md_setInputStuffing true md_reset) ∧
  (∀ k, k < i ∨ i + m ≤ k →
     buffer r.2 k = buffer s k ∧ metadata r.2 k = metadata s k) ∧
  plugin_packets r.2 = plugin_packets s ∧
  total_packets r.2 = size_add (total_packets s) m ∧
  input r.2 = input s ∧ in_log r.2 = in_log s.
Proof.
  intros Hi Hm Hlen r. unfold r, receiveNullPackets. cbn [fst snd].
  destruct (null_loop_spec (Z.to_nat m) i 0 s Hi ltac:(lia) ltac:(lia))
    as (H1 & H2 & H3 & H4 & H5).
  rewrite Z2Nat.id, Z.add_0_r in H1, H2 by lia.
  split; [done|]. split; [exact H1|]. split; [exact H2|].
  cbn [plugin_packets total_packets input in_log addNonPluginPackets
       buffer metadata].
  rewrite null_loop_packets, H3, H4, H5. done.
Qed.


Lemma reset_loop_spec todo i n (md : Z → TSPacketMetadata) :
  0 ≤ i → 0 ≤ n → i + n + Z.of_nat todo < SIZE_MOD →
  (∀ k, i + n ≤ k < i + n + Z.of_nat todo →
     reset_loop todo i n md k = md_reset) ∧
  (∀ k, k < i + n ∨ i + n + Z.of_nat todo ≤ k →
     reset_loop todo i n md k = md k).
Proof.
  revert n md. induction todo as [|todo IH]; intros n md Hi Hn Hlen.
  - simpl. split; [intros k Hk; lia|done].
  - rewrite Nat2Z.inj_succ in Hlen |- *. cbn [reset_loop].
    rewrite (size_add_small i n), (size_add_small n 1) by lia.
    destruct (IH (n + 1) (write md (i + n) md_reset)) as [IH1 IH2];
      [lia|lia|lia|].
    split.
    + intros k Hk. destruct (decide (k = i + n)) as [->|Hne].
      * rewrite IH2 by lia. unfold write. by rewrite Z.eqb_refl.
      * apply IH1. lia.
    + intros k Hk. rewrite IH2 by lia. unfold write.
      assert ((k =? i + n) = false) as -> by (apply Z.eqb_neq; lia). done.
Qed.

(** The loop which checks the sync bytes, when all the packets from [n]
    on are valid. *)
Lemma validate_loop_valid fuel i n count s :
  0 ≤ i → i + count < SIZE_MOD → 0 ≤ n ≤ count →
  (Z.to_nat (count - n) < fuel)%nat →
  (∀ k, n ≤ k < count → hasValidSync (buffer s (i + k)) = true) →
  let r := validate_loop fuel i n count s in
  r.1 = count ∧ buffer r.2 = buffer s ∧ metadata r.2 = metadata s ∧
  in_log r.2 = in_log s ∧ in_sync_lost r.2 = in_sync_lost s ∧
  input r.2 = input s ∧
  plugin_packets r.2 mod SIZE_MOD
  = (plugin_packets s + (count - n)) mod SIZE_MOD ∧
  total_packets r.2 mod SIZE_MOD
  = (total_packets s + (count - n)) mod SIZE_MOD.
Proof.
  revert n s. induction fuel as [|fuel IH]; intros n s Hi Hlen Hn Hf Hv;
    [lia|].
  cbn [validate_loop]. destruct (n <? count) eqn:E.
  - apply Z.ltb_lt in E.
    rewrite (size_add_small i n), (size_add_small n 1) by lia.
    rewrite Hv by lia.
    destruct (IH (n + 1)
                (feed_analyzers (buffer s (i + n)) (addPluginPackets 1 s)))
      as (H1 & H2 & H3 & H4 & H5 & H6 & H7 & H8);
      [done|done|lia|lia|intros k Hk; apply Hv; lia|].
    cbv zeta. rewrite H1, H2, H3, H4, H5, H6, H7, H8.
    cbn [buffer metadata in_log in_sync_lost input plugin_packets
         total_packets feed_analyzers addPluginPackets].
    repeat (split; [done|]).
    unfold size_add.
    rewrite !Z.add_mod_idemp_l by done.
    split; f_equal; lia.
  - apply Z.ltb_ge in E. assert (n = count) as -> by lia.
    cbn [fst snd]. rewrite Z.sub_diag, !Z.add_0_r. done.
Qed.

(** X12. When every packet which the plugin returns starts with the sync
    byte, [receiveAndValidate] returns their number, leaves them, with the
    metadata which the plugin set, in the slots from [index] on, counts them
    as packets of the plugin, and neither reports anything nor sets the
    flag of the loss of synchronization.  The metadata of the slots which
    the plugin was allowed to fill and did not fill are reset. *)
Theorem receiveAndValidate_valid s i m pkts plug :
  in_sync_lost s = false →
  receive (input s) m = (pkts, plug) →
  Forall (λ p, hasValidSync p.1 = true) pkts →
  0 ≤ i → 0 ≤ m → i + m < SIZE_MOD → Z.of_nat (length pkts) ≤ m →
  let r := receiveAndValidate i m s in
  r.1 = Z.of_nat (length pkts) ∧
  in_sync_lost r.2 = false ∧ in_log r.2 = in_log s ∧ input r.2 = plug ∧
  plugin_packets r.2 mod SIZE_MOD
  = (plugin_packets s + Z.of_nat (length pkts)) mod SIZE_MOD ∧
  (∀ k x, pkts !! k = Some x →
     buffer r.2 (i + Z.of_nat k) = x.1 ∧
     metadata r.2 (i + Z.of_nat k) = x.2) ∧
  (∀ k, i + Z.of_nat (length pkts) ≤ k < i + m → metadata r.2 k = md_reset) ∧
  (∀ k, k < i ∨ i + m ≤ k →
     buffer r.2 k = buffer s k ∧ metadata r.2 k = metadata s k).
Proof.
  intros Hs Hr Hvalid Hi Hm Hlen Hle r. unfold r, receiveAndValidate.
  rewrite Hs, Hr. cbv zeta.
  set (md := reset_loop (Z.to_nat m) i 0 (metadata s)).
  destruct (reset_loop_spec (Z.to_nat m) i 0 (metadata s) Hi ltac:(lia)
              ltac:(lia)) as [Hmd1 Hmd2].
  fold md in Hmd1, Hmd2. rewrite Z2Nat.id, Z.add_0_r in Hmd1, Hmd2 by lia.
  set (s1 := set_metadata _ (set_buffer _ _)).
  assert (Hb1 : buffer s1 = write_list (buffer s) i pkts.*1) by done.
  assert (Hm1 : metadata s1 = write_list md i pkts.*2) by done.
  assert (Hl1 : length pkts.*1 = length pkts) by apply length_fmap.
  assert (Hl2 : length pkts.*2 = length pkts) by apply length_fmap.
  destruct (validate_loop_valid (S (length pkts)) i 0
              (Z.of_nat (length pkts)) s1)
    as (H1 & H2 & H3 & H4 & H5 & H6 & H7 & _); [done|lia|lia|lia| |].
  { intros k Hk. rewrite Hb1.
    replace k with (Z.of_nat (Z.to_nat k)) by lia.
    destruct (lookup_lt_is_Some_2 pkts (Z.to_nat k)) as [x Hx]; [lia|].
    rewrite (write_list_at pkts.*1 (buffer s) i (Z.to_nat k) x.1);
      [|done|lia|by rewrite list_lookup_fmap, Hx].
    rewrite Forall_forall in Hvalid. apply Hvalid.
    by eapply list_elem_of_lookup_2. }
  rewrite H1, H2, H3, H4, H5, H6, H7, Hb1, Hm1, Z.sub_0_r.
  split; [done|]. split; [done|]. split; [done|]. split; [done|].
  split; [done|]. split; [|split].
  - intros k x Hx. split.
    + apply write_list_at; [done|lia|by rewrite list_lookup_fmap, Hx].
    + apply write_list_at; [done|lia|by rewrite list_lookup_fmap, Hx].
  - intros k Hk. rewrite write_list_outside by lia. apply Hmd1. lia.
  - intros k Hk. rewrite !write_list_outside by lia.
    split; [done|]. apply Hmd2. lia.
Qed.


(** X13. With a plugin which never returns more packets than it is asked
    for, [receiveAndValidate] and [receiveAndStuff] return at most
    [max_packets], and the counters of the stuffing policy stay in
    range. *)
Theorem receive_at_most i m s :
  receive_bounded I → counters_nonneg s → 0 ≤ m < SIZE_MOD →
  0 ≤ (receiveAndValidate i m s).1 ≤ m ∧
  0 ≤ (receiveAndStuff i m s).1 ≤ m ∧
  counters_nonneg (receiveAndStuff i m s).2.
Proof.
  intros Hb Hs Hm. split.
  - by apply receiveAndValidate_le.
  - by apply receiveAndStuff_bounds.
Qed.

(** *** The total number of packets *)

Lemma null_loop_total todo i n s :
  total_packets (null_loop todo i n s) = total_packets s.
Proof.
  revert n s. induction todo as [|todo IH]; intros n s; simpl; [done|].
  by rewrite IH.
Qed.

Lemma sync_lost_dump_total i n count s :
  total_packets (sync_lost_dump i n count s) = total_packets s.
Proof.
  unfold sync_lost_dump. destruct (1 <=? max_severity s); [|done].
  by destruct (0 <? n).
Qed.

Lemma validate_loop_total fuel i n count s :
  0 ≤ n ≤ count → count < SIZE_MOD →
  (Z.to_nat (count - n) < fuel)%nat →
  let r := validate_loop fuel i n count s in
  total_packets r.2 mod SIZE_MOD
  = (total_packets s + (r.1 - n)) mod SIZE_MOD.
Proof.
  revert n count s.
  induction fuel as [|fuel IH]; intros n count s Hn Hc Hf; [lia|].
  cbn [validate_loop]. destruct (n <? count) eqn:E.
  - apply Z.ltb_lt in E. rewrite (size_add_small n 1) by lia.
    destruct (hasValidSync _).
    + cbv zeta. rewrite IH by lia.
      cbn [total_packets feed_analyzers addPluginPackets]. unfold size_add.
      rewrite Z.add_mod_idemp_l by done. f_equal. lia.
    + assert (Hres : ∀ s', validate_loop fuel i (n + 1) n s' = (n, s')).
      { intros s'. destruct fuel; simpl; [done|].
        assert ((n + 1 <? n) = false) as -> by (apply Z.ltb_ge; lia). done. }
      rewrite Hres. cbn [fst snd total_packets set_in_sync_lost].
      rewrite sync_lost_dump_total. cbn [total_packets input_log].
      f_equal. lia.
  - cbn [fst snd]. f_equal. lia.
Qed.

Lemma receiveAndValidate_total i m s :
  receive_size_t I → m < SIZE_MOD →
  let r := receiveAndValidate i m s in
  total_packets r.2 mod SIZE_MOD = (total_packets s + r.1) mod SIZE_MOD.
Proof.
  intros Hsz Hm. unfold receiveAndValidate.
  destruct (in_sync_lost s).
  - simpl. by rewrite Z.add_0_r.
  - pose proof (Hsz (input s) m Hm) as Hlen.
    destruct (receive (input s) m) as [pkts plug]. simpl in Hlen. cbv zeta.
    set (s1 := set_metadata _ _).
    rewrite (validate_loop_total (S (length pkts)) i 0
               (Z.of_nat (length pkts)) s1) by lia.
    by rewrite Z.sub_0_r.
Qed.

(** What is written is counted: the total minus [pkt_done]. *)
Lemma start_loop_total fuel l s :
  let r := start_loop fuel l s in
  (total_packets r.2 - pkt_done r.1) mod SIZE_MOD
  = (total_packets s - pkt_done l) mod SIZE_MOD.
Proof.
  revert l s. induction fuel as [|fuel IH]; intros l s; [done|].
  cbn [start_loop]. destruct (_ && _); [|done].
  cbv zeta. rewrite IH.
  cbn [total_packets pkt_done addNonPluginPackets set_start_remain
       set_metadata set_buffer].
  unfold size_add. apply mod_sub_add, Zmod_mod.
Qed.

Lemma stuff_nulls_total l s :
  let r := stuff_nulls l s in
  (total_packets r.2 - pkt_done r.1) mod SIZE_MOD
  = (total_packets s - pkt_done l) mod SIZE_MOD.
Proof.
  unfold stuff_nulls, receiveNullPackets.
  cbn [fst snd total_packets pkt_done addNonPluginPackets set_nullpkt_remain].
  rewrite null_loop_total. unfold size_add. apply mod_sub_add, Zmod_mod.
Qed.

Lemma stuff_input_total l s :
  receive_size_t I → pkt_remain l < SIZE_MOD →
  let r := stuff_input l s in
  (total_packets r.2 - pkt_done r.1.2) mod SIZE_MOD
  = (total_packets s - pkt_done l) mod SIZE_MOD.
Proof.
  intros Hsz Hrem. unfold stuff_input.
  set (s0 := if _ && _ then set_inpkt_remain _ s else s).
  assert (Hs0 : total_packets s0 = total_packets s).
  { unfold s0. by destruct (_ && _). }
  pose proof (receiveAndValidate_total (index l)
    (Z.min (pkt_remain l) (instuff_inpkt_remain s0)) s0 Hsz ltac:(lia)) as Hp.
  destruct (receiveAndValidate _ _ s0) as [count s1]. cbn [fst snd] in *.
  rewrite Hs0 in Hp.
  assert (Hs2 : ∀ b x, total_packets
            (if b : bool then set_nullpkt_remain x
               (set_inpkt_remain (size_sub (instuff_inpkt_remain s1) count) s1)
             else set_inpkt_remain (size_sub (instuff_inpkt_remain s1) count) s1)
            = total_packets s1).
  { intros b x. by destruct b. }
  rewrite Hs2. cbn [pkt_done]. unfold size_add. by apply mod_sub_add.
Qed.

Lemma stuff_loop_total fuel l s :
  receive_size_t I → pkt_remain l < SIZE_MOD →
  let r := stuff_loop fuel l s in
  (total_packets r.2 - pkt_done r.1) mod SIZE_MOD
  = (total_packets s - pkt_done l) mod SIZE_MOD.
Proof.
  intros Hsz. revert l s.
  induction fuel as [|fuel IH]; intros l s Hrem; [done|].
  rewrite stuff_loop_S.
  destruct (0 <? pkt_remain l); [|done].
  pose proof (stuff_nulls_total l s) as Hn.
  destruct (stuff_nulls_count l s) as (_ & _ & Hn3).
  destruct (stuff_nulls l s) as [l1 s1]. cbn [fst snd] in *.
  destruct (pkt_remain l1 =? 0); [done|].
  pose proof (stuff_input_total l1 s1 Hsz ltac:(lia)) as Hi.
  destruct (stuff_input_count l1 s1 Hsz) as (_ & _ & Hi3); [lia|].
  destruct (stuff_input l1 s1) as [[go l2] s2]. cbn [fst snd] in *.
  rewrite Hn in Hi.
  destruct go; [|done].
  rewrite IH by lia. done.
Qed.

(** X14. Every packet which [receiveAndStuff] writes in the buffer is
    counted in the total number of packets: when the call returns a count
    which is not 0, the total has grown by this count (modulo 2^64).  The
    null packets of a call which returns 0 are counted too: the total has
    then grown by the number of null packets written, [pkt_done], although
    no packet is handed over. *)
Theorem receiveAndStuff_total i m s :
  receive_size_t I → m < SIZE_MOD →
  let r := receiveAndStuff_locals i m s in
  total_packets r.2 mod SIZE_MOD
  = (total_packets s + pkt_done r.1) mod SIZE_MOD ∧
  ((receiveAndStuff i m s).1 ≠ 0 →
   total_packets (receiveAndStuff i m s).2 mod SIZE_MOD
   = (total_packets s + (receiveAndStuff i m s).1) mod SIZE_MOD).
Proof.
  intros Hsz Hm r.
  assert (Hr : total_packets r.2 mod SIZE_MOD
               = (total_packets s + pkt_done r.1) mod SIZE_MOD).
  { unfold r, receiveAndStuff_locals.
    pose proof (start_loop_total (Z.to_nat m) (mkStuff i m 0 0) s) as Hst.
    pose proof (start_loop_remain (Z.to_nat m) (mkStuff i m 0 0) s Hm) as Hrem.
    destruct (start_loop _ _ s) as [l s1]. cbn [fst snd pkt_done] in *.
    rewrite Z.sub_0_r in Hst.
    assert (Hfin : ∀ l2 (s2 : InputExecutor I A),
              (total_packets s2 - pkt_done l2) mod SIZE_MOD
              = (total_packets s1 - pkt_done l) mod SIZE_MOD →
              total_packets s2 mod SIZE_MOD
              = (total_packets s + pkt_done l2) mod SIZE_MOD).
    { intros l2 s2 E. rewrite Hst in E.
      apply congr_mod_eq; [unfold SIZE_MOD; lia|].
      destruct (mod_eq_congr SIZE_MOD _ _ ltac:(unfold SIZE_MOD; lia) E)
        as [q Hq].
      exists q. lia. }
    destruct (instuff_inpkt (options s1) =? 0).
    - pose proof (receiveAndValidate_total (index l) (pkt_remain l) s1 Hsz
                    Hrem) as Hv.
      destruct (receiveAndValidate _ _ s1) as [n s2].
      cbn [fst snd pkt_done] in *.
      apply (Hfin (mkStuff (index l) (pkt_remain l)
                           (size_add (pkt_done l) n) n)).
      cbn [pkt_done]. unfold size_add. by apply mod_sub_add.
    - pose proof (stuff_loop_total (S (Z.to_nat m)) l s1 Hsz Hrem) as Hv.
      destruct (stuff_loop _ l s1) as [l2 s2]. cbn [fst snd] in *.
      by apply Hfin. }
  split; [exact Hr|].
  unfold receiveAndStuff. fold r. destruct r as [l s']. cbn [fst snd] in *.
  destruct (pkt_from_input l =? 0); [done|]. intros _. exact Hr.
Qed.


Lemma length_read_range {X : Type} (a : Z → X) i n :
  length (read_range a i n) = n.
Proof. revert i. induction n as [|n IH]; intros i; simpl; [done|]. by rewrite IH. Qed.

Lemma length_slots s first n : length (slots s first n) = Z.to_nat n.
Proof.
  unfold slots. rewrite length_zip_with, !length_read_range. lia.
Qed.

Lemma null_loop_input todo i n s : input (null_loop todo i n s) = input s.
Proof.
  revert n s. induction todo as [|todo IH]; intros n s; simpl; [done|].
  by rewrite IH.
Qed.

Lemma read_trailing_input c pf pm pr s :
  input (read_trailing c pf pm pr s).2 = input s.
Proof.
  unfold read_trailing. destruct (_ && _); [|done].
  unfold receiveNullPackets. cbn [fst snd input set_stop_remain
                                  addNonPluginPackets].
  apply null_loop_input.
Qed.

Lemma getBitrate_input s : input (getBitrate s).2 = input s.
Proof.
  unfold getBitrate.
  destruct (negb _); [by destruct (_ =? 0)|].
  by destruct (negb (use_dts_analyzer s) && _).
Qed.

(** The periodic bitrate adjustment changes neither the plugin nor the
    flags of the loop. *)
Lemma adjust_bitrate_locals t l s r l' s' r' :
  adjust_bitrate t l s r = Some (l', s', r') →
  plugin_completed l' = plugin_completed l ∧
  main_input_end l' = main_input_end l ∧
  main_aborted l' = main_aborted l ∧ input s' = input s.
Proof.
  unfold adjust_bitrate. cbv zeta.
  destruct (opt_bitrate (options s) =? 0); [|by intros [= <- <- <-]].
  pose proof (getBitrate_input s) as Hg.
  destruct ((own_tsp_bitrate r =? 0)
            && (bitrate_due_packet l <=? plugin_packets s)); cbn [orb].
  - destruct (if own_tsp_bitrate r =? 0 then _ else _); [|done].
    destruct (getBitrate s) as [b s1]. cbn [snd] in Hg.
    by destruct (0 <? b); intros [= <- <- <-].
  - destruct (_ <? _); [|by intros [= <- <- <-]].
    destruct (if own_tsp_bitrate r =? 0 then _ else _); [|done].
    destruct (getBitrate s) as [b s1]. cbn [snd] in Hg.
    by destruct (0 <? b); intros [= <- <- <-].
Qed.

(** X15. When [waitWork] reports that the successor is aborting, the
    input thread leaves its loop at once: it does not call the plugin,
    writes nothing in the buffer, hands over nothing, not even the trailing
    stuffing, and does not call [passPackets].  When [waitWork] reports a
    timeout, it leaves its loop too, as aborted, without calling the plugin
    or writing in the buffer, after a call to [passPackets] with no packet
    and the end of input: its successor then sees the end of input, and
    this in whatever state this call finds the ring, since the global mutex
    is free between [waitWork] and [passPackets]. *)
Theorem main_gives_up cap env l (x : InputRun I A) w r nx :
  waitWork cap 0 (ring x) (wait_events env) = Some (w, r) →
  (2 ≤ length r)%nat → r !! 1%nat = Some nx →
  let res := main_iteration cap env l x in
  (w_aborted w = true →
   res = (IterLeave,
          mkLocals (current_time l) (bitrate_due_time l)
                   (bitrate_due_packet l) (plugin_completed l)
                   (w_input_end w) true,
          mkRun (exec x) r (produced x))) ∧
  (w_aborted w = false → w_timeout w = true →
   res.1.1 = IterLeave ∧ main_aborted res.1.2 = true ∧
   exec res.2 = exec x ∧ produced res.2 = produced x ∧
   input_end <$> ring res.2 !! 1%nat = Some true) ∧
  (∀ (r' : Ring) nx' br,
     (2 ≤ length r')%nat → r' !! 1%nat = Some nx' →
     input_end <$> (passPackets cap 0 0 br true false r').1 !! 1%nat
     = Some true).
Proof.
  intros Hw Hn Hnx res. subst res. unfold main_iteration.
  rewrite Hw. unfold main_body.
  assert (Hpass : ∀ (r' : Ring) nx' br,
            (2 ≤ length r')%nat → r' !! 1%nat = Some nx' →
            input_end <$> (passPackets cap 0 0 br true false r').1 !! 1%nat
            = Some true).
  { intros r' nx' br Hn' Hnx'.
    assert (Hnext : ringNext r' 0 = 1%nat).
    { unfold ringNext. apply Nat.mod_small. lia. }
    pose proof (passPackets_next_data cap 0 0 br true false
                  r' nx' ltac:(by rewrite Hnext)
                  ltac:(by rewrite Hnext)) as Hdata.
    rewrite Hnext in Hdata.
    destruct ((passPackets cap 0 0 br true false r').1 !! 1%nat)
      as [c|]; [|done].
    cbn in Hdata |- *. injection Hdata as _ Hie _. rewrite Hie.
    by rewrite orb_true_r. }
  split; [|split; [|exact Hpass]].
  - intros Hab. by rewrite Hab.
  - intros Hab Hto. rewrite Hab, Hto. cbn [fst snd exec produced ring
                                          main_aborted].
    repeat (split; [done|]).
    exact (Hpass r nx (own_tsp_bitrate r) Hn Hnx).
Qed.

(** X16. With the option which limits the number of packets of an input
    operation, a turn of the loop of the input thread hands over at most
    this number of packets, trailing stuffing included. *)
Theorem main_iteration_max_input cap env l (x : InputRun I A) :
  receive_bounded I → buffer_fits cap → counters_nonneg (exec x) →
  reachable cap (ring x) →
  Forall (λ ev, reachable cap (ring_then ev)) (wait_events env) →
  0 < max_input_pkt (options (exec x)) →
  let res := main_iteration cap env l x in
  (length (produced res.2)
   ≤ length (produced x) + Z.to_nat (max_input_pkt (options (exec x))))%nat.
Proof.
  intros Hb Hfit Hs Hr Hevs Hmax res. subst res. unfold main_iteration.
  destruct (waitWork cap 0 (ring x) (wait_events env)) as [[w r]|] eqn:Hw;
    [|cbn; lia].
  destruct (waitWork_window cap 0 (ring x) _ w r Hfit Hr Hevs Hw)
    as (Hr' & e & He & Hf & Hcnt & Hpos & Hend & _).
  destruct (buffer_fits_twice cap Hfit) as [Hc Hc2].
  pose proof (inv_range cap r (reachable_inv cap r Hfit Hr') 0%nat e He)
    as [Hfe _].
  destruct (w_aborted w) eqn:Hab.
  { unfold main_body. rewrite Hab. cbn. lia. }
  destruct (w_timeout w) eqn:Hto.
  { unfold main_body. rewrite Hab, Hto. cbn. lia. }
  rewrite (main_body_run cap env l x w r Hab Hto). cbv zeta.
  set (pkt_max := limit_input (exec x) (w_cnt w)).
  assert (Hpm : 0 ≤ pkt_max ≤ max_input_pkt (options (exec x))
                ∧ pkt_max ≤ w_cnt w).
  { pose proof (limit_input_bounds (exec x) (w_cnt w) Hpos) as Hl.
    fold pkt_max in Hl. split; [|lia]. split; [lia|].
    unfold pkt_max, limit_input.
    assert ((0 <? max_input_pkt (options (exec x))) = true) as ->
      by (by apply Z.ltb_lt).
    cbn [andb]. destruct (_ <? w_cnt w) eqn:E; [lia|].
    apply Z.ltb_ge in E. lia. }
  destruct (read_plugin_bounds Hb (plugin_completed l) (w_first w) pkt_max
              (exec x) ltac:(lia) Hs) as [Hn1 Hs1].
  destruct (read_plugin _ _ pkt_max (exec x)) as [[n c] s1].
  cbn [fst snd] in *.
  destruct (read_trailing_bounds c (w_first w) pkt_max n s1
              ltac:(lia) ltac:(lia) Hs1) as [Hn2 _].
  destruct (read_trailing c _ pkt_max n s1) as [n2 s2]. cbn [fst snd] in *.
  destruct (adjust_bitrate _ _ s2 r) as [[[l3 s3] r3]|];
    cbn [snd produced]; [|lia].
  rewrite length_app, length_slots. lia.
Qed.

(** X17. The input thread ends normally only when the plugin is
    completed and the whole trailing stuffing is written: a turn of its
    loop which leaves the loop without abort has set the end of input, and
    no stuffing remains to add after the input; a turn after which the loop
    goes on has not set the end of input.  Once the plugin is completed, no
    turn calls it again. *)
Theorem main_normal_end cap env l (x : InputRun I A) :
  let res := main_iteration cap env l x in
  (res.1.1 = IterLeave → main_aborted res.1.2 = false →
   plugin_completed res.1.2 = true ∧ main_input_end res.1.2 = true ∧
   instuff_stop_remain (exec res.2) = 0) ∧
  (res.1.1 = IterContinue →
   main_input_end res.1.2 = false ∧ main_aborted res.1.2 = false) ∧
  (plugin_completed l = true → input (exec res.2) = input (exec x)).
Proof.
  intros res. subst res. unfold main_iteration.
  destruct (waitWork cap 0 (ring x) (wait_events env)) as [[w r]|];
    [|by cbn].
  destruct (w_aborted w) eqn:Hab.
  { unfold main_body. rewrite Hab. by cbn. }
  destruct (w_timeout w) eqn:Hto.
  { unfold main_body. rewrite Hab, Hto. by cbn. }
  rewrite (main_body_run cap env l x w r Hab Hto). cbv zeta.
  set (pkt_max := limit_input (exec x) (w_cnt w)).
  assert (Hrp : plugin_completed l = true →
                input (read_plugin (plugin_completed l) (w_first w) pkt_max
                         (exec x)).2 = input (exec x)).
  { intros ->. done. }
  destruct (read_plugin _ _ pkt_max (exec x)) as [[n c] s1].
  cbn [fst snd] in *.
  pose proof (read_trailing_input c (w_first w) pkt_max n s1) as Hrt.
  destruct (read_trailing c _ pkt_max n s1) as [n2 s2]. cbn [fst snd] in *.
  destruct (adjust_bitrate _ _ s2 r) as [[[l3 s3] r3]|] eqn:Ea;
    cbn [fst snd exec]; [|split; [done|split; [done|]]].
  - destruct (adjust_bitrate_locals _ _ _ _ _ _ _ Ea) as (H1 & H2 & H3 & H4).
    destruct (adjust_bitrate_ring _ _ _ _ _ _ _ Ea) as [Hrem _].
    cbn [plugin_completed main_input_end main_aborted] in H1, H2, H3.
    rewrite H1, H2, H3. unfold remains in Hrem.
    injection Hrem as Hstop _ _ _. rewrite Hstop.
    destruct c, (instuff_stop_remain s2 =? 0) eqn:E; cbn [andb];
      (split; [|split]); try done; try (intros; congruence).
    all: try (intros _ _; apply Z.eqb_eq in E; done).
    all: intros Hpc; rewrite H4, Hrt; by apply Hrp.
  - intros Hpc. rewrite Hrt. by apply Hrp.
Qed.
End InputMore.

Lemma initAllBuffers_windows_witness :
  (initAllBuffers 8 (input_in (new_ring 0))).1 = true.
Proof.
  pose proof (@initAllBuffers_windows ListInput FixedAnalyzer _ _ 8 0
                (input_in (new_ring 0)) buffer_fits_8 list_input_bounded
                ltac:(unfold counters_nonneg; simpl; lia) eq_refl)
    as (_ & H2 & _).
  exact H2.
Defined.

Lemma receiveNullPackets_effect_witness :
  buffer (receiveNullPackets 2 3 (exec empty_start)).2 4 = NullPacket ∧
  total_packets (receiveNullPackets 2 3 (exec empty_start)).2 = 3.
Proof.
  pose proof (receiveNullPackets_effect (I:=ListInput) (A:=FixedAnalyzer) 2 3
                (exec empty_start) ltac:(lia) ltac:(lia)
                ltac:(unfold SIZE_MOD; lia)) as (_ & H2 & _ & _ & H5 & _).
  split; [apply (H2 4); lia|exact H5].
Defined.

Lemma receiveAndValidate_valid_witness :
  (receiveAndValidate 0 4 (exec (input_in (new_ring 0)))).1 = 4.
Proof.
  pose proof (@receiveAndValidate_valid ListInput FixedAnalyzer _ _
                (exec (input_in (new_ring 0))) 0 4 _ _ eq_refl eq_refl
                ltac:(repeat constructor) ltac:(lia) ltac:(lia)
                ltac:(unfold SIZE_MOD; lia) ltac:(simpl; lia))
    as (H1 & _).
  exact H1.
Defined.

Lemma receive_at_most_witness :
  0 ≤ (receiveAndStuff 0 4 (exec empty_start)).1 ≤ 4.
Proof.
  apply (receive_at_most (I:=ListInput) (A:=FixedAnalyzer) 0 4
           (exec empty_start) list_input_bounded).
  - unfold counters_nonneg. simpl. lia.
  - unfold SIZE_MOD. lia.
Defined.

Lemma receiveAndStuff_total_witness :
  total_packets (receiveAndStuff_locals 0 4 (exec empty_start)).2 mod SIZE_MOD
  = (total_packets (exec empty_start)
     + pkt_done (receiveAndStuff_locals 0 4 (exec empty_start)).1) mod SIZE_MOD.
Proof.
  exact (proj1 (receiveAndStuff_total (I:=ListInput) (A:=FixedAnalyzer) 0 4
                  (exec empty_start) list_input_size_t
                  ltac:(unfold SIZE_MOD; lia))).
Defined.

Lemma main_gives_up_witness :
  (main_iteration 8 (mkIterEnv [] 1) first_turn
     (input_in ring_3_aborted)).1.1 = IterLeave.
Proof.
  destruct (main_gives_up (I:=ListInput) (A:=FixedAnalyzer) 8
              (mkIterEnv [] 1) first_turn (input_in ring_3_aborted)
              (mkWork 4 4 0 false true false 0) ring_3_aborted
              (mkExec PROCESSOR_PLUGIN 0 4 false 0 0 true 0)
              ltac:(vm_compute; reflexivity) ltac:(simpl; lia)
              ltac:(vm_compute; reflexivity)) as [H1 _].
  by rewrite (H1 eq_refl).
Defined.

Lemma main_iteration_max_input_witness :
  (length (produced (main_iteration 8 (mkIterEnv [] 1) first_turn
                       limited_input).2)
   ≤ length (produced limited_input)
     + Z.to_nat (max_input_pkt (options (exec limited_input))))%nat.
Proof.
  apply (main_iteration_max_input (I:=ListInput) (A:=FixedAnalyzer) 8
           (mkIterEnv [] 1) first_turn limited_input
           list_input_bounded buffer_fits_8).
  - unfold counters_nonneg. simpl. lia.
  - exact reachable_ring_2_4.
  - constructor.
  - simpl. lia.
Defined.

(** ** Calls which the size of the buffer does not limit *)

Section Frame.
Context {I A : Type} `{InputPlugin I} `{Analyzer A}.
Hypothesis Hbounded : receive_bounded I.

Implicit Types s : InputExecutor I A.

Lemma start_loop_frame fuel fuel' l s d :
  0 ≤ d → pkt_remain l + d < SIZE_MOD →
  instuff_start_remain s ≤ pkt_remain l →
  instuff_start_remain s ≤ Z.of_nat fuel → (fuel ≤ fuel')%nat →
  start_loop fuel' (grow d l) s
  = (grow d (start_loop fuel l s).1, (start_loop fuel l s).2).
Proof.
  intros Hd. revert fuel' l s.
  induction fuel as [|fuel IH]; intros fuel' l s Hrem Hsr Hf Hle.
  - simpl. destruct fuel' as [|fuel']; [done|]. simpl.
    assert ((0 <? instuff_start_remain s) = false) as ->
      by (apply Z.ltb_ge; lia).
    done.
  - destruct fuel' as [|fuel']; [lia|]. simpl.
    destruct (0 <? instuff_start_remain s) eqn:E; [|done].
    apply Z.ltb_lt in E.
    assert ((0 <? pkt_remain l) = true) as -> by (apply Z.ltb_lt; lia).
    assert ((0 <? pkt_remain l + d) = true) as -> by (apply Z.ltb_lt; lia).
    simpl.
    match goal with
    | |- start_loop fuel' ?l1' ?s1 = (grow d (start_loop fuel ?l1 _).1, _) =>
        replace l1' with (grow d l1);
        [apply IH|]
    end.
    + simpl. rewrite size_sub_small by lia. lia.
    + simpl. rewrite !size_sub_small by lia. lia.
    + simpl. rewrite size_sub_small by lia. lia.
    + lia.
    + unfold grow. simpl. rewrite !size_sub_small by lia. f_equal. lia.
Qed.

Lemma stuff_nulls_frame l s d :
  0 ≤ d → pkt_remain l + d < SIZE_MOD →
  0 ≤ instuff_nullpkt_remain s ≤ pkt_remain l →
  stuff_nulls (grow d l) s
  = (grow d (stuff_nulls l s).1, (stuff_nulls l s).2).
Proof.
  intros Hd Hrem Hnr. unfold stuff_nulls, receiveNullPackets. cbn [grow pkt_remain index pkt_done pkt_from_input].
  rewrite !Z.min_l by lia. cbn [fst snd]. f_equal.
  unfold grow. cbn [pkt_remain index pkt_done pkt_from_input]. f_equal.
  rewrite (size_sub_small (pkt_remain l + d)), (size_sub_small (pkt_remain l))
    by lia.
  lia.
Qed.

Lemma stuff_input_frame l s d :
  0 ≤ d → pkt_remain l + d < SIZE_MOD →
  0 ≤ input_due s ≤ pkt_remain l →
  stuff_input (grow d l) s
  = ((stuff_input l s).1.1, grow d (stuff_input l s).1.2, (stuff_input l s).2).
Proof.
  intros Hd Hrem Hdue. unfold stuff_input.
  cbn [grow index pkt_remain pkt_done pkt_from_input].
  set (s0 := if _ && _ then set_inpkt_remain _ s else s).
  assert (Hs0 : instuff_inpkt_remain s0 = input_due s).
  { unfold s0, input_due. by destruct (_ && _). }
  rewrite Hs0, !Z.min_r by lia.
  pose proof (receiveAndValidate_le Hbounded (index l) (input_due s) s0
                ltac:(lia)) as Hle.
  destruct (receiveAndValidate (index l) (input_due s) s0) as [count s1].
  cbn [fst snd] in *. do 2 f_equal.
  unfold grow. cbn [index pkt_remain pkt_done pkt_from_input]. f_equal.
  rewrite (size_sub_small (pkt_remain l + d)), (size_sub_small (pkt_remain l))
    by lia.
  lia.
Qed.

Lemma stuff_loop_free_S fuel l s :
  stuff_loop_free (S fuel) l s
  = (instuff_nullpkt_remain s <? pkt_remain l) &&
    let '(l1, s1) := stuff_nulls l s in
    (input_due s1 <=? pkt_remain l1) &&
    let '(go, l2, s2) := stuff_input l1 s1 in
    if go then stuff_loop_free fuel l2 s2 else true.
Proof. reflexivity. Qed.

Lemma stuff_loop_frame fuel fuel' m l s d :
  0 ≤ d → m + d < SIZE_MOD → locals_ok m l → counters_nonneg s →
  (fuel ≤ fuel')%nat → stuff_loop_free fuel l s = true →
  stuff_loop fuel' (grow d l) s
  = (grow d (stuff_loop fuel l s).1, (stuff_loop fuel l s).2).
Proof.
  intros Hd Hm. revert fuel' l s.
  induction fuel as [|fuel IH]; intros fuel' l s Hl Hs Hle Hfree; [done|].
  destruct fuel' as [|fuel']; [lia|]. rewrite !stuff_loop_S.
  rewrite stuff_loop_free_S in Hfree. apply andb_prop in Hfree as [Hnr Hfree].
  apply Z.ltb_lt in Hnr.
  pose proof Hl as (Hl1 & Hl2 & Hl3).
  pose proof Hs as (_ & Hs2 & _).
  cbn [grow pkt_remain].
  assert ((0 <? pkt_remain l) = true) as -> by (apply Z.ltb_lt; lia).
  assert ((0 <? pkt_remain l + d) = true) as -> by (apply Z.ltb_lt; lia).
  fold (grow d l).
  rewrite (stuff_nulls_frame l s d) by lia.
  destruct (stuff_nulls_bounds m l s ltac:(lia) Hl Hs) as [Hn1 Hn2].
  assert (Hrem1 : pkt_remain (stuff_nulls l s).1
                  = pkt_remain l - instuff_nullpkt_remain s).
  { unfold stuff_nulls, receiveNullPackets. cbn [fst snd pkt_remain].
    rewrite Z.min_l by lia. apply size_sub_small. lia. }
  destruct (stuff_nulls l s) as [l1 s1]. cbn [fst snd] in *.
  apply andb_prop in Hfree as [Hdue Hfree]. apply Z.leb_le in Hdue.
  cbn [grow pkt_remain].
  assert ((pkt_remain l1 =? 0) = false) as -> by (apply Z.eqb_neq; lia).
  assert ((pkt_remain l1 + d =? 0) = false) as -> by (apply Z.eqb_neq; lia).
  fold (grow d l1).
  assert (Hdue0 : 0 ≤ input_due s1).
  { destruct Hn2 as (_ & _ & ? & _ & ?). unfold input_due.
    by destruct (_ && _). }
  pose proof Hn1 as (Hn11 & Hn12 & Hn13).
  rewrite (stuff_input_frame l1 s1 d) by lia.
  destruct (stuff_input_bounds Hbounded m l1 s1 ltac:(lia) Hn1 Hn2)
    as [Hi1 Hi2].
  destruct (stuff_input l1 s1) as [[go l2] s2]. cbn [fst snd] in *.
  destruct go; [|done].
  apply IH; [done|done|lia|done].
Qed.

Lemma receiveAndStuff_unlimited i0 m m' s :
  0 ≤ m ≤ m' → m' < SIZE_MOD → counters_nonneg s →
  receiveAndStuff_free i0 m s = true →
  receiveAndStuff i0 m' s = receiveAndStuff i0 m s.
Proof.
  intros Hm Hm' Hs Hfree. unfold receiveAndStuff_free in Hfree.
  apply andb_prop in Hfree as [Hfree Hloop].
  apply andb_prop in Hfree as [Hsr Hopt]. apply Z.leb_le in Hsr.
  apply negb_true_iff in Hopt.
  unfold receiveAndStuff, receiveAndStuff_locals.
  pose proof (start_loop_frame (Z.to_nat m) (Z.to_nat m') (mkStuff i0 m 0 0) s
                (m' - m) ltac:(lia) ltac:(simpl; lia) ltac:(simpl; lia)
                ltac:(lia) ltac:(lia)) as Hstart.
  replace (grow (m' - m) (mkStuff i0 m 0 0)) with (mkStuff i0 m' 0 0) in Hstart
    by (unfold grow; simpl; f_equal; lia).
  rewrite Hstart.
  destruct (start_loop_bounds (Z.to_nat m) m (mkStuff i0 m 0 0) s)
    as [Hl Hr]; [lia|unfold locals_ok; simpl; lia|].
  pose proof (start_loop_flags (Z.to_nat m) (mkStuff i0 m 0 0) s)
    as (_ & _ & Ho).
  destruct (start_loop (Z.to_nat m) (mkStuff i0 m 0 0) s) as [l s1].
  cbn [fst snd] in *. rewrite Ho, Hopt.
  rewrite (stuff_loop_frame (S (Z.to_nat m)) (S (Z.to_nat m')) m l s1 (m' - m));
    [|lia|lia|done|by apply (remains_nonneg s)|lia|done].
  by destruct (stuff_loop (S (Z.to_nat m)) l s1) as [l2 s2].
Qed.

(** X18. A call to [receiveAndStuff] with input stuffing which the size
    [max_packets] of its buffer area does not limit (the initial stuffing
    fits and, in each turn of the loop, the null packets and the input
    packets which are due fit in what remains, until the plugin returns
    less than asked) returns the same count and leaves the same state, with
    the same packets at the same places, for any larger [max_packets]. *)
Theorem receiveAndStuff_frame i0 m m' s :
  0 ≤ m ≤ m' → m' < SIZE_MOD → counters_nonneg s →
  receiveAndStuff_free i0 m s = true →
  receiveAndStuff i0 m' s = receiveAndStuff i0 m s.
Proof. apply receiveAndStuff_unlimited. Qed.
End Frame.

Lemma receiveAndStuff_frame_witness :
  receiveAndStuff 0 32 (exec (stuffing_start 0))
  = receiveAndStuff 0 22 (exec (stuffing_start 0)).
Proof.
  apply (receiveAndStuff_frame (I:=ListInput) (A:=FixedAnalyzer)
           list_input_bounded 0 22 32 (exec (stuffing_start 0))).
  - lia.
  - unfold SIZE_MOD. lia.
  - unfold counters_nonneg. simpl. lia.
  - vm_compute. reflexivity.
Defined.

(** ** The input thread when it finds room at each turn *)



Section QuietRun.
Context {I A : Type} `{InputPlugin I} `{Analyzer A}.

Implicit Types s : InputExecutor I A.












Hypothesis Hbounded : receive_bounded I.


End QuietRun.

(** ** The stuffing scenario *)









(** The conditions on the buffer and on the input operations are needed.
    In a buffer of 19 packets the input thread has produced 19 packets
    when it has to wait for its successors. *)
Lemma stuffing_small_buffer_waits :
  stuffing_run 19 0 [1; 2; 3]
  = Some (IterBlocked, take 19 nulls_after_sequence).
Proof. vm_compute. reflexivity. Qed.

(** With at most one packet for each input operation and a buffer of 20
    packets, a turn of the loop writes one null packet only:
    [receiveAndStuff] returns 0 since no packet came from the plugin, which
    [main] takes for the end of the input.  The input thread ends after 17
    packets and the last packet of the input is never read. *)
Lemma stuffing_one_packet_turns :
  one_packet_run 20 [1; 2; 3; 4; 5; 6; 7]
  = Some (IterLeave, take 17 nulls_after_sequence) ∧
  Some 11 ∉ take 17 nulls_after_sequence.
Proof.
  split; [vm_compute; reflexivity|].
  cbn. intros Hin.
  repeat (apply elem_of_cons in Hin as [Hin|Hin]; [discriminate Hin|]).
  by apply elem_of_nil in Hin.
Qed.

(** ** The ring during a run of the input thread *)

Section InputRing.
Context {I A : Type} `{InputPlugin I} `{Analyzer A}.

(** X19. After [initAllBuffers] succeeded and [main] ran for any number
    of turns, in which the input executor was woken up in reachable states
    of the ring, the windows of the executors still tile the buffer: two
    distinct windows have no slot in common, the sizes of the windows sum to
    exactly the size of the buffer, and the window of the successor of an
    executor ends where the window of this executor starts. *)
Theorem run_input_tiles cap t envs nproc (x : InputRun I A) res :
  receive_bounded I → buffer_fits cap → counters_nonneg (exec x) →
  ring x = new_ring nproc →
  Forall (λ env, Forall (λ ev, reachable cap (ring_then ev)) (wait_events env))
         envs →
  run_input cap t envs x = Some res →
  windows_disjoint cap (ring res.2) ∧ sum_cnt (ring res.2) = cap ∧
  ∀ i e nx, ring res.2 !! i = Some e →
            ring res.2 !! ringNext (ring res.2) i = Some nx →
            (pkt_first nx + pkt_cnt nx) mod cap = pkt_first e.
Proof.
  intros Hb Hfit Hs Hring Hevs Hrun.
  pose proof (run_input_reachable Hb cap t envs nproc x res Hfit Hs Hring
                Hevs Hrun) as Hr.
  pose proof (reachable_inv cap _ Hfit Hr) as Hinv.
  split; [by apply ring_inv_disjoint|]. split; [by apply (inv_sum cap)|].
  apply (inv_chain cap _ Hinv).
Qed.

(** X20. With input stuffing, a bitrate known from the command line or,
    without one, from the plugin is scaled by the ratio of all packets to
    input packets, rounded down, as long as nothing overflows: the result is
    never lower than the known bitrate; the analyzers are not consulted and
    the state of the executor does not change. *)
Theorem getBitrate_scaled (s : InputExecutor I A) :
  let o := options s in
  let b := if 0 <? opt_bitrate o then opt_bitrate o
           else plugin_getBitrate (input s) in
  0 < b → 0 ≤ instuff_nullpkt o → 0 < instuff_inpkt o →
  instuff_nullpkt o + instuff_inpkt o < SIZE_MOD →
  b * (instuff_nullpkt o + instuff_inpkt o) < UINT64_MOD →
  b * (instuff_nullpkt o + instuff_inpkt o) / instuff_inpkt o < BITRATE_MOD →
  getBitrate s
  = (b * (instuff_nullpkt o + instuff_inpkt o) / instuff_inpkt o, s) ∧
  b ≤ (getBitrate s).1.
Proof.
  intros o b Hb Hn Hi Hsum Hprod Hres.
  assert (Hle : b ≤ b * (instuff_nullpkt o + instuff_inpkt o) / instuff_inpkt o).
  { apply Z.div_le_lower_bound; [done|]. nia. }
  assert (Hg : getBitrate s
    = (b * (instuff_nullpkt o + instuff_inpkt o) / instuff_inpkt o, s)).
  { unfold getBitrate. fold o. fold b.
    assert ((b =? 0) = false) as -> by (apply Z.eqb_neq; lia).
    assert ((instuff_inpkt o =? 0) = false) as -> by (apply Z.eqb_neq; lia).
    cbn [negb]. f_equal. unfold size_add.
    rewrite (Z.mod_small (_ + _)) by lia.
    rewrite (Z.mod_small (b * _)) by nia.
    apply Z.mod_small. lia. }
  split; [done|]. by rewrite Hg.
Qed.
End InputRing.

Lemma run_input_tiles_witness :
  sum_cnt (ring (main 8 0 [mkIterEnv [] 1]
                   (initAllBuffers 8 (stuffing_start 0)).2).2) = 8.
Proof.
  assert (Hs : counters_nonneg (exec (stuffing_start 0))).
  { unfold counters_nonneg. simpl. lia. }
  assert (Hevs : Forall (λ env, Forall (λ ev, reachable 8 (ring_then ev))
                                  (wait_events env)) [mkIterEnv [] 1]).
  { repeat constructor. }
  assert (Hrun : run_input 8 0 [mkIterEnv [] 1] (stuffing_start 0)
                 = Some (main 8 0 [mkIterEnv [] 1]
                           (initAllBuffers 8 (stuffing_start 0)).2)).
  { vm_compute. reflexivity. }
  exact (proj1 (proj2 (run_input_tiles (I:=ListInput) (A:=FixedAnalyzer) 8 0
           [mkIterEnv [] 1] 0 (stuffing_start 0)
           (main 8 0 [mkIterEnv [] 1] (initAllBuffers 8 (stuffing_start 0)).2)
           list_input_bounded buffer_fits_8 Hs eq_refl Hevs Hrun))).
Defined.

Lemma getBitrate_scaled_witness :
  1000 ≤ (getBitrate fixed_rate_input).1.
Proof.
  exact (proj2 (getBitrate_scaled (I:=ListInput) (A:=FixedAnalyzer)
           fixed_rate_input
           ltac:(vm_compute; reflexivity) ltac:(vm_compute; discriminate)
           ltac:(vm_compute; reflexivity) ltac:(vm_compute; reflexivity)
           ltac:(vm_compute; reflexivity) ltac:(vm_compute; reflexivity))).
Defined.

(** ** Command line options *)

(** X21. An option which a constructor of [IOption] returns is
    normalized: its type is one of the four types without size, a
    description of the parameters never has the type of a flag, its
    occurences and its values have a range which is not empty, the range of
    values being 0 to 0 unless the type is integer, and it has no value
    yet.  A maximum of occurences of 0 stands for 1, or for no limit in the
    description of the parameters. *)
Theorem IOption_new_normalized nm sn t mino maxo minv maxv d f o :
  IOption_new nm sn t mino maxo minv maxv d f = inr o →
  (type o = NONE ∨ type o = STRING ∨ type o = TRISTATE ∨ type o = INTEGER) ∧
  (nm = EmptyString → type o ≠ NONE) ∧
  min_occur o ≤ max_occur o ∧ min_value o ≤ max_value o ∧
  (type o ≠ INTEGER → min_value o = 0 ∧ max_value o = 0) ∧
  (maxo = 0 →
   max_occur o = if String.eqb nm EmptyString then UNLIMITED_COUNT else 1) ∧
  name o = nm ∧ short_name o = sn ∧ min_occur o = mino ∧ flags o = f ∧
  values o = [] ∧ value_count o = 0.
Proof.
  unfold IOption_new. cbv zeta.
  destruct (_ <? mino) eqn:Ho; [done|]. apply Z.ltb_ge in Ho.
  assert (Hmax : maxo = 0 → default_max_occur nm maxo
                 = if String.eqb nm EmptyString then UNLIMITED_COUNT else 1).
  { intros ->. done. }
  assert (Hnm : nm = EmptyString → String.eqb nm EmptyString = true).
  { intros ->. done. }
  destruct (String.eqb nm EmptyString) eqn:En; cbn [andb];
    destruct t; cbn [is_NONE];
    try destruct (maxv <? minv) eqn:Hv; try apply Z.ltb_ge in Hv;
    intros [= <-]; cbn;
    repeat split; auto; try lia; try done;
    try (intros Hn; specialize (Hnm Hn); done);
    unfold INT64_MAX; try lia.
Qed.

Lemma IOption_new_normalized_witness :
  type pid_option = NONE ∨ type pid_option = STRING ∨
  type pid_option = TRISTATE ∨ type pid_option = INTEGER.
Proof.
  exact (proj1 (IOption_new_normalized "pid" 112 PIDVAL 0 0 5 3 0 0
                  pid_option eq_refl)).
Defined.

(** *** Search of an option *)

Lemma search_loop_candidates nm prev m :
  nm ≠ EmptyString → Forall (λ kv, name kv.2 ≠ nm) m →
  search_loop nm prev m
  = match prev, candidates nm m with
    | None, [] => UnknownOption
    | None, [o] => Found o
    | None, p :: c :: _ => AmbiguousOption p c
    | Some p, [] => Found p
    | Some p, c :: _ => AmbiguousOption p c
    end.
Proof.
  intros Hnm. assert (En : String.eqb nm EmptyString = false) by (by apply String.eqb_neq).
  revert prev. induction m as [|[k o] m IH]; intros prev Hall.
  - simpl. rewrite En. by destruct prev.
  - apply Forall_cons in Hall as [Ho Hall]. cbn [snd] in Ho.
    cbn [search_loop]. rewrite En. cbn [negb andb].
    assert (String.eqb (name o) nm = false) as -> by (by apply String.eqb_neq).
    unfold candidates, IOptionMap in *.
    destruct (String.prefix nm (name o)) eqn:Ep.
    + destruct prev as [p|].
      * rewrite filter_cons, decide_True by done. done.
      * rewrite filter_cons, decide_True by done.
        rewrite (IH (Some o) Hall). rewrite fmap_cons. cbn [snd].
        by destruct ((filter _ m).*2).
    + rewrite (IH prev Hall).
      destruct prev as [p|]; by rewrite filter_cons, decide_False by (cbn; congruence).
Qed.

(** X22. An abbreviation of the name of an option is accepted when it is
    not ambiguous.  For a name which is not empty and is not the name of an
    option, [search] returns the only option of which the name starts with
    it; when two or more options do, it reports an ambiguous option, with
    the first two of them in the order of the map, and returns none; when
    no option does, it reports an unknown option. *)
Theorem search_abbreviation nm m :
  nm ≠ EmptyString → Forall (λ kv, name kv.2 ≠ nm) m →
  search_UString nm m
  = match candidates nm m with
    | [] => UnknownOption
    | [o] => Found o
    | p :: c :: _ => AmbiguousOption p c
    end.
Proof.
  intros Hnm Hall. unfold search_UString.
  by rewrite (search_loop_candidates nm None m Hnm Hall).
Qed.

Lemma ascii_compare_refl c : Ascii.compare c c = Eq.
Proof. unfold Ascii.compare. apply N.compare_refl. Qed.

(** A string is not before its own start in the order of the names. *)
Lemma prefix_not_lt a b : String.prefix a b = true → String.ltb b a = false.
Proof.
  revert b. induction a as [|c a IH]; intros b Hp.
  - unfold String.ltb. by destruct b.
  - destruct b as [|d b]; [done|]. simpl in Hp.
    destruct (Ascii.ascii_dec c d) as [->|]; [|done].
    specialize (IH b Hp). unfold String.ltb in *. simpl.
    by rewrite ascii_compare_refl.
Qed.

Lemma eqb_not_lt a b : String.eqb a b = true → String.ltb a b = false.
Proof.
  intros H. apply String.eqb_eq in H as ->. unfold String.ltb.
  assert (String.compare b b = Eq) as ->; [|done].
  induction b as [|c b IH]; [done|]. simpl. by rewrite ascii_compare_refl.
Qed.

Lemma map_find_Some key m o :
  map_find key m = Some o → ∃ k, (k, o) ∈ m ∧ String.eqb k key = true.
Proof.
  induction m as [|[k o'] m IH]; [done|]. simpl.
  destruct (String.eqb k key) eqn:E.
  - intros [= ->]. exists k. split; [left|done].
  - intros H. destruct (IH H) as (k' & Hin & Hk). exists k'.
    split; [by right|done].
Qed.

(** X23. The exact name of an option always designates this option, even
    when it is also the start of the names of other options: in a map in
    which the options are in the order of their names, [search] returns the
    option with the given name, if there is one, and reports nothing. *)
Theorem search_exact nm m o :
  keys_sorted m → keys_are_names m →
  map_find nm m = Some o →
  search_UString nm m = Found o.
Proof.
  unfold search_UString. induction m as [|[k o'] m IH]; [done|].
  intros [Hlt Hs] Hn Hf. apply Forall_cons in Hn as [Hk Hn]. cbn [fst snd] in Hk.
  cbn [map_find] in Hf. cbn [search_loop]. rewrite <- Hk.
  destruct (String.eqb k nm) eqn:E; [by injection Hf as ->|].
  (* the option named [nm] comes later: [nm] is not the start of [k] *)
  destruct (map_find_Some nm m o Hf) as (k' & Hin & Hk').
  apply String.eqb_eq in Hk' as ->.
  rewrite Forall_forall in Hlt. specialize (Hlt _ Hin). cbn [fst] in Hlt.
  destruct (String.prefix nm k) eqn:Ep.
  { apply prefix_not_lt in Ep. congruence. }
  rewrite andb_false_r. by apply IH.
Qed.

Lemma search_exact_witness :
  search_UString "pid" sample_options = Found pid_option.
Proof.
  apply search_exact.
  - unfold sample_options. simpl. repeat split; repeat constructor.
  - repeat constructor.
  - reflexivity.
Defined.

Lemma search_abbreviation_witness :
  search_UString "pi" sample_options
  = match candidates "pi" sample_options with
    | [] => UnknownOption
    | [o] => Found o
    | p :: c :: _ => AmbiguousOption p c
    end.
Proof.
  apply (search_abbreviation "pi").
  - discriminate.
  - repeat constructor; discriminate.
Defined.

(** *** Declaration of an option *)

Lemma compare_Gt_ltb a b : String.compare a b = Gt → String.ltb b a = true.
Proof.
  intros H. unfold String.ltb. rewrite String.compare_antisym, H. done.
Qed.

Lemma ltb_trans a b c :
  String.ltb a b = true → String.ltb b c = true → String.ltb a c = true.
Proof.
  unfold String.ltb. intros H1 H2.
  destruct (String.compare a b) eqn:E1; try done.
  destruct (String.compare b c) eqn:E2; try done.
  apply OrderedTypeEx.String_as_OT.cmp_lt in E1, E2.
  pose proof (OrderedTypeEx.String_as_OT.lt_trans _ _ _ E1 E2) as H.
  apply OrderedTypeEx.String_as_OT.cmp_lt in H.
  unfold OrderedTypeEx.String_as_OT.cmp in H. by rewrite H.
Qed.

Lemma Forall_map_erase (P : string * IOption → Prop) key m :
  Forall P m → Forall P (map_erase key m).
Proof.
  unfold map_erase, IOptionMap. induction 1 as [|x l Hx Hl IH]; [done|].
  rewrite filter_cons. case_decide; [by constructor|done].
Qed.

Lemma Forall_map_insert (P : string * IOption → Prop) key o m :
  P (key, o) → Forall P m → Forall P (map_insert key o m).
Proof.
  intros Ho. induction 1 as [|[k o'] l Hx Hl IH]; simpl; [by repeat constructor|].
  destruct (String.compare key k); by repeat constructor.
Qed.

Lemma Forall_erase_short_name (P : string * IOption → Prop) c m :
  (∀ k o, P (k, o) → P (k, set_short_name 0 o)) →
  Forall P m → Forall P (erase_short_name c m).
Proof.
  intros HP. induction 1 as [|[k o] l Hx Hl IH]; simpl; [done|].
  destruct (short_name o =? c); constructor; auto.
Qed.

Lemma keys_sorted_erase key m : keys_sorted m → keys_sorted (map_erase key m).
Proof.
  induction m as [|[k o] m IH]; [done|]. intros [Hlt Hs].
  unfold map_erase, IOptionMap in *. rewrite filter_cons.
  case_decide; [|by apply IH].
  split; [|by apply IH]. by apply (Forall_map_erase _ key m).
Qed.

Lemma keys_sorted_erase_short c m :
  keys_sorted m → keys_sorted (erase_short_name c m).
Proof.
  induction m as [|[k o] m IH]; [done|]. intros [Hlt Hs]. simpl.
  destruct (short_name o =? c); [done|].
  split; [|by apply IH]. by apply Forall_erase_short_name.
Qed.

Lemma keys_sorted_insert key o m :
  keys_sorted m → keys_sorted (map_insert key o m).
Proof.
  induction m as [|[k o'] m IH]; [done|]. intros [Hlt Hs]. simpl.
  destruct (String.compare key k) eqn:E.
  - done.
  - assert (Hk : String.ltb key k = true) by (unfold String.ltb; by rewrite E).
    split; [|done]. constructor; [done|].
    eapply Forall_impl; [exact Hlt|]. intros [k' o''] Hk'. simpl in *.
    by apply (ltb_trans key k k').
  - split; [|by apply IH].
    apply Forall_map_insert; [|done]. by apply compare_Gt_ltb.
Qed.

Lemma map_find_erase key m : map_find key (map_erase key m) = None.
Proof.
  unfold map_erase, IOptionMap. induction m as [|[k o] m IH]; [done|].
  rewrite filter_cons. case_decide as Hd; [|done].
  simpl in *. destruct (String.eqb k key); [done|]. exact IH.
Qed.

Lemma map_find_erase_ne key k m :
  k ≠ key → map_find k (map_erase key m) = map_find k m.
Proof.
  intros Hne. unfold map_erase, IOptionMap.
  induction m as [|[k' o] m IH]; [done|].
  rewrite filter_cons. case_decide as Hd; simpl in *.
  - by rewrite IH.
  - destruct (String.eqb k' key) eqn:E; [|done].
    apply String.eqb_eq in E as ->.
    assert (String.eqb key k = false) as ->; [|done].
    apply String.eqb_neq. congruence.
Qed.

Lemma map_find_insert key o m :
  map_find key m = None → map_find key (map_insert key o m) = Some o.
Proof.
  induction m as [|[k o'] m IH]; simpl.
  - by rewrite String.eqb_refl.
  - destruct (String.eqb k key) eqn:Ek; [done|]. intros Hf.
    destruct (String.compare key k) eqn:E; simpl.
    + apply String.compare_eq_iff in E as ->. by rewrite String.eqb_refl in Ek.
    + by rewrite String.eqb_refl.
    + rewrite Ek. by apply IH.
Qed.

Lemma map_find_insert_ne key k o m :
  k ≠ key → map_find k (map_insert key o m) = map_find k m.
Proof.
  intros Hne.
  assert (Hk : String.eqb key k = false) by (apply String.eqb_neq; congruence).
  induction m as [|[k' o'] m IH]; simpl.
  - by rewrite Hk.
  - destruct (String.compare key k') eqn:E; simpl.
    + done.
    + by rewrite Hk.
    + by rewrite IH.
Qed.

Lemma map_find_In key m o :
  map_find key m = Some o → ∃ k, (k, o) ∈ m.
Proof.
  intros H. destruct (map_find_Some key m o H) as (k & Hin & _). by exists k.
Qed.

Lemma map_find_erase_short c k m :
  c ≠ 0 → short_names_unique m →
  map_find k (erase_short_name c m)
  = (λ o, if short_name o =? c then set_short_name 0 o else o) <$> map_find k m.
Proof.
  intros Hc. induction m as [|[k' o] m IH]; [done|]. intros [Hu Hs]. simpl.
  destruct (short_name o =? c) eqn:E; simpl.
  - destruct (String.eqb k' k); simpl; [by rewrite E|].
    apply Z.eqb_eq in E. specialize (Hu ltac:(lia)).
    destruct (map_find k m) as [o'|] eqn:Hf; [|done]. simpl.
    destruct (map_find_In k m o' Hf) as (k0 & Hin).
    rewrite Forall_forall in Hu. specialize (Hu _ Hin). simpl in Hu.
    assert ((short_name o' =? c) = false) as ->; [|done].
    apply Z.eqb_neq. lia.
  - destruct (String.eqb k' k); simpl; [by rewrite E|]. by apply IH.
Qed.

Lemma short_names_unique_erase key m :
  short_names_unique m → short_names_unique (map_erase key m).
Proof.
  induction m as [|[k o] m IH]; [done|]. intros [Hu Hs].
  unfold map_erase, IOptionMap in *. rewrite filter_cons.
  case_decide; [|by apply IH].
  split; [|by apply IH]. intros Hn. by apply (Forall_map_erase _ key m), Hu.
Qed.

(** After the loop of [addOption], no option has the short name [c]. *)
Lemma erase_short_name_none c m :
  c ≠ 0 → short_names_unique m →
  Forall (λ kv, short_name kv.2 ≠ c) (erase_short_name c m) ∧
  short_names_unique (erase_short_name c m).
Proof.
  intros Hc. induction m as [|[k o] m IH]; [done|]. intros [Hu Hs]. simpl.
  destruct (short_name o =? c) eqn:E.
  - apply Z.eqb_eq in E. specialize (Hu ltac:(lia)). rewrite E in Hu.
    split; [constructor; [simpl; lia|done]|]. split; [done|done].
  - apply Z.eqb_neq in E. destruct (IH Hs) as [H1 H2].
    split; [by constructor|]. split; [|done].
    intros Hn. apply Forall_erase_short_name; [|by apply Hu].
    intros k' o' H. simpl in *. lia.
Qed.

Lemma short_names_unique_insert key opt m :
  Forall (λ kv, short_name kv.2 ≠ 0 → short_name kv.2 ≠ short_name opt) m →
  short_names_unique m → short_names_unique (map_insert key opt m).
Proof.
  induction m as [|[k o] m IH]; [done|]. intros Hd [Hu Hs].
  apply Forall_cons in Hd as [Ho Hd]. simpl in *.
  destruct (String.compare key k).
  - done.
  - split; [|done]. intros Hn. constructor; [simpl; intros He; apply Ho; lia|].
    eapply Forall_impl; [exact Hd|]. intros [k' o'] H. simpl in *. lia.
  - split; [|by apply IH]. intros Hn.
    apply Forall_map_insert; [simpl; intros He; by apply Ho|by apply Hu].
Qed.

Lemma search_UChar_insert key opt m :
  map_find key m = None →
  Forall (λ kv, short_name kv.2 ≠ short_name opt) m →
  search_UChar (short_name opt) (map_insert key opt m) = Found opt.
Proof.
  induction m as [|[k o] m IH]; simpl.
  - by rewrite Z.eqb_refl.
  - destruct (String.eqb k key) eqn:Ek; [done|]. intros Hf Hd.
    apply Forall_cons in Hd as [Ho Hd]. simpl in Ho.
    destruct (String.compare key k) eqn:E; simpl.
    + apply String.compare_eq_iff in E as ->. by rewrite String.eqb_refl in Ek.
    + by rewrite Z.eqb_refl.
    + assert ((short_name o =? short_name opt) = false) as ->
        by (by apply Z.eqb_neq).
      by apply IH.
Qed.

(** What [addOption] does to a map in order. *)
Lemma addOption_spec opt m :
  map_ok m →
  map_ok (addOption opt m) ∧
  map_find (name opt) (addOption opt m) = Some opt ∧
  (short_name opt ≠ 0 →
   search_UChar (short_name opt) (addOption opt m) = Found opt) ∧
  (∀ k, k ≠ name opt →
        map_find k (addOption opt m) = loses_short_name opt <$> map_find k m).
Proof.
  intros [Hs Hn Hu]. unfold addOption.
  set (m1 := map_erase (name opt) m).
  assert (Hs1 : keys_sorted m1) by (by apply keys_sorted_erase).
  assert (Hn1 : keys_are_names m1) by (by apply Forall_map_erase).
  assert (Hu1 : short_names_unique m1) by (by apply short_names_unique_erase).
  assert (Hf1 : map_find (name opt) m1 = None) by apply map_find_erase.
  destruct (short_name opt =? 0) eqn:E; cbn [negb].
  - apply Z.eqb_eq in E.
    split; [|split; [|split]].
    + split.
      * by apply keys_sorted_insert.
      * by apply Forall_map_insert.
      * apply short_names_unique_insert; [|done].
        apply Forall_forall. intros x _ Hx. lia.
    + by apply map_find_insert.
    + done.
    + intros k Hk. rewrite map_find_insert_ne by done.
      unfold m1. rewrite map_find_erase_ne by done.
      unfold loses_short_name. rewrite E. simpl.
      by destruct (map_find k m).
  - apply Z.eqb_neq in E.
    destruct (erase_short_name_none (short_name opt) m1 E Hu1) as [Hnone Hu2].
    assert (Hf2 : map_find (name opt) (erase_short_name (short_name opt) m1)
                  = None).
    { rewrite map_find_erase_short by done. by rewrite Hf1. }
    split; [|split; [|split]].
    + split.
      * by apply keys_sorted_insert, keys_sorted_erase_short.
      * apply Forall_map_insert; [done|].
        by apply Forall_erase_short_name.
      * apply short_names_unique_insert; [|done].
        eapply Forall_impl; [exact Hnone|]. done.
    + by apply map_find_insert.
    + intros _. by apply search_UChar_insert.
    + intros k Hk. rewrite map_find_insert_ne by done.
      rewrite map_find_erase_short by done.
      unfold m1. rewrite map_find_erase_ne by done.
      unfold loses_short_name.
      assert ((short_name opt =? 0) = false) as -> by (by apply Z.eqb_neq).
      done.
Qed.

(** X24. [addOption] keeps the options of a command in order: after it,
    the names are still the keys of the map, in increasing order, and no two
    options have the same short name.  The new option replaces the option
    of the same name, if any, and is found by its name; it is the option
    which its short name, if it has one, designates, because an older option
    with this short name loses it.  Nothing else changes in the other
    options. *)
Theorem addOption_map_ok opt m :
  map_ok m →
  map_ok (addOption opt m) ∧
  map_find (name opt) (addOption opt m) = Some opt ∧
  (short_name opt ≠ 0 →
   search_UChar (short_name opt) (addOption opt m) = Found opt) ∧
  (∀ k, k ≠ name opt →
        map_find k (addOption opt m) = loses_short_name opt <$> map_find k m).
Proof. apply addOption_spec. Qed.

Lemma sample_options_ok : map_ok sample_options.
Proof.
  split.
  - simpl. repeat split; repeat constructor.
  - repeat constructor.
  - simpl. repeat split; try done. intros _. repeat constructor. done.
Qed.

Lemma addOption_map_ok_witness :
  search_UChar 112 (addOption pcr_option sample_options) = Found pcr_option.
Proof.
  destruct (addOption_map_ok pcr_option sample_options sample_options_ok)
    as (_ & _ & H & _).
  apply H. discriminate.
Defined.

(** *** Validation of a value *)

Lemma to_int64_small z : - 2 ^ 63 ≤ z < 2 ^ 63 → to_int64 z = z.
Proof. intros Hz. unfold to_int64. rewrite Z.mod_small; lia. Qed.

Lemma push_value_spec opt arg opt' :
  - 2 ^ 61 ≤ int_base arg < 2 ^ 61 → 0 ≤ int_count arg < 2 ^ 63 →
  int_base arg + int_count arg ≤ 2 ^ 61 →
  push_value opt arg = inr opt' →
  values opt' = values opt ++ [arg] ∧
  (type opt = INTEGER → 0 < int_count arg →
   min_value opt ≤ int_base arg ∧
   int_base arg + int_count arg - 1 ≤ max_value opt) ∧
  value_count opt'
  = size_add (value_count opt)
      (if is_INTEGER (type opt) && (0 <? int_count arg) then int_count arg
       else 1) ∧
  same_description opt opt'.
Proof.
  intros Hb Hc Hbc. unfold push_value. cbv zeta.
  rewrite (to_int64_small (int_count arg)) by lia.
  rewrite (to_int64_small (int_base arg + int_count arg)) by lia.
  rewrite (to_int64_small (int_base arg + int_count arg - 1)) by lia.
  destruct (is_INTEGER (type opt) && (0 <? int_count arg)) eqn:Ei; cbn [andb].
  - destruct (int_base arg <? min_value opt) eqn:E1; [done|].
    destruct (max_value opt <? _) eqn:E2; [done|].
    apply Z.ltb_ge in E1, E2. intros [= <-]. cbn.
    split; [done|]. split; [lia|]. split; [done|]. by repeat split.
  - intros [= <-]. cbn. split; [done|]. split; [|split; [done|by repeat split]].
    intros Ht Hpos. rewrite Ht in Ei. cbn in Ei.
    apply Z.ltb_ge in Ei. lia.
Qed.

Section Validation.
Context `{ArgsConstants} `{ValueSyntax}.

Lemma integer_value_spec opt v arg :
  conversions_bounded opt → integer_value opt v = inr arg →
  av_string arg = Some v ∧ - 2 ^ 61 ≤ int_base arg < 2 ^ 61 ∧
  0 < int_count arg < 2 ^ 63 ∧ int_base arg + int_count arg ≤ 2 ^ 61.
Proof.
  intros [Hi _]. unfold integer_value.
  destruct (toInteger v (decimals opt)) as [b|] eqn:E1.
  { intros [= <-]. cbn. apply Hi in E1. split; [done|lia]. }
  destruct (String.index 0 "-" v) as [point|]; [|done].
  destruct (S point <? String.length v)%nat; [|done].
  destruct (toInteger (String.substring 0 point v) _) as [b|] eqn:E2; [|done].
  destruct (toInteger (String.substring (S point) _ v) _) as [last|] eqn:E3;
    [|done].
  destruct (last <? b) eqn:E4; [done|]. apply Z.ltb_ge in E4.
  apply Hi in E2, E3. intros [= <-]. cbn.
  rewrite (to_int64_small (last + 1)) by lia.
  rewrite (to_int64_small (_ - b)) by lia.
  unfold to_size_t, SIZE_MOD. rewrite Z.mod_small by lia.
  split; [done|lia].
Qed.

(** What a successful call to [validateParameter] does. *)
Lemma validateParameter_spec opt val opt' :
  conversions_bounded opt →
  validateParameter opt val = inr opt' →
  ∃ a, values opt' = values opt ++ [a] ∧ av_string a = val ∧
       (0 < int_count a → type opt = INTEGER ∧
          min_value opt ≤ int_base a ∧
          int_base a + int_count a - 1 ≤ max_value opt) ∧
       value_count opt'
       = size_add (value_count opt) (if 0 <? int_count a then int_count a
                                     else 1) ∧
       same_description opt opt' ∧
       (values_in_range opt → values_in_range opt').
Proof.
  intros Hconv Hv.
  assert (Hpush : ∀ arg, av_string arg = val →
            - 2 ^ 61 ≤ int_base arg < 2 ^ 61 → 0 ≤ int_count arg < 2 ^ 63 →
  int_base arg + int_count arg ≤ 2 ^ 61 →
            (0 < int_count arg → type opt = INTEGER) →
            push_value opt arg = inr opt' →
            ∃ a, values opt' = values opt ++ [a] ∧ av_string a = val ∧
              (0 < int_count a → type opt = INTEGER ∧
                 min_value opt ≤ int_base a ∧
                 int_base a + int_count a - 1 ≤ max_value opt) ∧
              value_count opt'
              = size_add (value_count opt) (if 0 <? int_count a then int_count a
                                            else 1) ∧
              same_description opt opt' ∧
              (values_in_range opt → values_in_range opt')).
  { intros arg Hs Hb Hc Hbc Hty Hp.
    destruct (push_value_spec opt arg opt' Hb Hc Hbc Hp) as (H1 & H2 & H3 & H4).
    exists arg. split; [done|]. split; [done|].
    assert (H2' : 0 < int_count arg → type opt = INTEGER ∧
              min_value opt ≤ int_base arg ∧
              int_base arg + int_count arg - 1 ≤ max_value opt).
    { intros Hpos. split; [by apply Hty|]. by apply H2; [apply Hty|]. }
    split; [done|]. split.
    { rewrite H3. destruct (0 <? int_count arg) eqn:E.
      - apply Z.ltb_lt in E. by rewrite (Hty E).
      - by rewrite andb_false_r. }
    split; [done|].
    unfold values_in_range. rewrite H1.
    destruct H4 as (_ & _ & _ & _ & _ & -> & -> & _).
    intros Hall. apply Forall_app. split; [done|].
    constructor; [|done]. intros Hpos. by apply H2'. }
  unfold validateParameter in Hv.
  destruct (type opt) eqn:Ht, val as [v|]; try done;
    try (destruct (Z.land (flags opt) IOPT_OPTVALUE =? 0); [done|]);
    try (by apply (Hpush (mkArgValue None 0 0)); cbn; try done; try lia);
    try (by apply (Hpush (mkArgValue (Some v) 0 0)); cbn; try done; try lia).
  - destruct (toTristate v); [|done].
    by apply (Hpush (mkArgValue (Some v) 0 0)); cbn; try done; try lia.
  - destruct (negb (enum_empty (enumeration opt))).
    + destruct (enum_value (enumeration opt) v) as [i|] eqn:Ee; [|done].
      pose proof (proj2 Hconv v i Ee) as Hi.
      apply (Hpush (mkArgValue (Some v) i 1)); cbn; try done; lia.
    + destruct (integer_value opt v) as [e|arg] eqn:Ei; [done|].
      destruct (integer_value_spec opt v arg Hconv Ei) as (Hs & Hb & Hc & Hbc).
      apply (Hpush arg); try done. lia.
Qed.

(** X25. [validateParameter] only adds values which are in the range of
    the option.  When it returns true, the description of the option is
    what it was and one value is added after the previous ones, with the
    string which was given; for an option of type integer, this value is one
    integer, or a range of integers, within the minimum and the maximum of
    the option, and the number of occurences of the option grows by the
    number of integers of the range, by 1 in the other cases. *)
Theorem validateParameter_in_range opt val opt' :
  conversions_bounded opt →
  validateParameter opt val = inr opt' →
  ∃ a, values opt' = values opt ++ [a] ∧ av_string a = val ∧
       (0 < int_count a → type opt = INTEGER ∧
          min_value opt ≤ int_base a ∧
          int_base a + int_count a - 1 ≤ max_value opt) ∧
       value_count opt'
       = size_add (value_count opt) (if 0 <? int_count a then int_count a
                                     else 1) ∧
       same_description opt opt' ∧
       (values_in_range opt → values_in_range opt').
Proof. apply validateParameter_spec. Qed.

Lemma validate_values_spec opt vals :
  (type opt = NONE ∨ type opt = STRING ∨ type opt = TRISTATE
   ∨ type opt = INTEGER) →
  conversions_bounded opt → values_in_range opt →
  validate_values opt vals ≠ inl AssertionFailure ∧
  ∀ opt', validate_values opt vals = inr opt' →
    same_description opt opt' ∧ values_in_range opt' ∧
    length (values opt') = (length (values opt) + length vals)%nat.
Proof.
  revert opt. induction vals as [|val vals IH]; intros opt Hty Hconv Hin.
  { split; [done|]. intros opt' [= <-]. split; [by repeat split|].
    split; [done|]. simpl. lia. }
  cbn [validate_values].
  destruct (validateParameter opt val) as [e|opt1] eqn:Ev.
  - split; [|done]. intros [= ->]. unfold validateParameter in Ev.
    destruct Hty as [Ht|[Ht|[Ht|Ht]]]; rewrite Ht in Ev;
      destruct val as [v|]; try done;
      try (destruct (Z.land (flags opt) IOPT_OPTVALUE =? 0); [done|]);
      try (destruct (toTristate v); [|done]);
      try (destruct (negb (enum_empty (enumeration opt)));
           [destruct (enum_value (enumeration opt) v); [|done]
           |destruct (integer_value opt v) as [e'|arg] eqn:Ei;
            [unfold integer_value in Ei;
             repeat match type of Ei with
                    | context [match ?x with _ => _ end] => destruct x
                    end; congruence|]]);
      unfold push_value in Ev;
      repeat match type of Ev with
             | context [if ?x then _ else _] => destruct x
             end; done.
  - destruct (validateParameter_spec opt val opt1 Hconv Ev)
      as (a & Hvals & _ & _ & _ & Hsame & Hr).
    pose proof Hsame as (_ & _ & Hty' & _ & _ & _ & _ & Hd & _ & He).
    destruct (IH opt1) as [IH1 IH2].
    { by rewrite Hty'. }
    { unfold conversions_bounded. by rewrite Hd, He. }
    { by apply Hr. }
    split; [done|]. intros opt' Hv. destruct (IH2 opt' Hv) as (Hs2 & Hr2 & Hl).
    split.
    { unfold same_description in *. intuition congruence. }
    split; [done|]. rewrite Hl, Hvals, length_app. simpl. lia.
Qed.

(** X26. The assertions of [validateParameter] hold for every option
    which the constructor of [IOption] built, whatever values are validated
    one after the other for this option, and all the values which the
    option got are within its range. *)
Theorem validate_values_of_IOption nm sn t mino maxo minv maxv d f o vals :
  IOption_new nm sn t mino maxo minv maxv d f = inr o →
  conversions_bounded o →
  validate_values o vals ≠ inl AssertionFailure ∧
  ∀ o', validate_values o vals = inr o' →
    same_description o o' ∧ values_in_range o' ∧
    length (values o') = length vals.
Proof.
  intros Hnew Hconv.
  assert (Hty : type o = NONE ∨ type o = STRING ∨ type o = TRISTATE
                ∨ type o = INTEGER).
  { unfold IOption_new in Hnew. cbv zeta in Hnew.
    destruct (_ <? mino); [done|].
    destruct (String.eqb nm EmptyString), t; cbn [is_NONE andb] in Hnew;
      try destruct (maxv <? minv); try done;
      injection Hnew as <-; cbn; auto. }
  assert (Hvals : values o = []).
  { unfold IOption_new in Hnew. cbv zeta in Hnew.
    destruct (_ <? mino); [done|].
    destruct (String.eqb nm EmptyString), t; cbn [is_NONE andb] in Hnew;
      try destruct (maxv <? minv); try done;
      by injection Hnew as <-. }
  destruct (validate_values_spec o vals Hty Hconv) as [H1 H2].
  { unfold values_in_range. by rewrite Hvals. }
  split; [done|]. intros o' Hv. destruct (H2 o' Hv) as (Ha & Hb & Hc).
  split; [done|]. split; [done|]. by rewrite Hc, Hvals.
Qed.
End Validation.

Lemma sample_bounded : conversions_bounded pid_option.
Proof.
  split; [|done]. intros s v. cbn.
  assert (Hd : ∀ c x, digit c = Some x → 0 ≤ x ≤ 9).
  { intros c x. unfold digit.
    destruct (_ && _) eqn:E; [|done]. intros [= <-].
    apply andb_prop in E as [E1 E2]. apply Z.leb_le in E1, E2. lia. }
  destruct s as [|a [|b [|c s]]]; try done.
  - intros Ha. apply Hd in Ha. lia.
  - destruct (digit a) as [x|] eqn:Ea; [|done].
    destruct (digit b) as [y|] eqn:Eb; [|done].
    intros [= <-]. apply Hd in Ea, Eb. lia.
Qed.

Lemma validateParameter_in_range_witness : values_in_range pid_12.
Proof.
  destruct (validateParameter_in_range pid_option (Some "12"%string) pid_12
              sample_bounded eq_refl) as (a & _ & _ & _ & _ & _ & Hr).
  apply Hr. constructor.
Defined.

Lemma validate_values_of_IOption_witness :
  validate_values pid_option [Some "12"%string] ≠ inl AssertionFailure.
Proof.
  exact (proj1 (validate_values_of_IOption "pid" 112 PIDVAL 0 0 5 3 0 0
                  pid_option [Some "12"%string] eq_refl sample_bounded)).
Defined.

(** *** Predefined options and the flags of a restart *)

Lemma map_find_map_erase k key m :
  map_find k (map_erase key m)
  = if String.eqb k key then None else map_find k m.
Proof.
  destruct (String.eqb k key) eqn:E.
  - apply String.eqb_eq in E as ->. apply map_find_erase.
  - apply String.eqb_neq in E. by apply map_find_erase_ne.
Qed.

Lemma land_restart_flags_keeps `{ArgsConstants} f b :
  Z.land f b ≠ 0 → Z.land (restart_flags f) b ≠ 0.
Proof.
  intros Hb. unfold restart_flags. rewrite !Z.land_lor_distr_l.
  intros H0. apply Z.lor_eq_0_iff in H0 as [H0 _].
  apply Z.lor_eq_0_iff in H0 as [H0 _]. done.
Qed.

Lemma land_restart_flags_help `{ArgsConstants} f :
  NO_HELP ≠ 0 → Z.land (restart_flags f) NO_HELP ≠ 0.
Proof.
  intros Hb. unfold restart_flags. rewrite !Z.land_lor_distr_l.
  rewrite Z.land_diag.
  intros H0. apply Z.lor_eq_0_iff in H0 as [H0 _].
  apply Z.lor_eq_0_iff in H0 as [_ H0]. done.
Qed.

Lemma map_find_update key f k m :
  map_find k (map_update key f m)
  = (if String.eqb k key then f else id) <$> map_find k m.
Proof.
  induction m as [|[k' o] m IH]; [done|]. simpl.
  destruct (String.eqb k' key) eqn:E1; simpl.
  - destruct (String.eqb k' k) eqn:E2; simpl.
    + apply String.eqb_eq in E1, E2. subst. by rewrite String.eqb_refl.
    + apply String.eqb_eq in E1 as ->.
      assert (String.eqb k key = false) as ->.
      { apply String.eqb_neq. intros ->. by rewrite String.eqb_refl in E2. }
      by destruct (map_find k m).
  - destruct (String.eqb k' k) eqn:E2; simpl; [|done].
    apply String.eqb_eq in E2 as ->. by rewrite E1.
Qed.

Lemma Forall_map_update (P : string * IOption → Prop) key f m :
  (∀ k o, P (k, o) → P (k, f o)) → Forall P m → Forall P (map_update key f m).
Proof.
  intros HP. induction 1 as [|[k o] l Hx Hl IH]; simpl; [done|].
  destruct (String.eqb k key); constructor; auto.
Qed.

Lemma map_ok_update key syn text m :
  map_ok m → map_ok (map_update key (set_help syn text) m).
Proof.
  intros [Hs Hn Hu]. split.
  - clear Hn Hu. induction m as [|[k o] m IH]; [done|].
    destruct Hs as [Hlt Hs]. simpl. destruct (String.eqb k key); [done|].
    split; [|by apply IH]. by apply Forall_map_update.
  - by apply Forall_map_update.
  - clear Hs Hn. induction m as [|[k o] m IH]; [done|].
    destruct Hu as [Hu1 Hu2]. simpl. destruct (String.eqb k key); [done|].
    split; [|by apply IH]. intros Hn. by apply Forall_map_update, Hu1.
Qed.

Lemma map_ok_erase key m : map_ok m → map_ok (map_erase key m).
Proof.
  intros [Hs Hn Hu]. split.
  - by apply keys_sorted_erase.
  - by apply Forall_map_erase.
  - by apply short_names_unique_erase.
Qed.

(** One step of [adjustPredefinedOptions]. *)
Lemma adjust_option_spec no nm o syn text a :
  name o = nm → map_ok (iopts a) →
  ∃ a', adjust_option no nm (inr o) syn text a = inr a' ∧
        map_ok (iopts a') ∧ args_flags a' = args_flags a ∧
        (is_Some (map_find nm (iopts a')) ↔ Z.land (args_flags a) no = 0) ∧
        (∀ k, k ≠ nm →
           is_Some (map_find k (iopts a')) ↔ is_Some (map_find k (iopts a))).
Proof.
  intros Hnm Hok. unfold adjust_option.
  destruct (Z.land (args_flags a) no =? 0) eqn:E; cbn [negb].
  - apply Z.eqb_eq in E.
    destruct (map_find nm (iopts a)) as [o'|] eqn:Hf.
    + exists a. rewrite Hf. split; [done|]. split; [done|]. split; [done|].
      split; [split; [done|by eexists]|done].
    + destruct (addOption_spec o (iopts a) Hok) as (Hok1 & Hf1 & _ & Hother).
      rewrite Hnm in Hf1, Hother.
      unfold help_text. rewrite Hf1. eexists. split; [done|].
      cbn [iopts args_flags].
      split; [by apply map_ok_update|]. split; [done|]. split.
      * rewrite map_find_update, Hf1. by rewrite String.eqb_refl.
      * intros k Hk. rewrite map_find_update, (Hother k Hk).
        rewrite !fmap_is_Some. done.
  - apply Z.eqb_neq in E. eexists. split; [done|]. cbn [iopts args_flags].
    split; [by apply map_ok_erase|]. split; [done|]. split.
    + rewrite map_find_erase. split; [by intros [? ?]|done].
    + intros k Hk. by rewrite map_find_erase_ne.
Qed.

Section PredefinedOptions.
Context `{ArgsConstants}.

(** X27. The flags which [processPendingRestart] sets before it analyzes
    the new arguments of a restart take the option [--help] away.  With
    the flags of a plugin, in which the predefined options [--version],
    [--verbose] and [--debug] are disabled, [setFlags] with these flags and
    the two flags of the restart throws nothing and erases the options of
    these four names, whoever defined them; the other options are what they
    were.  The flags which were set stay set. *)
Theorem setFlags_for_restart f a :
  NO_HELP ≠ 0 →
  Z.land f NO_VERSION ≠ 0 → Z.land f NO_VERBOSE ≠ 0 → Z.land f NO_DEBUG ≠ 0 →
  ∃ a', setFlags (restart_flags f) a = inr a' ∧
        args_flags a' = restart_flags f ∧
        iopts a'
        = map_erase "debug"
            (map_erase "verbose"
               (map_erase "version" (map_erase "help" (iopts a)))) ∧
        (∀ k, map_find k (iopts a')
              = if predefined_name k then None else map_find k (iopts a)) ∧
        (∀ b, Z.land f b ≠ 0 → Z.land (args_flags a') b ≠ 0).
Proof.
  intros Hh Hv Hb Hd.
  pose proof (land_restart_flags_help f Hh) as H1.
  pose proof (land_restart_flags_keeps f _ Hv) as H2.
  pose proof (land_restart_flags_keeps f _ Hb) as H3.
  pose proof (land_restart_flags_keeps f _ Hd) as H4.
  apply Z.eqb_neq in H1, H2, H3, H4.
  eexists. split.
  { unfold setFlags, adjustPredefinedOptions, then_adjust, adjust_option.
    cbn [args_flags iopts]. rewrite H1. cbn [negb args_flags iopts].
    rewrite H2. cbn [negb args_flags iopts].
    rewrite H3. cbn [negb args_flags iopts].
    rewrite H4. cbn [negb args_flags iopts]. reflexivity. }
  cbn [args_flags iopts]. split; [done|]. split; [done|]. split.
  - intros k. rewrite !map_find_map_erase. unfold predefined_name.
    destruct (String.eqb k "debug"), (String.eqb k "verbose"),
      (String.eqb k "version"), (String.eqb k "help"); done.
  - intros b. apply land_restart_flags_keeps.
Qed.
(** X28. [adjustPredefinedOptions] throws nothing and keeps the options
    of the command in order.  After it, each of the four predefined options
    [--help], [--version], [--verbose] and [--debug] is defined exactly when
    its flag does not disable it, whether the command had defined an option
    of this name itself or not; the options of other names which were
    defined are still defined, and no other one is. *)
Theorem adjustPredefinedOptions_defined a :
  map_ok (iopts a) →
  ∃ a', adjustPredefinedOptions a = inr a' ∧
        map_ok (iopts a') ∧ args_flags a' = args_flags a ∧
        (is_Some (map_find "help" (iopts a'))
         ↔ Z.land (args_flags a) NO_HELP = 0) ∧
        (is_Some (map_find "version" (iopts a'))
         ↔ Z.land (args_flags a) NO_VERSION = 0) ∧
        (is_Some (map_find "verbose" (iopts a'))
         ↔ Z.land (args_flags a) NO_VERBOSE = 0) ∧
        (is_Some (map_find "debug" (iopts a'))
         ↔ Z.land (args_flags a) NO_DEBUG = 0) ∧
        (∀ k, predefined_name k = false →
           is_Some (map_find k (iopts a')) ↔ is_Some (map_find k (iopts a))).
Proof.
  intros Hok. unfold adjustPredefinedOptions.
  destruct (adjust_option_spec NO_HELP "help"
              (mkIOption "help" 0 INTEGER 0 1 INT_MIN INT_MAX 0
                 (Z.lor (Z.lor IOPT_PREDEFINED IOPT_OPTVALUE) IOPT_OPTVAL_NOHELP)
                 HelpFormatEnum EmptyString EmptyString [] 0)
              EmptyString "Display this help text." a eq_refl Hok)
    as (a1 & E1 & Hok1 & Hf1 & Hd1 & Ho1).
  change (IOption_enum "help" 0 HelpFormatEnum 0 1
            (Z.lor (Z.lor IOPT_PREDEFINED IOPT_OPTVALUE) IOPT_OPTVAL_NOHELP))
    with (@inr ArgsError _
            (mkIOption "help" 0 INTEGER 0 1 INT_MIN INT_MAX 0
               (Z.lor (Z.lor IOPT_PREDEFINED IOPT_OPTVALUE) IOPT_OPTVAL_NOHELP)
               HelpFormatEnum EmptyString EmptyString [] 0)).
  rewrite E1. cbn [then_adjust].
  destruct (adjust_option_spec NO_VERSION "version"
              (mkIOption "version" 0 INTEGER 0 1 INT_MIN INT_MAX 0
                 (Z.lor (Z.lor IOPT_PREDEFINED IOPT_OPTVALUE) IOPT_OPTVAL_NOHELP)
                 VersionFormatEnum EmptyString EmptyString [] 0)
              EmptyString "Display the TSDuck version number." a1 eq_refl Hok1)
    as (a2 & E2 & Hok2 & Hf2 & Hd2 & Ho2).
  change (IOption_enum "version" 0 VersionFormatEnum 0 1
            (Z.lor (Z.lor IOPT_PREDEFINED IOPT_OPTVALUE) IOPT_OPTVAL_NOHELP))
    with (@inr ArgsError _
            (mkIOption "version" 0 INTEGER 0 1 INT_MIN INT_MAX 0
               (Z.lor (Z.lor IOPT_PREDEFINED IOPT_OPTVALUE) IOPT_OPTVAL_NOHELP)
               VersionFormatEnum EmptyString EmptyString [] 0)).
  rewrite E2. cbn [then_adjust].
  destruct (adjust_option_spec NO_VERBOSE "verbose"
              (mkIOption "verbose" 118 NONE 0 1 0 0 0 IOPT_PREDEFINED []
                 EmptyString EmptyString [] 0)
              EmptyString "Produce verbose output." a2 eq_refl Hok2)
    as (a3 & E3 & Hok3 & Hf3 & Hd3 & Ho3).
  change (IOption_new "verbose" 118 NONE 0 1 0 0 0 IOPT_PREDEFINED)
    with (@inr ArgsError _
            (mkIOption "verbose" 118 NONE 0 1 0 0 0 IOPT_PREDEFINED []
               EmptyString EmptyString [] 0)).
  rewrite E3. cbn [then_adjust].
  destruct (adjust_option_spec NO_DEBUG "debug"
              (mkIOption "debug" 100 INTEGER 0 1 1 INT64_MAX 0
                 (Z.lor IOPT_PREDEFINED IOPT_OPTVALUE) []
                 EmptyString EmptyString [] 0)
              "level"
              "Produce debug traces. The default level is 1. Higher levels produce more messages."
              a3 eq_refl Hok3)
    as (a4 & E4 & Hok4 & Hf4 & Hd4 & Ho4).
  change (IOption_new "debug" 100 POSITIVE 0 1 0 0 0
            (Z.lor IOPT_PREDEFINED IOPT_OPTVALUE))
    with (@inr ArgsError _
            (mkIOption "debug" 100 INTEGER 0 1 1 INT64_MAX 0
               (Z.lor IOPT_PREDEFINED IOPT_OPTVALUE) []
               EmptyString EmptyString [] 0)).
  rewrite E4. exists a4. split; [done|]. split; [done|].
  split; [congruence|].
  rewrite Hf3, Hf2, Hf1 in Hd4. rewrite Hf2, Hf1 in Hd3. rewrite Hf1 in Hd2.
  split; [|split; [|split; [|split]]].
  - rewrite (Ho4 "help"%string), (Ho3 "help"%string), (Ho2 "help"%string);
      done.
  - rewrite (Ho4 "version"%string), (Ho3 "version"%string); done.
  - rewrite (Ho4 "verbose"%string); done.
  - done.
  - intros k Hk. unfold predefined_name in Hk.
    apply orb_false_elim in Hk as [Hk Hk4].
    apply orb_false_elim in Hk as [Hk Hk3].
    apply orb_false_elim in Hk as [Hk1 Hk2].
    apply String.eqb_neq in Hk1, Hk2, Hk3, Hk4.
    by rewrite (Ho4 k), (Ho3 k), (Ho2 k), (Ho1 k).
Qed.
End PredefinedOptions.

Lemma setFlags_for_restart_witness :
  ∃ a', setFlags (restart_flags 832) sample_args = inr a' ∧
        args_flags a' = restart_flags 832 ∧
        iopts a'
        = map_erase "debug"
            (map_erase "verbose"
               (map_erase "version" (map_erase "help" (iopts sample_args)))) ∧
        (∀ k, map_find k (iopts a')
              = if predefined_name k then None
                else map_find k (iopts sample_args)) ∧
        (∀ b, Z.land 832 b ≠ 0 → Z.land (args_flags a') b ≠ 0).
Proof.
  apply (setFlags_for_restart (H:=sample_constants) 832 sample_args);
    vm_compute; discriminate.
Defined.

Lemma adjustPredefinedOptions_defined_witness :
  ∃ a', adjustPredefinedOptions (mkArgs sample_options 0) = inr a' ∧
        map_ok (iopts a') ∧ args_flags a' = 0 ∧
        (is_Some (map_find "help" (iopts a')) ↔ Z.land 0 NO_HELP = 0) ∧
        (is_Some (map_find "version" (iopts a')) ↔ Z.land 0 NO_VERSION = 0) ∧
        (is_Some (map_find "verbose" (iopts a')) ↔ Z.land 0 NO_VERBOSE = 0) ∧
        (is_Some (map_find "debug" (iopts a')) ↔ Z.land 0 NO_DEBUG = 0) ∧
        (∀ k, predefined_name k = false →
           is_Some (map_find k (iopts a'))
           ↔ is_Some (map_find k sample_options)).
Proof.
  exact (adjustPredefinedOptions_defined (H:=sample_constants)
           (mkArgs sample_options 0) sample_options_ok).
Defined.
